(** * A shallow embedding of the Kademlia DHT core (package [dht]) and of
    its in-memory store, with the properties of the specification that
    can be settled on the code.

    Conventions.
    - A Go [[]byte] is a [list byte]; a Go [string] is a [string];
      [string(b)] is [string_of_list_byte b].
    - A Go [map[string]T] is a [gmap string T]; a [map[string]bool] that
      only ever stores [true] is a [gset string].
    - [time.Time] is an instant counted in nanoseconds, a [Z];
      [time.Duration] is a number of nanoseconds.
    - A slice indexed or updated by position is a list with stdpp's lookup
      and insert; an index out of range is a Go panic and is modelled as
      such. *)

From Stdlib Require Import ZArith NArith Lia List Bool.
From Stdlib.Strings Require Import String Ascii Byte.
From stdpp Require Import base option list gmap sets strings sorting.

Local Open Scope Z_scope.

Abbreviation bytes := (list byte) (only parsing).
Abbreviation Time := Z (only parsing).
Abbreviation Duration := Z (only parsing).

(** [time.Second] and [time.Hour], in nanoseconds. *)
Definition Second : Duration := 1000000000.
Definition Hour : Duration := 3600 * Second.

(** [t.After(u)]: [t] is strictly later than [u]. *)
Definition After (t u : Time) : bool := u <? t.

(** [t.Add(d)]. *)
Definition Add (t : Time) (d : Duration) : Time := t + d.

(** The zero [time.Time] (January 1, year 1, 00:00 UTC), which a Go map of
    [time.Time] yields for an absent key. *)
Definition zeroTime : Time := -62135596800 * Second.

(* ------------------------------------------------------------------ *)
(** ** The in-memory store (src/unnamed/part_000) *)
(* ------------------------------------------------------------------ *)

Module MemoryStore.

(** [type MemoryStore struct]; the mutex serialises the operations and
    has no counterpart in a sequential model. *)
Record t := mk {
  data : gmap string bytes;
  refreshMap : gmap string Time;
  expireMap : gmap string Time
}.

(** [Init]. *)
Definition Init : t := mk ∅ ∅ ∅.

(** [Store(key, data, expiration, publisher)]; [now] is the reading of
    [time.Now()]. The body never mentions [publisher]. *)
Definition Store (now : Time) (key : bytes) (d : bytes)
    (expiration : Time) (publisher : bool) (ms : t) : t :=
  let refreshMap1 := <[string_of_list_byte key := Add now (Hour * 1)]> (refreshMap ms) in
  let expireMap1 := <[string_of_list_byte key := expiration]> (expireMap ms) in
  let data1 := <[string_of_list_byte key := d]> (data ms) in
  mk data1 refreshMap1 expireMap1.

(** [Retrieve(key)]: the pair (data, exists) as an option. *)
Definition Retrieve (key : bytes) (ms : t) : option bytes :=
  data ms !! string_of_list_byte key.

(** [Delete(key)] deletes from [data] only. *)
Definition Delete (key : bytes) (ms : t) : t :=
  mk (delete (string_of_list_byte key) (data ms)) (refreshMap ms) (expireMap ms).

(** [GetAllKeysForRefresh], visiting the keys of [data] in the order
    [keys]; Go leaves the order of a map range unspecified. *)
Definition GetAllKeysForRefresh_in (now : Time) (keys : list string) (ms : t) : list string :=
  filter (λ k, After now (default zeroTime (refreshMap ms !! k)) = true) keys.

Definition GetAllKeysForRefresh (now : Time) (ms : t) : list string :=
  GetAllKeysForRefresh_in now (map fst (map_to_list (data ms))) ms.

(** One iteration of the loop of [ExpireKeys] at the entry [(k, v)]. *)
Definition expireStep (now : Time) (ms : t) (kv : string * Time) : t :=
  if After now kv.2
  then mk (delete kv.1 (data ms)) (delete kv.1 (refreshMap ms)) (delete kv.1 (expireMap ms))
  else ms.

(** [ExpireKeys], visiting the entries of [expireMap] in the order
    [entries]. The loop deletes only the entry it is at, so a Go range
    visits every entry present at the start exactly once, in an
    unspecified order. The sweep runs under the mutex and is taken to
    read one instant [now]. *)
Definition ExpireKeys_in (now : Time) (entries : list (string * Time)) (ms : t) : t :=
  foldl (expireStep now) ms entries.

Definition ExpireKeys (now : Time) (ms : t) : t :=
  ExpireKeys_in now (map_to_list (expireMap ms)) ms.

(** The entry of a key: value, refresh-at and expire-at. *)
Definition entry (k : string) (ms : t) : option bytes * option Time * option Time :=
  (data ms !! k, refreshMap ms !! k, expireMap ms !! k).

(** Does the list hold the key with an instant strictly before [now]? *)
Definition expiredIn (now : Time) (k : string) (entries : list (string * Time)) : bool :=
  existsb (λ kv, bool_decide (kv.1 = k) && (kv.2 <? now)) entries.

End MemoryStore.

(* ------------------------------------------------------------------ *)
(** ** Library functions the code calls: crypto/sha1 and go-base58 *)
(* ------------------------------------------------------------------ *)

(** The byte of a number, taken modulo 256. *)
Definition byteOf (n : N) : byte :=
  default "000"%byte (Byte.of_N (n mod 256)%N).

(** [big.Int.SetBytes]: a byte string read as a big-endian natural. *)
Definition bytesToN (b : bytes) : N :=
  fold_left (λ acc x, (acc * 256 + Byte.to_N x)%N) b 0%N.

(** The [n] low bytes of a number, big-endian. *)
Fixpoint beBytes (n : nat) (x : N) : bytes :=
  match n with
  | O => []
  | S n' => beBytes n' (x / 256)%N ++ [byteOf x]
  end.

Module SHA1.
Local Open Scope N_scope.

Definition w32 (x : N) : N := x mod 4294967296.
Definition add32 (x y : N) : N := w32 (x + y).
Definition rotl (n x : N) : N :=
  w32 (N.lor (N.shiftl x n) (N.shiftr x (32 - n))).
Definition not32 (x : N) : N := N.lxor x 4294967295.

(** The message followed by 0x80, zeros up to 56 modulo 64, and the bit
    length on eight bytes. *)
Definition pad (m : bytes) : bytes :=
  let len := length m in
  let zeros := ((55 + 64 - len mod 64) mod 64)%nat in
  m ++ ["128"%byte] ++ repeat "000"%byte zeros ++ beBytes 8 (N.of_nat len * 8).

(** Cuts a list in pieces of [n] elements ([fuel] bounds their number). *)
Fixpoint chunks {A} (fuel n : nat) (l : list A) : list (list A) :=
  match fuel with
  | O => []
  | S fuel' =>
      match l with
      | [] => []
      | _ => take n l :: chunks fuel' n (drop n l)
      end
  end.

Definition words (block : bytes) : list N :=
  map bytesToN (chunks 16 4 block).

(** The message schedule: the 16 words of the block extended to 80. *)
Fixpoint extend (n : nat) (w : list N) : list N :=
  match n with
  | O => w
  | S n' =>
      let i := length w in
      let x := N.lxor (N.lxor (nth (i - 3) w 0) (nth (i - 8) w 0))
                      (N.lxor (nth (i - 14) w 0) (nth (i - 16) w 0)) in
      extend n' (w ++ [rotl 1 x])
  end.

Definition state : Type := N * N * N * N * N.

Definition round (st : state) (iw : nat * N) : state :=
  let '(a, b, c, d, e) := st in
  let '(i, w) := iw in
  let '(f, k) :=
    if (i <? 20)%nat then (N.lor (N.land b c) (N.land (not32 b) d), 1518500249)
    else if (i <? 40)%nat then (N.lxor (N.lxor b c) d, 1859775393)
    else if (i <? 60)%nat
      then (N.lor (N.lor (N.land b c) (N.land b d)) (N.land c d), 2400959708)
    else (N.lxor (N.lxor b c) d, 3395469782) in
  let tmp := add32 (add32 (add32 (add32 (rotl 5 a) f) e) k) w in
  (tmp, a, rotl 30 b, c, d).

Definition block (h : state) (blk : bytes) : state :=
  let w := extend 64 (words blk) in
  let '(a, b, c, d, e) := fold_left round (combine (seq 0 80) w) h in
  let '(h0, h1, h2, h3, h4) := h in
  (add32 h0 a, add32 h1 b, add32 h2 c, add32 h3 d, add32 h4 e).

Definition init : state :=
  (1732584193, 4023233417, 2562383102, 271733878, 3285377520).

(** The 20-byte SHA-1 digest of a message. *)
Definition digest (m : bytes) : bytes :=
  let p := pad m in
  let '(h0, h1, h2, h3, h4) := fold_left block (chunks (length p) 64 p) init in
  beBytes 4 h0 ++ beBytes 4 h1 ++ beBytes 4 h2 ++ beBytes 4 h3 ++ beBytes 4 h4.

(** A [hash.Hash] made by [sha1.New()]: the bytes written so far. *)
Definition New : bytes := [].

(** [h.Write(p)] appends to the input of the hash. *)
Definition Write (h : bytes) (p : bytes) : bytes := h ++ p.

(** [h.Sum(b)] "appends the current hash to b and returns the resulting
    slice"; the hash is that of the bytes written, not of [b]. *)
Definition Sum (h : bytes) (b : bytes) : bytes := b ++ digest h.

End SHA1.

Module b58.
Local Open Scope N_scope.

Definition alphabet : string :=
  "123456789ABCDEFGHJKLMNPQRSTUVWXYZabcdefghijkmnopqrstuvwxyz".

Definition digit (n : N) : ascii :=
  default "1"%char (String.get (N.to_nat n) alphabet).

(** The base-58 digits of [x], least significant first. *)
Fixpoint digits (fuel : nat) (x : N) : list ascii :=
  match fuel with
  | O => []
  | S fuel' => if x =? 0 then [] else digit (x mod 58) :: digits fuel' (x / 58)
  end.

(** One ['1'] for each leading zero byte. *)
Fixpoint zeros (b : bytes) : list ascii :=
  match b with
  | "000"%byte :: b' => "1"%char :: zeros b'
  | _ => []
  end.

(** [b58.Encode(b)]: the digits of the big-endian number, then the
    leading zeros, the whole reversed. *)
Definition Encode (b : bytes) : string :=
  string_of_list_ascii (rev (digits (2 * length b) (bytesToN b) ++ zeros b)).

End b58.

(* ------------------------------------------------------------------ *)
(** ** The data model of package dht (src/dht/dht.go) *)
(* ------------------------------------------------------------------ *)

#[global] Instance byte_eq_dec : EqDecision byte := Byte.byte_eq_dec.

(** [type NetworkNode struct]: the fields the code and the test read
    ([ID], [IP], [Port]). *)
Record NetworkNode := mkNetworkNode {
  ID : bytes;
  IP : bytes;
  Port : Z
}.

#[global] Instance NetworkNode_eq_dec : EqDecision NetworkNode.
Proof. solve_decision. Defined.

(** [type node struct] embeds a [*NetworkNode]; dht.go reads nothing else
    of it, so a node is its [NetworkNode] and [newNode] is the identity. *)
Abbreviation node := NetworkNode (only parsing).
Definition newNode (n : NetworkNode) : node := n.

(** The message types dht.go names. *)
Inductive messageType :=
  | messageTypeQueryPing
  | messageTypeResponsePing
  | messageTypeQueryStore
  | messageTypeQueryFindNode
  | messageTypeResponseFindNode
  | messageTypeQueryFindValue
  | messageTypeResponseFindValue.

#[global] Instance messageType_eq_dec : EqDecision messageType.
Proof. solve_decision. Defined.

(** The [Data interface{}] of a message: nil or one of the payload structs.
    A [Value] of [None] is the nil slice that [iterate] tests for. *)
Inductive payload :=
  | nilData
  | queryDataFindNode (Target : bytes)
  | queryDataFindValue (Target : bytes)
  | queryDataStore (Key : bytes) (Data : bytes)
  | responseDataFindNode (Closest : list NetworkNode)
  | responseDataFindValue (Value : option bytes) (Closest : list NetworkNode).

#[global] Instance payload_eq_dec : EqDecision payload.
Proof. solve_decision. Defined.

(** [type message struct]; [Sender] and [Receiver] are pointers and
    [Error] is an [error], all three nullable. *)
Record message := mkMessage {
  msg_ID : Z;
  msg_Sender : option NetworkNode;
  msg_Receiver : option NetworkNode;
  msg_IsResponse : bool;
  msg_Type : messageType;
  msg_Error : option string;
  msg_Data : payload
}.

#[global] Instance message_eq_dec : EqDecision message.
Proof. solve_decision. Defined.

(** [type hashTable struct]: [Self] and the buckets of [RoutingTable]. *)
Record hashTable := mkHashTable {
  Self : NetworkNode;
  RoutingTable : list (list node)
}.

(** The three kinds of [iterate]. *)
Inductive iterateType := iterateStore | iterateFindNode | iterateFindValue.

(** Modelled from the spec: the constants [alpha] and [k] are declared
    outside dht.go; the spec gives alpha = 3 and k = 20. *)
Definition alpha : nat := 3.
Definition k : nat := 20.

(** [tPingMax], in seconds. *)
Definition tPingMax : Z := 1.
Definition tExpire : Z := 86410.

(** An [int64] incremented with wrap-around ([dht.msgCounter++]). *)
Definition int64_incr (c : Z) : Z :=
  (c + 1 + 2 ^ 63) mod 2 ^ 64 - 2 ^ 63.

(** [bytes.Compare(a, b) == 0]. *)
Definition bytesEqual (a b : bytes) : bool := bool_decide (a = b).

(* ------------------------------------------------------------------ *)
(** ** The shortlist (declared outside dht.go) *)
(* ------------------------------------------------------------------ *)

(** Modelled from the spec: the distance of two identifiers, "bitwise XOR
    interpreted as a B-bit unsigned integer". *)
Definition getDistance (id1 id2 : bytes) : N :=
  N.lxor (bytesToN id1) (bytesToN id2).

Module shortList.

(** Modelled from the spec: [append_unique(seq)] "adds any addresses
    whose id is not yet present". *)
Definition AppendUniqueNetworkNodes (sl : list NetworkNode) (nodes : list NetworkNode)
    : list NetworkNode :=
  foldl (λ acc n, if existsb (λ m, bytesEqual (ID m) (ID n)) acc then acc else acc ++ [n])
        sl nodes.

(** Modelled from the spec: [remove(addr)]; two addresses with equal id
    are the same peer. *)
Definition RemoveNode (sl : list NetworkNode) (n : NetworkNode) : list NetworkNode :=
  filter (λ m, ID m ≠ ID n) sl.

(** Modelled from the spec: [sort_by_distance(target)], ascending; an
    insertion sort that keeps the order of equal distances. *)
Fixpoint insert (target : bytes) (n : NetworkNode) (sl : list NetworkNode) : list NetworkNode :=
  match sl with
  | [] => [n]
  | m :: sl' =>
      if (getDistance (ID n) target <=? getDistance (ID m) target)%N
      then n :: m :: sl'
      else m :: insert target n sl'
  end.

Definition Sort (target : bytes) (sl : list NetworkNode) : list NetworkNode :=
  foldr (insert target) [] sl.

End shortList.

(* ------------------------------------------------------------------ *)
(** ** The collaborators of the DHT: interfaces *)
(* ------------------------------------------------------------------ *)

(** [type networking interface], as dht.go uses it. [World] is the state
    of everything outside the node (the wire and the peers).
    - [sendMessage msg id expectResponse] returns the error, if any; the
      channel it returns in Go is named by the message and its id;
    - [recv msg id] is the receive [<-ch] on that channel;
    - [recvBefore msg id d] is the [select] between [<-ch] and
      [time.After(d)]: [true] when the channel delivers first;
    - [getMessage] is the next incoming message, [None] once
      disconnected. *)
Class networking (World : Type) := {
  sendMessage : message → Z → bool → World → option string * World;
  recv : message → Z → World → message * World;
  recvBefore : message → Z → Duration → World → bool * World;
  getMessage : World → option message * World
}.

(** [type Store interface] as the call sites of dht.go use it:
    [dht.store.Store(key, data)] with two arguments and
    [dht.store.Retrieve(key)]. No call site passes an expiration or a
    publisher flag. *)
Class Store (S : Type) := {
  Store_Store : bytes → bytes → S → S;
  Store_Retrieve : bytes → S → option bytes
}.

(** The methods of [hashTable] that dht.go calls and does not define. *)
Class hashTableOps := {
  getBucketIndexFromDifferingBit : bytes → bytes → nat;
  getClosestContacts : hashTable → nat → bytes → list NetworkNode → list NetworkNode;
  removeNode : bytes → hashTable → hashTable
}.

(* ------------------------------------------------------------------ *)
(** ** The state and the monad of the embedding *)
(* ------------------------------------------------------------------ *)

(** One call of [sendMessage]: the message, the id and [expectResponse]. *)
Record sentMessage := mkSent {
  sent_msg : message;
  sent_id : Z;
  sent_expectResponse : bool
}.

(** [type DHT struct] together with the world and the trace of the calls
    of [sendMessage]. *)
Record state (Sto World : Type) := mkState {
  ht : hashTable;
  store : Sto;
  msgCounter : Z;
  world : World;
  sent : list sentMessage
}.
Arguments mkState {Sto World}.
Arguments ht {Sto World}.
Arguments store {Sto World}.
Arguments msgCounter {Sto World}.
Arguments world {Sto World}.
Arguments sent {Sto World}.

(** A run returns a value and a state, panics, or exhausts the fuel of a
    loop (the last is no behaviour of the Go code). *)
Inductive result (St A : Type) :=
  | Ok (a : A) (st : St)
  | Panic
  | OutOfFuel.
Arguments Ok {St A}.
Arguments Panic {St A}.
Arguments OutOfFuel {St A}.

Definition M (St A : Type) : Type := St → result St A.

Definition ret {St A} (a : A) : M St A := λ st, Ok a st.
Definition panic {St A} : M St A := λ _, Panic.
Definition bind {St A B} (m : M St A) (f : A → M St B) : M St B :=
  λ st, match m st with
        | Ok a st' => f a st'
        | Panic => Panic
        | OutOfFuel => OutOfFuel
        end.

Notation "'let*' x ':=' m 'in' f" := (bind m (fun x => f))
  (at level 10, x binder, m at level 100, f at level 200).
Notation "m ';;' f" := (bind m (fun _ => f))
  (at level 100, f at level 200, right associativity).

Section Engine.
Context {Sto World : Type} {Net : networking World} {Str : Store Sto} {Ops : hashTableOps}.

Abbreviation St := (state Sto World) (only parsing).

(** [dht.networking.sendMessage(msg, dht.msgCounter, expect)] followed
    by [dht.msgCounter++]; yields the error and the id used. *)
Definition send (msg : message) (expect : bool) : M St (option string * Z) := λ st,
  let id := msgCounter st in
  let '(err, w) := sendMessage msg id expect (world st) in
  Ok (err, id)
     (mkState (ht st) (store st) (int64_incr id) w (sent st ++ [mkSent msg id expect])).

(** [dht.networking.sendMessage(response, id, false)] of the listen
    loop, which does not touch the counter. *)
Definition reply (msg : message) (id : Z) : M St unit := λ st,
  let '(_, w) := sendMessage msg id false (world st) in
  Ok tt (mkState (ht st) (store st) (msgCounter st) w (sent st ++ [mkSent msg id false])).

(** [<-ch]. *)
Definition await (ch : message * Z) : M St message := λ st,
  let '(r, w) := recv ch.1 ch.2 (world st) in
  Ok r (mkState (ht st) (store st) (msgCounter st) w (sent st)).

(** [select { case <-ch: ...; case <-time.After(d): ... }]. *)
Definition awaitBefore (ch : message * Z) (d : Duration) : M St bool := λ st,
  let '(b, w) := recvBefore ch.1 ch.2 d (world st) in
  Ok b (mkState (ht st) (store st) (msgCounter st) w (sent st)).

Definition getHt : M St hashTable := λ st, Ok (ht st) st.
Definition setHt (h : hashTable) : M St unit := λ st,
  Ok tt (mkState h (store st) (msgCounter st) (world st) (sent st)).

(** [dht.ht.RoutingTable[index] = bucket]. *)
Definition setBucket (index : nat) (bucket : list node) : M St unit :=
  let* h := getHt in
  setHt (mkHashTable (Self h) (<[index := bucket]> (RoutingTable h))).

(** The ping of lines 317-320. *)
Definition pingQuery (self n : NetworkNode) : message :=
  mkMessage 0 (Some self) (Some n) false messageTypeQueryPing None nilData.

(** [func (dht *DHT) addNode(node *node)], lines 298-340. *)
Definition addNode (n : node) : M St unit :=
  let* h := getHt in
  let index := getBucketIndexFromDifferingBit (ID (Self h)) (ID n) in
  match RoutingTable h !! index with
  | None => panic
  | Some bucket =>
      if existsb (λ v, bytesEqual (ID v) (ID n)) bucket then ret tt
      else if (length bucket =? k)%nat then
        match bucket with
        | [] => panic
        | first :: _ =>
            let query := pingQuery (Self h) first in
            let* '(err, id) := send query true in
            match err with
            | Some _ => setBucket index (drop 1 (bucket ++ [n]))
            | None =>
                let* pong := awaitBefore (query, id) (Second * tPingMax) in
                if pong then ret tt
                else setBucket index (drop 1 (bucket ++ [n]))
            end
        end
      else setBucket index (bucket ++ [n])
  end.

(** [for _, n := range responseData.Closest { dht.addNode(newNode(n)) }]. *)
Fixpoint addNodes (closest : list NetworkNode) : M St unit :=
  match closest with
  | [] => ret tt
  | n :: rest => addNode (newNode n) ;; addNodes rest
  end.

(** The query of lines 175-197. *)
Definition makeQuery (t : iterateType) (self n : NetworkNode) (target : bytes) : message :=
  match t with
  | iterateFindNode =>
      mkMessage 0 (Some self) (Some n) false messageTypeQueryFindNode None (queryDataFindNode target)
  | iterateFindValue =>
      mkMessage 0 (Some self) (Some n) false messageTypeQueryFindValue None (queryDataFindValue target)
  | iterateStore =>
      mkMessage 0 (Some self) (Some n) false messageTypeQueryFindNode None (queryDataFindNode target)
  end.

(** Lines 163-200: the queries for the first [alpha] nodes of the
    shortlist not contacted yet, and the contacted set they leave. *)
Fixpoint selectQueries (t : iterateType) (self : NetworkNode) (target : bytes)
    (i : nat) (nodes : list NetworkNode) (contacted : gset string)
    : list message * gset string :=
  match nodes with
  | [] => ([], contacted)
  | n :: rest =>
      if (alpha <=? i)%nat then ([], contacted)
      else if bool_decide (string_of_list_byte (ID n) ∈ contacted)
      then selectQueries t self target (S i) rest contacted
      else
        let '(qs, c) := selectQueries t self target (S i) rest
                          ({[string_of_list_byte (ID n)]} ∪ contacted) in
        (makeQuery t self n target :: qs, c)
  end.

(** Lines 203-218: sends the queries; a query whose send fails yields no
    channel, and its receiver leaves the routing table when the error is
    the acknowledgement timeout. *)
Fixpoint sendQueries (queries : list message) : M St (list (message * Z)) :=
  match queries with
  | [] => ret []
  | q :: rest =>
      let* '(err, id) := send q true in
      match err with
      | Some e =>
          (if String.eqb e "timed out waiting for ack"
           then match msg_Receiver q with
                | Some r => let* h := getHt in setHt (removeNode (ID r) h)
                | None => panic
                end
           else ret tt) ;;
          sendQueries rest
      | None =>
          let* chans := sendQueries rest in
          ret ((q, id) :: chans)
      end
  end.

(** Lines 220-225. *)
Fixpoint awaitAll (chans : list (message * Z)) : M St (list message) :=
  match chans with
  | [] => ret []
  | c :: rest =>
      let* r := await c in
      let* rs := awaitAll rest in
      ret (r :: rs)
  end.

(** What the loop over the results leaves: a value found, or the
    shortlist to go on with. *)
Inductive merged :=
  | Found (value : bytes)
  | Merged (sl : list NetworkNode).

(** Lines 227-258. A nil [Receiver] handed to [RemoveNode], and a
    payload of another type than the asserted one, are panics. *)
Fixpoint mergeResults (t : iterateType) (results : list message) (sl : list NetworkNode)
    : M St merged :=
  match results with
  | [] => ret (Merged sl)
  | r :: rest =>
      match msg_Error r with
      | Some _ =>
          match msg_Receiver r with
          | Some n => mergeResults t rest (shortList.RemoveNode sl n)
          | None => panic
          end
      | None =>
          match t, msg_Data r with
          | iterateFindNode, responseDataFindNode closest
          | iterateStore, responseDataFindNode closest =>
              addNodes closest ;;
              mergeResults t rest (shortList.AppendUniqueNetworkNodes sl closest)
          | iterateFindValue, responseDataFindValue (Some v) _ => ret (Found v)
          | iterateFindValue, responseDataFindValue None closest =>
              addNodes closest ;;
              mergeResults t rest (shortList.AppendUniqueNetworkNodes sl closest)
          | _, _ => panic
          end
      end
  end.

(** The store message of lines 276-283. *)
Definition storeQuery (self n : NetworkNode) (target data : bytes) : message :=
  mkMessage 0 (Some self) (Some n) false messageTypeQueryStore None (queryDataStore target data).

(** Lines 271-287: [for i, n := range sl.Nodes] with its exit at
    [i >= k]. *)
Fixpoint storeAll (target data : bytes) (i : nat) (nodes : list NetworkNode) : M St unit :=
  match nodes with
  | [] => ret tt
  | n :: rest =>
      if (k <=? i)%nat then ret tt
      else
        let* h := getHt in
        send (storeQuery (Self h) n target data) false ;;
        storeAll target data (S i) rest
  end.

(** What [iterate] returns: [(value, closest, err)]. *)
Definition iterateResult : Type := option bytes * list NetworkNode * option string.

(** Lines 263-288, entered when the head of the shortlist is unchanged. *)
Definition finish (t : iterateType) (target data : bytes) (sl : list NetworkNode)
    : M St iterateResult :=
  match t with
  | iterateFindNode => ret (None, sl, None)
  | iterateFindValue => ret (None, sl, None)
  | iterateStore => storeAll target data 0 sl ;; ret (None, [], None)
  end.

(** One pass of the body of the loop up to [sort.Sort(sl)], lines
    159-260. *)
Definition round (t : iterateType) (target : bytes) (sl : list NetworkNode)
    (contacted : gset string) : M St (merged * gset string) :=
  let* h := getHt in
  let '(queries, contacted') := selectQueries t (Self h) target 0 sl contacted in
  let* chans := sendQueries queries in
  let* results := awaitAll chans in
  let* m := mergeResults t results sl in
  match m with
  | Found v => ret (Found v, contacted')
  | Merged sl' => ret (Merged (shortList.Sort target sl'), contacted')
  end.

(** The [for] loop of lines 158-292; [fuel] bounds the number of
    passes. *)
Fixpoint iterateLoop (fuel : nat) (t : iterateType) (target data : bytes)
    (sl : list NetworkNode) (contacted : gset string) (closestNode : NetworkNode)
    : M St iterateResult :=
  match fuel with
  | O => λ _, OutOfFuel
  | S fuel' =>
      let* '(m, contacted') := round t target sl contacted in
      match m with
      | Found v => ret (Some v, [], None)
      | Merged sl' =>
          match sl' with
          | [] => panic
          | first :: _ =>
              if bytesEqual (ID first) (ID closestNode)
              then finish t target data sl'
              else iterateLoop fuel' t target data sl' contacted' first
          end
      end
  end.

(** [func (dht *DHT) iterate(t, target, data)], lines 143-293. *)
Definition iterate (fuel : nat) (t : iterateType) (target data : bytes)
    : M St iterateResult :=
  let* h := getHt in
  let sl := getClosestContacts h alpha target [] in
  match sl with
  | [] => ret (None, [], None)
  | closestNode :: _ => iterateLoop fuel t target data sl ∅ closestNode
  end.

(** [func (dht *DHT) Store(data []byte) (string, error)], lines 70-80.
    [sha.Sum(data)] is called on a hash nothing was written to. *)
Definition DHT_Store (fuel : nat) (data : bytes) : M St (string * option string) :=
  let sha := SHA1.New in
  let key := SHA1.Sum sha data in
  (λ st, Ok tt (mkState (ht st) (Store_Store key data (store st)) (msgCounter st)
                        (world st) (sent st))) ;;
  let* '(_, _, err) := iterate fuel iterateStore key data in
  match err with
  | Some e => ret (EmptyString, Some e)
  | None => ret (b58.Encode key, None)
  end.

(** [func (dht *DHT) Bootstrap() error], lines 122-131, for the
    bootstrap nodes of the options. *)
Definition Bootstrap (fuel : nat) (bootstrapNodes : list NetworkNode) : M St (option string) :=
  addNodes bootstrapNodes ;;
  let* h := getHt in
  let* '(_, _, err) := iterate fuel iterateFindNode (ID (Self h)) [] in
  ret err.

(** The body of the loop of [listen] for one message, lines 350-391.
    A nil [Sender] handed to [newNode] and then read by [addNode] is a
    panic, as is a payload of another type than the asserted one. *)
Definition handleMessage (msg : message) : M St unit :=
  match msg_Type msg with
  | messageTypeQueryFindNode =>
      match msg_Data msg, msg_Sender msg with
      | queryDataFindNode target, Some sender =>
          addNode (newNode sender) ;;
          let* h := getHt in
          let closest := getClosestContacts h k target [sender] in
          reply (mkMessage 0 (Some (Self h)) (Some sender) true
                   messageTypeResponseFindNode None (responseDataFindNode closest))
                (msg_ID msg)
      | _, _ => panic
      end
  | messageTypeQueryFindValue =>
      match msg_Data msg, msg_Sender msg with
      | queryDataFindValue target, Some sender =>
          addNode (newNode sender) ;;
          let* h := getHt in
          let* value := (λ st, Ok (Store_Retrieve target (store st)) st) in
          let responseData :=
            match value with
            | Some v => responseDataFindValue (Some v) []
            | None => responseDataFindValue None (getClosestContacts h k target [sender])
            end in
          reply (mkMessage (msg_ID msg) (Some (Self h)) (Some sender) true
                   messageTypeResponseFindValue None responseData)
                (msg_ID msg)
      | _, _ => panic
      end
  | messageTypeQueryStore =>
      match msg_Data msg, msg_Sender msg with
      | queryDataStore key data, Some sender =>
          addNode (newNode sender) ;;
          (λ st, Ok tt (mkState (ht st) (Store_Store key data (store st)) (msgCounter st)
                                (world st) (sent st)))
      | _, _ => panic
      end
  | messageTypeQueryPing =>
      let* h := getHt in
      reply (mkMessage 0 (Some (Self h)) (msg_Sender msg) true
               messageTypeResponsePing None nilData)
            (msg_ID msg)
  | _ => ret tt
  end.

(** [func (dht *DHT) listen()], lines 342-393: until the networking
    layer yields nil. *)
Fixpoint listen (fuel : nat) : M St unit :=
  match fuel with
  | O => λ _, OutOfFuel
  | S fuel' =>
      let* msg := (λ st, let '(m, w) := getMessage (world st) in
                         Ok m (mkState (ht st) (store st) (msgCounter st) w (sent st))) in
      match msg with
      | None => ret tt
      | Some m => handleMessage m ;; listen fuel'
      end
  end.

End Engine.

(* ------------------------------------------------------------------ *)
(** ** The message codec (declared outside src/) *)
(* ------------------------------------------------------------------ *)

Module Codec.

(** A decoder reads a value off the front of the stream and returns the
    rest; [None] is a decode error. *)
Definition decoder (A : Type) : Type := bytes → option (A * bytes).

(** [n] bytes read as a big-endian number; a short stream is an error. *)
Definition decBE (n : nat) : decoder N := λ bs,
  if (length bs <? n)%nat then None
  else Some (bytesToN (take n bs), drop n bs).

(** A length or a count, on four bytes. *)
Definition encLen (n : nat) : bytes := beBytes 4 (N.of_nat n).
Definition decLen : decoder nat := λ bs,
  '(n, r) ← decBE 4 bs; Some (N.to_nat n, r).

(** A byte string: its length, then its bytes. *)
Definition encBytes (b : bytes) : bytes := encLen (length b) ++ b.
Definition decBytes : decoder bytes := λ bs,
  '(n, r) ← decLen bs;
  if (length r <? n)%nat then None else Some (take n r, drop n r).

(** A signed 64-bit integer, two's complement on eight bytes. *)
Definition encInt64 (z : Z) : bytes := beBytes 8 (Z.to_N (z mod 2 ^ 64)).
Definition decInt64 : decoder Z := λ bs,
  '(n, r) ← decBE 8 bs;
  Some (if (n <? 2 ^ 63)%N then Z.of_N n else Z.of_N n - 2 ^ 64, r).

Definition encBool (b : bool) : bytes := [if b then "001"%byte else "000"%byte].
Definition decBool : decoder bool := λ bs,
  match bs with
  | "000"%byte :: r => Some (false, r)
  | "001"%byte :: r => Some (true, r)
  | _ => None
  end.

(** A nullable field: a presence byte, then the value when present. *)
Definition encOption {A} (enc : A → bytes) (o : option A) : bytes :=
  match o with
  | None => ["000"%byte]
  | Some a => "001"%byte :: enc a
  end.
Definition decOption {A} (dec : decoder A) : decoder (option A) := λ bs,
  match bs with
  | "000"%byte :: r => Some (None, r)
  | "001"%byte :: r => '(a, r') ← dec r; Some (Some a, r')
  | _ => None
  end.

(** A sequence: its count, then its elements. *)
Fixpoint decMany {A} (dec : decoder A) (n : nat) : decoder (list A) := λ bs,
  match n with
  | O => Some ([], bs)
  | S n' => '(a, r) ← dec bs; '(l, r') ← decMany dec n' r; Some (a :: l, r')
  end.
Definition encList {A} (enc : A → bytes) (l : list A) : bytes :=
  encLen (length l) ++ concat (map enc l).
Definition decList {A} (dec : decoder A) : decoder (list A) := λ bs,
  '(n, r) ← decLen bs; decMany dec n r.

(** A network address: the id, the ip and the port. *)
Definition encNode (n : NetworkNode) : bytes :=
  encBytes (ID n) ++ encBytes (IP n) ++ encInt64 (Port n).
Definition decNode : decoder NetworkNode := λ bs,
  '(id, r1) ← decBytes bs;
  '(ip, r2) ← decBytes r1;
  '(port, r3) ← decInt64 r2;
  Some (mkNetworkNode id ip port, r3).

(** The type tag; a tag that names no type is a decode error. *)
Definition encType (t : messageType) : bytes :=
  [match t with
   | messageTypeQueryPing => "000"
   | messageTypeResponsePing => "001"
   | messageTypeQueryStore => "002"
   | messageTypeQueryFindNode => "003"
   | messageTypeResponseFindNode => "004"
   | messageTypeQueryFindValue => "005"
   | messageTypeResponseFindValue => "006"
   end%byte].
Definition decType : decoder messageType := λ bs,
  match bs with
  | "000"%byte :: r => Some (messageTypeQueryPing, r)
  | "001"%byte :: r => Some (messageTypeResponsePing, r)
  | "002"%byte :: r => Some (messageTypeQueryStore, r)
  | "003"%byte :: r => Some (messageTypeQueryFindNode, r)
  | "004"%byte :: r => Some (messageTypeResponseFindNode, r)
  | "005"%byte :: r => Some (messageTypeQueryFindValue, r)
  | "006"%byte :: r => Some (messageTypeResponseFindValue, r)
  | _ => None
  end.

(** The payload; the decoder dispatches on the type tag and builds the
    variant of that type. *)
Definition encPayload (d : payload) : bytes :=
  match d with
  | nilData => []
  | queryDataFindNode target => encBytes target
  | queryDataFindValue target => encBytes target
  | queryDataStore key data => encBytes key ++ encBytes data
  | responseDataFindNode closest => encList encNode closest
  | responseDataFindValue value closest =>
      encOption encBytes value ++ encList encNode closest
  end.
Definition decPayload (t : messageType) : decoder payload := λ bs,
  match t with
  | messageTypeQueryPing | messageTypeResponsePing => Some (nilData, bs)
  | messageTypeQueryStore =>
      '(key, r1) ← decBytes bs; '(data, r2) ← decBytes r1;
      Some (queryDataStore key data, r2)
  | messageTypeQueryFindNode =>
      '(target, r) ← decBytes bs; Some (queryDataFindNode target, r)
  | messageTypeResponseFindNode =>
      '(closest, r) ← decList decNode bs; Some (responseDataFindNode closest, r)
  | messageTypeQueryFindValue =>
      '(target, r) ← decBytes bs; Some (queryDataFindValue target, r)
  | messageTypeResponseFindValue =>
      '(value, r1) ← decOption decBytes bs; '(closest, r2) ← decList decNode r1;
      Some (responseDataFindValue value closest, r2)
  end.

Definition encError (e : string) : bytes := encBytes (list_byte_of_string e).
Definition decError : decoder string := λ bs,
  '(b, r) ← decBytes bs; Some (string_of_list_byte b, r).

(** The envelope without its frame. *)
Definition encBody (m : message) : bytes :=
  encInt64 (msg_ID m) ++ encOption encNode (msg_Sender m)
  ++ encOption encNode (msg_Receiver m) ++ encBool (msg_IsResponse m)
  ++ encType (msg_Type m) ++ encOption encError (msg_Error m)
  ++ encPayload (msg_Data m).
Definition decBody : decoder message := λ bs,
  '(id, r1) ← decInt64 bs;
  '(sender, r2) ← decOption decNode r1;
  '(receiver, r3) ← decOption decNode r2;
  '(isResponse, r4) ← decBool r3;
  '(t, r5) ← decType r4;
  '(err, r6) ← decOption decError r5;
  '(data, r7) ← decPayload t r6;
  Some (mkMessage id sender receiver isResponse t err data, r7).

(** Modelled from the spec: [serializeMessage] is declared outside src/
    (only its test is there). The spec asks for a length-prefixed binary
    codec, "a 4-byte big-endian frame length followed by a typed
    payload", and leaves the bytes of the payload to the implementation. *)
Definition serializeMessage (m : message) : bytes :=
  let body := encBody m in
  encLen (length body) ++ body.

(** Modelled from the spec: [deserializeMessage] reads one frame off the
    stream and returns the message and the rest of the stream; "unknown
    type tags fail with a decode error; truncated frames fail with a
    decode error". *)
Definition deserializeMessage : decoder message := λ conn,
  '(n, r) ← decLen conn;
  if (length r <? n)%nat then None
  else
    '(m, rest) ← decBody (take n r);
    match rest with
    | [] => Some (m, drop n r)
    | _ => None
    end.

(** Well-formed envelopes: every length and count fits the four bytes
    of its prefix, every integer fits 64 bits, and the payload is the
    variant of the type tag. *)
Definition fitsLen (n : nat) : Prop := (N.of_nat n < 2 ^ 32)%N.
Definition fitsInt64 (z : Z) : Prop := - 2 ^ 63 ≤ z < 2 ^ 63.

Definition wfNode (n : NetworkNode) : Prop :=
  fitsLen (length (ID n)) ∧ fitsLen (length (IP n)) ∧ fitsInt64 (Port n).

Definition wfOption {A} (wf : A → Prop) (o : option A) : Prop :=
  match o with
  | None => True
  | Some a => wf a
  end.

Definition wfBytes (b : bytes) : Prop := fitsLen (length b).

Definition wfPayload (t : messageType) (d : payload) : Prop :=
  match t, d with
  | messageTypeQueryPing, nilData => True
  | messageTypeResponsePing, nilData => True
  | messageTypeQueryStore, queryDataStore key data => wfBytes key ∧ wfBytes data
  | messageTypeQueryFindNode, queryDataFindNode target => wfBytes target
  | messageTypeResponseFindNode, responseDataFindNode closest =>
      fitsLen (length closest) ∧ Forall wfNode closest
  | messageTypeQueryFindValue, queryDataFindValue target => wfBytes target
  | messageTypeResponseFindValue, responseDataFindValue value closest =>
      wfOption wfBytes value ∧ fitsLen (length closest) ∧ Forall wfNode closest
  | _, _ => False
  end.

Definition wfError (e : string) : Prop := fitsLen (length (list_byte_of_string e)).

Definition wfMessage (m : message) : Prop :=
  fitsInt64 (msg_ID m)
  ∧ wfOption wfNode (msg_Sender m)
  ∧ wfOption wfNode (msg_Receiver m)
  ∧ wfOption wfError (msg_Error m)
  ∧ wfPayload (msg_Type m) (msg_Data m)
  ∧ fitsLen (length (encBody m)).

(** A decoder undoes an encoder on the well-formed values, whatever
    follows in the stream. *)
Definition roundTrips {A} (enc : A → bytes) (dec : decoder A) (wf : A → Prop) : Prop :=
  ∀ a rest, wf a → dec (enc a ++ rest) = Some (a, rest).

End Codec.

(* ------------------------------------------------------------------ *)
(** ** Concrete collaborators, for running the code on examples *)
(* ------------------------------------------------------------------ *)

Module Scenario.

(** A store with the two-argument interface of the call sites: the
    [data] map of the in-memory store. *)
Definition dataStore : Store (gmap string bytes) := {|
  Store_Store key d m := <[string_of_list_byte key := d]> m;
  Store_Retrieve key m := m !! string_of_list_byte key
|}.

(** Modelled from the spec: [bucket_index(self_id, other_id)], declared
    outside dht.go, is the "position of the highest bit at which the two
    IDs differ, counted so that differ in the most significant bit
    yields the largest index". *)
Definition bucketIndex (id1 id2 : bytes) : nat :=
  N.to_nat (N.log2 (getDistance id1 id2)).

(** Collects the buckets at growing offsets on both sides of bucket [i]
    until [count] contacts are gathered. *)
Fixpoint gather (buckets : list (list node)) (i count j fuel : nat) (acc : list node)
    : list node :=
  match fuel with
  | O => acc
  | S fuel' =>
      if (count <=? length acc)%nat then acc
      else
        let below := if (j <=? i)%nat then default [] (buckets !! (i - j)%nat) else [] in
        let above := default [] (buckets !! (i + j)%nat) in
        gather buckets i count (S j) fuel' (acc ++ below ++ above)
  end.

(** Modelled from the spec: [closest(target, count, exclude_ids)],
    declared outside dht.go: "starting at bucket i, collect contacts;
    then expand outward in both directions over buckets until count
    contacts are gathered or all buckets have been visited; sort the
    result by distance ascending; drop any whose id is in exclude_ids;
    truncate to count". *)
Definition closest (h : hashTable) (count : nat) (target : bytes)
    (exclude : list NetworkNode) : list NetworkNode :=
  let i := bucketIndex (ID (Self h)) target in
  let buckets := RoutingTable h in
  let found := gather buckets i count 1 (length buckets) (default [] (buckets !! i)) in
  take count
    (filter (λ n, ID n ∉ map ID exclude) (shortList.Sort target found)).

(** Modelled from the spec: removal of a contact from the routing table
    "happens by id". *)
Definition removeContact (id : bytes) (h : hashTable) : hashTable :=
  mkHashTable (Self h) (map (filter (λ n, ID n ≠ id)) (RoutingTable h)).

Definition tableOps : hashTableOps := {|
  getBucketIndexFromDifferingBit := bucketIndex;
  getClosestContacts := closest;
  removeNode := removeContact
|}.

(** A peer of a fixed network: its address, the contacts it answers a
    lookup with, and whether it answers at all. *)
Record peer := mkPeer {
  peer_node : NetworkNode;
  peer_knows : list NetworkNode;
  peer_alive : bool
}.

Definition findPeer (peers : list peer) (n : option NetworkNode) : option peer :=
  match n with
  | None => None
  | Some a => List.find (λ p, bytesEqual (ID (peer_node p)) (ID a)) peers
  end.

(** The answer of a peer to a query, built as [listen] builds it. *)
Definition answer (peers : list peer) (q : message) (id : Z) : message :=
  let knows := default [] (peer_knows <$> findPeer peers (msg_Receiver q)) in
  match msg_Type q with
  | messageTypeQueryFindValue =>
      mkMessage id (msg_Receiver q) (msg_Sender q) true
        messageTypeResponseFindValue None (responseDataFindValue None knows)
  | messageTypeQueryPing =>
      mkMessage 0 (msg_Receiver q) (msg_Sender q) true messageTypeResponsePing None nilData
  | _ =>
      mkMessage 0 (msg_Receiver q) (msg_Sender q) true
        messageTypeResponseFindNode None (responseDataFindNode knows)
  end.

(** A network of such peers; the world is the queue of the messages
    still to come in. *)
Definition fixedNetwork (peers : list peer) : networking (list message) := {|
  sendMessage q id expect w := (None, w);
  recv q id w := (answer peers q id, w);
  recvBefore q id d w :=
    (default false (peer_alive <$> findPeer peers (msg_Receiver q)), w);
  getMessage w :=
    match w with
    | [] => (None, [])
    | m :: w' => (Some m, w')
    end
|}.

(** Identifiers of 20 bytes ending in the given byte. *)
Definition idOf (b : byte) : bytes := repeat "000"%byte 19 ++ [b].
Definition nodeOf (b : byte) : NetworkNode :=
  mkNetworkNode (idOf b) [byteOf 127; byteOf 0; byteOf 0; byteOf 1] 3000.

(** An empty routing table of 160 buckets. *)
Definition emptyTable (self : NetworkNode) : hashTable :=
  mkHashTable self (repeat [] 160).

Definition initial (h : hashTable) (w : list message) : state (gmap string bytes) (list message) :=
  mkState h ∅ 0 w [].

(** The state a run ends in ([d] when it does not return). *)
Definition after {St A} (r : result St A) (d : St) : St :=
  match r with
  | Ok _ st => st
  | _ => d
  end.

(** The node itself, and twenty contacts that fall in one bucket with
    a twenty-first. *)
Definition self : NetworkNode := nodeOf "000".
Definition crowd : list NetworkNode :=
  map (λ i, nodeOf (byteOf (N.of_nat (32 + i)))) (seq 0 20).
Definition newcomer : NetworkNode := nodeOf (byteOf 52).

(** Every contact of the crowd answers, or none does. *)
Definition crowdAlive : list peer := map (λ n, mkPeer n [] true) crowd.
Definition crowdDead : list peer := map (λ n, mkPeer n [] false) crowd.

(** The routing table with the crowd in its bucket. *)
Definition crowded : state (gmap string bytes) (list message) :=
  mkState (mkHashTable self (<[5%nat := crowd]> (repeat [] 160))) ∅ 0 [] [].

(** A routing table with two contacts in one bucket. *)
Definition acquainted : state (gmap string bytes) (list message) :=
  mkState (mkHashTable self (<[1%nat := [nodeOf "002"; nodeOf "003"]]> (repeat [] 160)))
          ∅ 0 [] [].

(** The QueryStore message of a peer carrying the pair ("k", "v"). *)
Definition storeRequest : message :=
  mkMessage 7 (Some (nodeOf "001")) (Some self) false messageTypeQueryStore None
    (queryDataStore (list_byte_of_string "k") (list_byte_of_string "v")).

(** The QueryFindValue message of another peer for the key "k", and a
    ping. *)
Definition findValueRequest : message :=
  mkMessage 8 (Some (nodeOf "002")) (Some self) false messageTypeQueryFindValue None
    (queryDataFindValue (list_byte_of_string "k")).
Definition pingRequest : message :=
  mkMessage 9 (Some (nodeOf "003")) (Some self) false messageTypeQueryPing None nilData.

(** The error response of the peer 1 to a query of the node. *)
Definition errorResponse : message :=
  mkMessage 0 (Some (nodeOf "001")) (Some self) true messageTypeResponseFindNode
    (Some "remote error"%string) nilData.

(** A small town: the node knows peer 1, which knows peers 2 and 3;
    peer 2 knows peer 5. The target of the lookups is the id of peer 1. *)
Definition town : list peer :=
  [mkPeer (nodeOf "001") [nodeOf "002"; nodeOf "003"] true;
   mkPeer (nodeOf "002") [nodeOf "005"; nodeOf "001"] true;
   mkPeer (nodeOf "003") [] true;
   mkPeer (nodeOf "005") [nodeOf "001"] true].
Definition townIds : gset string :=
  list_to_set (map (λ p, string_of_list_byte (ID (peer_node p))) town).
Definition newInTown : state (gmap string bytes) (list message) :=
  mkState (mkHashTable self (<[0%nat := [nodeOf "001"]]> (repeat [] 160))) ∅ 0 [] [].

(** The message of [TestNetMsg] (netmsg_test.go), with a fixed id in
    place of the random one. *)
Definition testMessage : message :=
  mkMessage 0 None (Some (nodeOf "042")) false messageTypeQueryFindNode None
    (queryDataFindNode (idOf "042")).

End Scenario.

(* ------------------------------------------------------------------ *)
(** ** Predicates of the specification *)
(* ------------------------------------------------------------------ *)

Section Predicates.
Context {Sto World : Type} {Net : networking World} {Str : Store Sto} {Ops : hashTableOps}.

(** The state with one bucket of the routing table replaced. *)
Definition withBucket (index : nat) (bucket : list node) (st : state Sto World)
    : state Sto World :=
  mkState (mkHashTable (Self (ht st)) (<[index := bucket]> (RoutingTable (ht st))))
          (store st) (msgCounter st) (world st) (sent st).

(** The state after one call of [sendMessage] that moved the world to
    [w] and took the next message id. *)
Definition afterSend (msg : message) (expect : bool) (w : World) (st : state Sto World)
    : state Sto World :=
  mkState (ht st) (store st) (int64_incr (msgCounter st)) w
          (sent st ++ [mkSent msg (msgCounter st) expect]).

(** RT-2: every bucket holds at most [k] contacts. *)
Definition bucketsBounded (h : hashTable) : Prop :=
  Forall (λ bucket, length bucket ≤ k)%nat (RoutingTable h).

(** The states reached from [st0] by calls of [addNode] that return. *)
Inductive reachableByAddNode (st0 : state Sto World) : state Sto World → Prop :=
  | reach_start : reachableByAddNode st0 st0
  | reach_addNode st n st' :
      reachableByAddNode st0 st →
      addNode n st = Ok tt st' →
      reachableByAddNode st0 st'.

(** Is the id among those of the bucket? *)
Definition inBucket (id : bytes) (bucket : list node) : bool :=
  existsb (λ v, bytesEqual (ID v) id) bucket.

(** The state with the pair handed to the store. *)
Definition withStored (key data : bytes) (st : state Sto World) : state Sto World :=
  mkState (ht st) (Store_Store key data (store st)) (msgCounter st) (world st) (sent st).

(** The key of a node in the [contacted] map. *)
Definition contactKey (n : NetworkNode) : string := string_of_list_byte (ID n).

(** The contacts a response carries. *)
Definition closestOf (d : payload) : list NetworkNode :=
  match d with
  | responseDataFindNode closest => closest
  | responseDataFindValue _ closest => closest
  | _ => []
  end.

(** [a] is at most as far from the target as [b]. *)
Definition closer (target : bytes) (a b : NetworkNode) : Prop :=
  (getDistance (ID a) target ≤ getDistance (ID b) target)%N.

(** The type of the queries of a lookup. *)
Definition queryTypeOf (t : iterateType) : messageType :=
  match t with
  | iterateFindValue => messageTypeQueryFindValue
  | _ => messageTypeQueryFindNode
  end.

(** A finite network: every contact a peer ever names in a response has
    its id in the finite set [U]. *)
Definition finiteNetwork (U : gset string) : Prop :=
  ∀ q id w n, n ∈ closestOf (msg_Data (recv q id w).1) → contactKey n ∈ U.

(** Responding peers: a send never fails, and the response to a query
    carries no error and the payload [listen] builds for that query. *)
Definition respondsTo (q r : message) : Prop :=
  msg_Error r = None
  ∧ match msg_Type q with
    | messageTypeQueryFindNode => ∃ closest, msg_Data r = responseDataFindNode closest
    | messageTypeQueryFindValue =>
        ∃ value closest, msg_Data r = responseDataFindValue value closest
    | _ => True
    end.
Definition respondingPeers : Prop :=
  (∀ q id expect w, (sendMessage q id expect w).1 = None)
  ∧ (∀ q id w, respondsTo q (recv q id w).1).

(** Every node of the network has a bucket in the routing table. *)
Definition bucketsInRange (U : gset string) (st : state Sto World) : Prop :=
  ∀ n, contactKey n ∈ U →
       (getBucketIndexFromDifferingBit (ID (Self (ht st))) (ID n)
        < length (RoutingTable (ht st)))%nat.

(** The [i]-th successor of a message id. *)
Definition idAfter (i : nat) (c : Z) : Z := Nat.iter i int64_incr c.

(** The calls of [sendMessage] that the Store fan-out makes for the
    nodes [nodes], the first with the id [c]. *)
Definition storeCalls (self : NetworkNode) (target data : bytes) (c : Z)
    (nodes : list NetworkNode) : list sentMessage :=
  imap (λ i n, mkSent (storeQuery self n target data) (idAfter i c) false) nodes.

(** The state after the Store fan-out to [nodes], in the world [w]. *)
Definition afterStoreCalls (target data : bytes) (nodes : list NetworkNode) (w : World)
    (st : state Sto World) : state Sto World :=
  mkState (ht st) (store st) (idAfter (length nodes) (msgCounter st)) w
          (sent st ++ storeCalls (Self (ht st)) target data (msgCounter st) nodes).

(** The QueryStore messages of a trace. *)
Definition storeMessages (l : list sentMessage) : list sentMessage :=
  filter (λ s, msg_Type (sent_msg s) = messageTypeQueryStore) l.

(** A run that returns relates its first and last state by [I]. *)
Definition preserves {A} (I : state Sto World → state Sto World → Prop)
    (m : M (state Sto World) A) : Prop :=
  ∀ st a st', m st = Ok a st' → I st st'.

(** A run that needs no fuel: it returns or panics. *)
Definition fuelFree {A} (m : M (state Sto World) A) : Prop :=
  ∀ st, m st ≠ OutOfFuel.

(** From [st] to [st'] no QueryStore message was sent. *)
Definition noStoreSent (st st' : state Sto World) : Prop :=
  ∃ l, sent st' = sent st ++ l ∧ storeMessages l = [].

(** From [st] to [st'] the routing table kept its owner and its number
    of buckets. *)
Definition sameShape (st st' : state Sto World) : Prop :=
  Self (ht st') = Self (ht st)
  ∧ length (RoutingTable (ht st')) = length (RoutingTable (ht st)).

End Predicates.

(* ------------------------------------------------------------------ *)
(** ** Further predicates: the in-memory store *)
(* ------------------------------------------------------------------ *)

(** The stores reached from [Init] by the operations of the store. *)
Inductive storeReachable : MemoryStore.t → Prop :=
  | reach_Init : storeReachable MemoryStore.Init
  | reach_Store now key d expiration publisher ms :
      storeReachable ms →
      storeReachable (MemoryStore.Store now key d expiration publisher ms)
  | reach_Delete key ms :
      storeReachable ms → storeReachable (MemoryStore.Delete key ms)
  | reach_ExpireKeys now ms :
      storeReachable ms → storeReachable (MemoryStore.ExpireKeys now ms).

(** Every value has an expire-at instant, and the keys with a refresh-at
    instant are those with an expire-at instant. *)
Definition timed (ms : MemoryStore.t) : Prop :=
  ∀ k, (is_Some (MemoryStore.data ms !! k) → is_Some (MemoryStore.expireMap ms !! k))
       ∧ (is_Some (MemoryStore.refreshMap ms !! k)
          ↔ is_Some (MemoryStore.expireMap ms !! k)).

(* ------------------------------------------------------------------ *)
(** ** Further predicates: the routing table and the trace *)
(* ------------------------------------------------------------------ *)

Section MorePredicates.
Context {Sto World : Type} {Net : networking World} {Str : Store Sto} {Ops : hashTableOps}.

(** No two contacts of a bucket have the same id. *)
Definition bucketsDistinct (h : hashTable) : Prop :=
  Forall (λ bucket, NoDup (ID <$> bucket)) (RoutingTable h).

(** Every contact sits in the bucket of its id. *)
Definition bucketsIndexed (h : hashTable) : Prop :=
  ∀ i bucket n, RoutingTable h !! i = Some bucket → n ∈ bucket →
                getBucketIndexFromDifferingBit (ID (Self h)) (ID n) = i.

(** The ids of the calls [l] are the successive values of the counter
    from [c] on. *)
Fixpoint idsFrom (c : Z) (l : list sentMessage) : Prop :=
  match l with
  | [] => True
  | s :: l' => sent_id s = c ∧ idsFrom (int64_incr c) l'
  end.

(** From [st] to [st'] the local store was not touched, the calls of
    [sendMessage] made all satisfy [P], and each took the next value of
    the message counter. *)
Definition traced (P : sentMessage → Prop) (st st' : state Sto World) : Prop :=
  store st' = store st
  ∧ ∃ l, sent st' = sent st ++ l
         ∧ Forall P l
         ∧ idsFrom (msgCounter st) l
         ∧ msgCounter st' = idAfter (length l) (msgCounter st).

(** A liveness ping, which expects a response. *)
Definition isPing (s : sentMessage) : Prop :=
  msg_Type (sent_msg s) = messageTypeQueryPing
  ∧ msg_IsResponse (sent_msg s) = false
  ∧ sent_expectResponse s = true.

(** The type of the response [listen] gives to a message of a type. *)
Definition responseTypeOf (t : messageType) : option messageType :=
  match t with
  | messageTypeQueryFindNode => Some messageTypeResponseFindNode
  | messageTypeQueryFindValue => Some messageTypeResponseFindValue
  | messageTypeQueryPing => Some messageTypeResponsePing
  | _ => None
  end.

(** The key of the node a lookup query of the trace goes to (pings and
    store messages are no lookup queries). *)
Definition queriedKey (s : sentMessage) : option string :=
  match msg_Type (sent_msg s) with
  | messageTypeQueryFindNode | messageTypeQueryFindValue =>
      contactKey <$> msg_Receiver (sent_msg s)
  | _ => None
  end.
Definition queried (l : list sentMessage) : list string := omap queriedKey l.

(** The replies of a trace. *)
Definition replies (l : list sentMessage) : list sentMessage :=
  filter (λ s, msg_IsResponse (sent_msg s) = true) l.

(** A store that returns what was stored last under a key. *)
Definition lawfulStore : Prop :=
  ∀ key key' d (s : Sto),
    Store_Retrieve key' (Store_Store key d s)
    = if decide (key' = key) then Some d else Store_Retrieve key' s.

End MorePredicates.

(* ------------------------------------------------------------------ *)
(** ** [DHT.Get] and the base58 decoding it calls *)
(* ------------------------------------------------------------------ *)

Module b58Decode.
Local Open Scope N_scope.

(** [strings.IndexAny(alphabet, string(c))] for one character: its place
    in the alphabet, if it has one. *)
Fixpoint indexFrom (i : N) (s : string) (c : ascii) : option N :=
  match s with
  | EmptyString => None
  | String a s' => if Ascii.eqb a c then Some i else indexFrom (i + 1) s' c
  end.
Definition index (c : ascii) : option N := indexFrom 0 b58.alphabet c.

(** The loop of [Decode] over the characters, last first: [answer] grows
    by the digit times [j], and [j] by the radix; a character outside the
    alphabet ends the decoding. *)
Fixpoint accumulate (cs : list ascii) (j answer : N) : option N :=
  match cs with
  | [] => Some answer
  | c :: cs' =>
      match index c with
      | None => None
      | Some idx => accumulate cs' (j * 58) (answer + j * idx)
      end
  end.

(** [big.Int.Bytes]: the big-endian bytes of a number, none for zero. *)
Definition byteLength (x : N) : nat :=
  if x =? 0 then 0%nat else S (N.to_nat (N.log2 x / 8)).
Definition Bytes (x : N) : bytes := beBytes (byteLength x) x.

(** The number of leading characters that are the zero digit. *)
Fixpoint numZeros (cs : list ascii) : nat :=
  match cs with
  | "1"%char :: cs' => S (numZeros cs')
  | _ => 0%nat
  end.

(** [b58.Decode(s)]: the empty slice when a character is outside the
    alphabet, else as many zero bytes as leading zero digits, then the
    bytes of the number. *)
Definition Decode (s : string) : bytes :=
  let cs := list_ascii_of_string s in
  match accumulate (rev cs) 1 0 with
  | None => []
  | Some answer => repeat "000"%byte (numZeros cs) ++ Bytes answer
  end.

End b58Decode.

Section Facade.
Context {Sto World : Type} {Net : networking World} {Str : Store Sto} {Ops : hashTableOps}.

(** [func (dht *DHT) Get(key string) ([]byte, bool, error)], lines 83-98. *)
Definition DHT_Get (fuel : nat) (key : string)
    : M (state Sto World) (option bytes * bool * option string) :=
  let keyBytes := b58Decode.Decode key in
  let* value := (λ st, Ok (Store_Retrieve keyBytes (store st)) st) in
  match value with
  | Some v => ret (Some v, true, None)
  | None =>
      let* '(value, _, err) := iterate fuel iterateFindValue keyBytes [] in
      match err with
      | Some e => ret (None, false, Some e)
      | None =>
          ret (value, match value with Some _ => true | None => false end, None)
      end
  end.

End Facade.

(* ------------------------------------------------------------------ *)
(** ** Further predicates: what a lookup and the listen loop send *)
(* ------------------------------------------------------------------ *)

Section LoopPredicates.
Context {Sto World : Type} {Net : networking World} {Str : Store Sto} {Ops : hashTableOps}.

(** A response, sent without waiting for an answer. *)
Definition isReply (s : sentMessage) : Prop :=
  msg_IsResponse (sent_msg s) = true ∧ sent_expectResponse s = false.

(** A call of [sendMessage] of a lookup of type [t] for [target]: a
    liveness ping, a query of the lookup, which expects a response, or, in
    a Store lookup, a store message, which expects none. *)
Definition lookupCall (t : iterateType) (target data : bytes) (s : sentMessage) : Prop :=
  isPing s
  ∨ (∃ self n, sent_msg s = makeQuery t self n target ∧ sent_expectResponse s = true)
  ∨ (t = iterateStore
     ∧ ∃ self n, sent_msg s = storeQuery self n target data
                 ∧ sent_expectResponse s = false).

(** From [st] to [st'] the node kept its own address and the number of
    its buckets, the routing table kept what [addNode] keeps, and every
    call of [sendMessage] was a liveness ping or a response. *)
Definition served (st st' : state Sto World) : Prop :=
  Self (ht st') = Self (ht st)
  ∧ length (RoutingTable (ht st')) = length (RoutingTable (ht st))
  ∧ (bucketsBounded (ht st) → bucketsBounded (ht st'))
  ∧ (bucketsDistinct (ht st) → bucketsDistinct (ht st'))
  ∧ (bucketsIndexed (ht st) → bucketsIndexed (ht st'))
  ∧ ∃ l, sent st' = sent st ++ l ∧ Forall (λ s, isPing s ∨ isReply s) l.

End LoopPredicates.

(* ================================================================== *)
(** * Properties *)
(* ================================================================== *)

(* ------------------------------------------------------------------ *)
(** ** Properties of the in-memory store *)
(* ------------------------------------------------------------------ *)

Section MemoryStoreFacts.
Import MemoryStore.

Lemma expireStep_entry now ms kv k :
  entry k (expireStep now ms kv) =
    if decide (k = kv.1 ∧ kv.2 < now) then (None, None, None) else entry k ms.
Proof.
  unfold expireStep, After, entry.
  destruct (Z.ltb_spec kv.2 now) as [Hlt|Hge]; simpl.
  - destruct (decide (k = kv.1)) as [->|Hne].
    + rewrite !lookup_delete_eq. rewrite decide_True by done. done.
    + rewrite !lookup_delete_ne by done.
      rewrite decide_False by (intros [? _]; done). done.
  - rewrite decide_False by (intros [_ ?]; lia). done.
Qed.

Lemma expiredIn_spec now k entries :
  expiredIn now k entries = true ↔ ∃ v, (k, v) ∈ entries ∧ v < now.
Proof.
  unfold expiredIn. rewrite existsb_exists. split.
  - intros ([k' v] & Hin & Hb). apply andb_prop in Hb as [Hk Hv]. simpl in *.
    apply bool_decide_eq_true in Hk as ->. apply Z.ltb_lt in Hv.
    exists v. split; [by apply list_elem_of_In|done].
  - intros (v & Hin & Hv). exists (k, v). split; [by apply list_elem_of_In|].
    simpl. rewrite bool_decide_eq_true_2 by done. by apply Z.ltb_lt.
Qed.

(** The sweep over any list of entries: a key is cleared when the list
    holds it with an expired instant, and is untouched otherwise. *)
Lemma ExpireKeys_in_entry now entries ms k :
  entry k (ExpireKeys_in now entries ms) =
    if expiredIn now k entries then (None, None, None) else entry k ms.
Proof.
  unfold ExpireKeys_in. revert ms.
  induction entries as [|[k' v'] entries IH]; intros ms; simpl; [done|].
  rewrite IH, expireStep_entry. simpl.
  destruct (expiredIn now k entries); [by rewrite orb_true_r|].
  rewrite orb_false_r.
  destruct (decide (k = k' ∧ v' < now)) as [[-> Hv]|Hn].
  - rewrite bool_decide_eq_true_2 by done. simpl.
    by destruct (Z.ltb_spec v' now); [|lia].
  - destruct (bool_decide (k' = k)) eqn:Hk; [|done]. simpl.
    apply bool_decide_eq_true in Hk as ->.
    destruct (Z.ltb_spec v' now); [|done]. exfalso. by apply Hn.
Qed.

Lemma ExpireKeys_entry now ms k :
  entry k (ExpireKeys now ms) =
    match expireMap ms !! k with
    | Some v => if decide (v < now) then (None, None, None) else entry k ms
    | None => entry k ms
    end.
Proof.
  unfold ExpireKeys. rewrite ExpireKeys_in_entry.
  destruct (expiredIn now k (map_to_list (expireMap ms))) eqn:He.
  - apply expiredIn_spec in He as (v & Hin & Hv).
    apply elem_of_map_to_list in Hin. rewrite Hin. by rewrite decide_True.
  - destruct (expireMap ms !! k) as [v|] eqn:Hk; [|done].
    destruct (decide (v < now)) as [Hv|Hv]; [|done].
    assert (expiredIn now k (map_to_list (expireMap ms)) = true) as Ht; [|congruence].
    apply expiredIn_spec. exists v. split; [by apply elem_of_map_to_list|done].
Qed.


(** C10. The [publisher] argument of [MemoryStore.Store] has no effect:
    storing with [true] and with [false] gives the same store (the same
    data, refresh and expire maps), hence the same answers of
    [Retrieve], [GetAllKeysForRefresh] and [ExpireKeys] afterwards. *)
Theorem Store_publisher_irrelevant now key d expiration ms :
  Store now key d expiration true ms = Store now key d expiration false ms
  ∧ (∀ key', Retrieve key' (Store now key d expiration true ms)
             = Retrieve key' (Store now key d expiration false ms))
  ∧ (∀ now', GetAllKeysForRefresh now' (Store now key d expiration true ms)
             = GetAllKeysForRefresh now' (Store now key d expiration false ms))
  ∧ (∀ now', ExpireKeys now' (Store now key d expiration true ms)
             = ExpireKeys now' (Store now key d expiration false ms)).
Proof. repeat split. Qed.

(** C7, as amended. [ExpireKeys] removes exactly the entries whose
    expire-at instant is strictly before the current time: such an entry
    loses its value, refresh-at and expire-at; every other entry, one
    whose expire-at equals the current time included, keeps all three. *)
Theorem ExpireKeys_removes_strictly_expired now ms k :
  entry k (ExpireKeys now ms) =
    match expireMap ms !! k with
    | Some v => if decide (v < now) then (None, None, None) else entry k ms
    | None => entry k ms
    end.
Proof. apply ExpireKeys_entry. Qed.

(** C7, as stated, fails: an entry whose expire-at equals the current
    time is not removed. *)
Lemma ExpireKeys_keeps_entry_expiring_now :
  ¬ (∀ now ms k v, expireMap ms !! k = Some v → v ≤ now →
       entry k (ExpireKeys now ms) = (None, None, None)).
Proof.
  intros Hclaim.
  specialize (Hclaim 5 (Store 0 (list_byte_of_string "k") (list_byte_of_string "v") 5 false Init)
                "k"%string 5).
  vm_compute in Hclaim.
  specialize (Hclaim eq_refl (λ H, match H with end)). discriminate Hclaim.
Qed.

End MemoryStoreFacts.

(* ------------------------------------------------------------------ *)
(** ** Properties of the routing table: [addNode] *)
(* ------------------------------------------------------------------ *)

Section AddNodeFacts.
Context {Sto World : Type} {Net : networking World} {Ops : hashTableOps}.
Implicit Types (st : state Sto World) (n : NetworkNode).

(** [addNode] in one piece: what it returns in each of its branches. *)
Lemma addNode_unfold n st :
  addNode n st =
    let index := getBucketIndexFromDifferingBit (ID (Self (ht st))) (ID n) in
    match RoutingTable (ht st) !! index with
    | None => Panic
    | Some bucket =>
        if inBucket (ID n) bucket then Ok tt st
        else if (length bucket =? k)%nat then
          match bucket with
          | [] => Panic
          | first :: _ =>
              let query := pingQuery (Self (ht st)) first in
              let '(err, w1) := sendMessage query (msgCounter st) true (world st) in
              match err with
              | Some _ =>
                  Ok tt (withBucket index (drop 1 (bucket ++ [n])) (afterSend query true w1 st))
              | None =>
                  let '(pong, w2) := recvBefore query (msgCounter st) (Second * tPingMax) w1 in
                  if pong then Ok tt (afterSend query true w2 st)
                  else Ok tt (withBucket index (drop 1 (bucket ++ [n]))
                                (afterSend query true w2 st))
              end
          end
        else Ok tt (withBucket index (bucket ++ [n]) st)
    end.
Proof.
  unfold addNode, bind, getHt, inBucket. simpl.
  destruct (RoutingTable (ht st) !! _) as [bucket|]; [|done].
  destruct (existsb _ bucket); [done|].
  destruct (length bucket =? k)%nat; [|done].
  destruct bucket as [|first rest]; [done|].
  unfold send, bind. simpl.
  destruct (sendMessage _ _ _ _) as [[e|] w1]; simpl; [done|].
  unfold awaitBefore. simpl.
  destruct (recvBefore _ _ _ _) as [[|] w2]; done.
Qed.

(** A call of [addNode] that returns keeps the number of buckets, the
    node's own address and the store. *)
Lemma addNode_frame n st st' :
  addNode n st = Ok tt st' →
  length (RoutingTable (ht st')) = length (RoutingTable (ht st))
  ∧ Self (ht st') = Self (ht st)
  ∧ store st' = store st.
Proof.
  rewrite addNode_unfold. cbv zeta.
  destruct (RoutingTable (ht st) !! _) as [bucket|]; [|done].
  destruct (inBucket _ bucket); [by intros [= <-]|].
  destruct (length bucket =? k)%nat.
  - destruct bucket as [|first rest]; [done|].
    destruct (sendMessage _ _ _ _) as [[e|] w1].
    + intros [= <-]. simpl. by rewrite length_insert.
    + destruct (recvBefore _ _ _ _) as [[|] w2]; intros [= <-]; simpl;
        by rewrite ?length_insert.
  - intros [= <-]. simpl. by rewrite length_insert.
Qed.

Lemma addNode_bounded n st st' :
  bucketsBounded (ht st) → addNode n st = Ok tt st' → bucketsBounded (ht st').
Proof.
  unfold bucketsBounded. intros Hb. rewrite addNode_unfold. cbv zeta.
  destruct (RoutingTable (ht st) !! _) as [bucket|] eqn:Hbucket; [|done].
  assert (length bucket ≤ k)%nat as Hlen.
  { eapply Forall_lookup_1 in Hb; [|exact Hbucket]. exact Hb. }
  destruct (inBucket _ bucket); [by intros [= <-]|].
  destruct (Nat.eqb_spec (length bucket) k) as [Hk|Hk].
  - destruct bucket as [|first rest]; [done|].
    assert (length (drop 1 ((first :: rest) ++ [n])) ≤ k)%nat as Hdrop.
    { rewrite length_drop, length_app. simpl in *. lia. }
    destruct (sendMessage _ _ _ _) as [[e|] w1].
    + intros [= <-]. simpl. by apply Forall_insert.
    + destruct (recvBefore _ _ _ _) as [[|] w2]; intros [= <-]; simpl; [done|].
      by apply Forall_insert.
  - intros [= <-]. simpl. apply Forall_insert; [done|].
    rewrite length_app. simpl. lia.
Qed.

Lemma addNodes_reachable l st st' :
  addNodes l st = Ok tt st' → reachableByAddNode st st'.
Proof.
  assert (∀ st0 st, reachableByAddNode st0 st →
            addNodes l st = Ok tt st' → reachableByAddNode st0 st') as Hgen.
  { induction l as [|n l IH]; intros st0 st1 Hreach; simpl.
    - by intros [= <-].
    - unfold bind. destruct (addNode (newNode n) st1) as [[] st2| |] eqn:Hadd; try done.
      intros Hrest. eapply IH; [|exact Hrest]. by eapply reach_addNode. }
  apply Hgen. constructor.
Qed.

(** C9. Bucket capacity is invariant: from a routing table whose buckets
    all hold at most k = 20 contacts, every state reached by any sequence
    of calls of [addNode] that return has all its buckets at most k long,
    after each call. *)
Theorem addNode_bucket_capacity st0 st :
  bucketsBounded (ht st0) → reachableByAddNode st0 st → bucketsBounded (ht st).
Proof.
  intros H0 Hreach. induction Hreach as [|st n st' _ IH Hadd]; [done|].
  by eapply addNode_bounded.
Qed.

(** C4, as amended. [addNode] keeps a bucket in the order of arrival:
    when the contact's id is already in its bucket the call changes
    nothing (the entry keeps its place); when the bucket is full and the
    head answers the ping within tPingMax the new contact is discarded and
    the bucket is unchanged (the head keeps its place); when the send of
    the ping fails or no answer comes in time the head is evicted and the
    new contact is appended at the tail. *)
Theorem addNode_policy n st bucket :
  let index := getBucketIndexFromDifferingBit (ID (Self (ht st))) (ID n) in
  RoutingTable (ht st) !! index = Some bucket →
  (inBucket (ID n) bucket = true → addNode n st = Ok tt st)
  ∧ (inBucket (ID n) bucket = false → length bucket = k →
     ∃ first rest, bucket = first :: rest ∧
       let query := pingQuery (Self (ht st)) first in
       let '(err, w1) := sendMessage query (msgCounter st) true (world st) in
       let '(pong, w2) := recvBefore query (msgCounter st) (Second * tPingMax) w1 in
       (err ≠ None →
          addNode n st = Ok tt (withBucket index (rest ++ [n]) (afterSend query true w1 st)))
       ∧ (err = None → pong = true →
          addNode n st = Ok tt (afterSend query true w2 st))
       ∧ (err = None → pong = false →
          addNode n st = Ok tt (withBucket index (rest ++ [n]) (afterSend query true w2 st)))).
Proof.
  intros index Hbucket. rewrite addNode_unfold. cbv zeta. fold index. rewrite Hbucket.
  split; [by intros ->|].
  intros -> Hk. apply Nat.eqb_eq in Hk as Hkb. rewrite Hkb.
  destruct bucket as [|first rest]; [done|].
  exists first, rest. split; [done|]. cbv zeta.
  destruct (sendMessage _ _ _ _) as [err w1].
  destruct (recvBefore _ _ _ _) as [pong w2].
  repeat split.
  - intros Herr. by destruct err.
  - by intros -> ->.
  - by intros -> ->.
Qed.

End AddNodeFacts.

Section AddNodeExamples.
Import Scenario.
#[local] Existing Instance tableOps.

Lemma addNode_bucket_capacity_witness :
  bucketsBounded
    (ht (after (addNodes (Net := fixedNetwork crowdDead) (crowd ++ [newcomer])
                  (initial (emptyTable self) []))
               (initial (emptyTable self) []))).
Proof.
  apply (addNode_bucket_capacity (Net := fixedNetwork crowdDead)
           (initial (emptyTable self) [])).
  - apply Forall_forall. intros bucket Hin.
    apply list_elem_of_In, (repeat_spec 160 []) in Hin. subst bucket. apply Nat.le_0_l.
  - apply (addNodes_reachable (crowd ++ [newcomer])). vm_compute. reflexivity.
Defined.

(** C4, as stated, fails on both counts of moving to the tail: a known
    contact offered again stays where it is, and so does the head of a
    full bucket that answers the ping. *)
Lemma addNode_moves_nothing_to_the_tail :
  (addNode (Net := fixedNetwork []) (nodeOf "002") acquainted = Ok tt acquainted
   ∧ RoutingTable (ht acquainted) !! 1%nat = Some [nodeOf "002"; nodeOf "003"]
   ∧ [nodeOf "002"; nodeOf "003"] ≠ [nodeOf "003"; nodeOf "002"])
  ∧ (addNode (Net := fixedNetwork crowdAlive) newcomer crowded
       = Ok tt (afterSend (pingQuery self (nodeOf (byteOf 32))) true [] crowded)
     ∧ RoutingTable (ht (afterSend (pingQuery self (nodeOf (byteOf 32))) true [] crowded))
         !! 5%nat = Some crowd
     ∧ crowd ≠ drop 1 crowd ++ take 1 crowd).
Proof.
  repeat split; try (vm_compute; reflexivity); vm_compute; discriminate.
Qed.

Lemma addNode_policy_witness :
  addNode (Net := fixedNetwork crowdDead) newcomer crowded
  = Ok tt (withBucket 5 (drop 1 crowd ++ [newcomer])
             (afterSend (pingQuery self (nodeOf (byteOf 32))) true [] crowded)).
Proof.
  destruct (addNode_policy (Net := fixedNetwork crowdDead) newcomer crowded crowd)
    as [_ Hfull]; [vm_compute; reflexivity|].
  destruct Hfull as (first & rest & Heq & Hcases); [vm_compute; reflexivity..|].
  injection Heq as <- <-.
  destruct Hcases as (_ & _ & Htimeout).
  apply Htimeout; reflexivity.
Defined.

End AddNodeExamples.

(* ------------------------------------------------------------------ *)
(** ** Properties of [DHT.Store], of the listen loop and of the merge of
    the responses *)
(* ------------------------------------------------------------------ *)

Section FacadeFacts.
Context {Sto World : Type} {Net : networking World} {Str : Store Sto} {Ops : hashTableOps}.
Implicit Types (st : state Sto World).

(** [iterate] never returns an error. *)
Lemma finish_no_error t target data sl st r st' :
  finish t target data sl st = Ok r st' → r.2 = None.
Proof.
  destruct t; simpl; unfold bind, ret.
  - destruct (storeAll _ _ _ _ _); [|done..]. by intros [= <- _].
  - by intros [= <- _].
  - by intros [= <- _].
Qed.

Lemma iterateLoop_no_error fuel t target data sl contacted closestNode st r st' :
  iterateLoop fuel t target data sl contacted closestNode st = Ok r st' → r.2 = None.
Proof.
  revert sl contacted closestNode st.
  induction fuel as [|fuel IH]; intros sl contacted closestNode st; simpl; [done|].
  unfold bind at 1. destruct (round _ _ _ _ _) as [[m c] st1| |]; [|done..].
  destruct m as [v|sl'].
  - by intros [= <- _].
  - destruct sl' as [|first rest]; [done|].
    destruct (bytesEqual _ _); [apply finish_no_error|apply IH].
Qed.

Lemma iterate_no_error fuel t target data st r st' :
  iterate fuel t target data st = Ok r st' → r.2 = None.
Proof.
  unfold iterate, bind, getHt.
  destruct (getClosestContacts _ _ _ _) as [|c sl]; [by intros [= <- _]|].
  apply iterateLoop_no_error.
Qed.

(** Whatever the data, the key [DHT.Store] stores under, looks up and
    returns is the data followed by the hash of the empty string. *)
Lemma DHT_Store_key fuel data st s err st' :
  DHT_Store fuel data st = Ok (s, err) st' →
  s = b58.Encode (data ++ SHA1.digest []) ∧ err = None
  ∧ ∃ r, iterate fuel iterateStore (data ++ SHA1.digest []) data
           (withStored (data ++ SHA1.digest []) data st) = Ok r st'.
Proof.
  unfold DHT_Store, bind. simpl. unfold SHA1.Sum, SHA1.New.
  fold (withStored (data ++ SHA1.digest []) data st).
  destruct (iterate _ _ _ _ _) as [[[v cl] e] st1| |] eqn:Hit; [|done..].
  apply iterate_no_error in Hit as He. simpl in He. subst e.
  intros [= <- <- <-]. eauto.
Qed.

(** The handler of a QueryStore message adds the sender to the routing
    table and hands the key and the data, and nothing else, to the
    store. *)
Lemma handleMessage_QueryStore msg key data sender st :
  msg_Type msg = messageTypeQueryStore →
  msg_Data msg = queryDataStore key data →
  msg_Sender msg = Some sender →
  handleMessage msg st =
    match addNode sender st with
    | Ok _ st1 => Ok tt (withStored key data st1)
    | Panic => Panic
    | OutOfFuel => OutOfFuel
    end.
Proof.
  intros Ht Hd Hs. unfold handleMessage. rewrite Ht, Hd, Hs.
  unfold bind, newNode. by destruct (addNode sender st).
Qed.

(** A response with an error removes its [Receiver] from the shortlist
    and leaves the state, the routing table included, as it is. *)
Lemma mergeResults_error t r rest sl st e n :
  msg_Error r = Some e →
  msg_Receiver r = Some n →
  mergeResults t (r :: rest) sl st = mergeResults t rest (shortList.RemoveNode sl n) st.
Proof. intros He Hn. simpl. by rewrite He, Hn. Qed.

End FacadeFacts.

Section LibraryExamples.

(** The test vectors of SHA-1 for the empty string and for "abc", and a
    base58 encoding with leading zero bytes. *)
Example SHA1_empty :
  map Byte.to_N (SHA1.digest [])
  = [218; 57; 163; 238; 94; 107; 75; 13; 50; 85; 191; 239; 149; 96; 24; 144; 175; 216; 7; 9]%N.
Proof. vm_compute. reflexivity. Qed.

Example SHA1_abc :
  map Byte.to_N (SHA1.digest (list_byte_of_string "abc"))
  = [169; 153; 62; 54; 71; 6; 129; 106; 186; 62; 37; 113; 120; 80; 194; 108; 156; 208;
     216; 157]%N.
Proof. vm_compute. reflexivity. Qed.

Example b58_leading_zeros :
  b58.Encode ["000"%byte; "000"%byte; "001"%byte] = "112"%string.
Proof. vm_compute. reflexivity. Qed.

End LibraryExamples.

Section FacadeExamples.
Import Scenario.
#[local] Existing Instance tableOps.
#[local] Existing Instance dataStore.

(** C2, on the code: [Put("hello")] on a single node stores under, and
    returns the base58 form of, the 25 bytes of "hello" followed by the
    SHA-1 hash of the empty string; it is not base58(sha1("hello")). *)
Theorem DHT_Store_hello :
  DHT_Store (Net := fixedNetwork []) 0 (list_byte_of_string "hello")
    (initial (emptyTable self) [])
  = Ok ("j1Q1Y5692WjzDiiiDnxok7A7cA9YxQh2PS"%string, None)
       (withStored (list_byte_of_string "hello" ++ SHA1.digest [])
          (list_byte_of_string "hello") (initial (emptyTable self) []))
  ∧ b58.Encode (list_byte_of_string "hello" ++ SHA1.digest [])
    = "j1Q1Y5692WjzDiiiDnxok7A7cA9YxQh2PS"%string
  ∧ b58.Encode (SHA1.digest (list_byte_of_string "hello"))
    = "3P94WsJRYnt8CVQY5PdvZ2ycqqRn"%string
  ∧ length (list_byte_of_string "hello" ++ SHA1.digest []) = 25%nat.
Proof. repeat split; vm_compute; reflexivity. Qed.

(** C5, on the code: the handler of QueryStore calls the store with the
    key and the data alone; no expiration and no publisher flag is
    computed or passed. It sends nothing. *)
Theorem handleMessage_QueryStore_two_arguments :
  handleMessage (Net := fixedNetwork []) storeRequest (initial (emptyTable self) [])
  = Ok tt (withStored (list_byte_of_string "k") (list_byte_of_string "v")
             (withBucket 0 [nodeOf "001"] (initial (emptyTable self) [])))
  ∧ store (withStored (list_byte_of_string "k") (list_byte_of_string "v")
             (withBucket 0 [nodeOf "001"] (initial (emptyTable self) [])))
    = {[ "k"%string := list_byte_of_string "v" ]}
  ∧ sent (withStored (list_byte_of_string "k") (list_byte_of_string "v")
            (withBucket 0 [nodeOf "001"] (initial (emptyTable self) [])))
    = [].
Proof. repeat split; vm_compute; reflexivity. Qed.

(** C6, on the code: an error response sent by peer 1 to the node
    removes from the shortlist the [Receiver] of the response, which is
    the node itself; peer 1 stays in the shortlist. *)
Theorem mergeResults_error_keeps_sender :
  mergeResults (Net := fixedNetwork []) iterateFindNode [errorResponse]
    [nodeOf "001"; nodeOf "002"] (initial (emptyTable self) [])
  = Ok (Merged [nodeOf "001"; nodeOf "002"]) (initial (emptyTable self) [])
  ∧ msg_Sender errorResponse = Some (nodeOf "001")
  ∧ msg_Receiver errorResponse = Some self.
Proof. repeat split; vm_compute; reflexivity. Qed.

End FacadeExamples.

(* ------------------------------------------------------------------ *)
(** ** Properties of the shortlist *)
(* ------------------------------------------------------------------ *)

Section ShortListFacts.
Import shortList.
Implicit Types (sl nodes : list NetworkNode) (n m : NetworkNode).

Lemma insert_perm target n sl : insert target n sl ≡ₚ n :: sl.
Proof.
  induction sl as [|m sl IH]; simpl; [done|].
  destruct (_ <=? _)%N; [done|]. rewrite IH. apply Permutation_swap.
Qed.

Lemma Sort_perm target sl : Sort target sl ≡ₚ sl.
Proof.
  induction sl as [|n sl IH]; simpl; [done|].
  fold (Sort target sl). by rewrite insert_perm, IH.
Qed.

Lemma insert_sorted target n sl :
  Sorted (closer target) sl → Sorted (closer target) (insert target n sl).
Proof.
  induction 1 as [|m sl Hs IH Hhd]; simpl; [by repeat constructor|].
  destruct (N.leb_spec (getDistance (ID n) target) (getDistance (ID m) target)) as [Hle|Hgt].
  - constructor; [by constructor|]. by constructor.
  - constructor; [done|].
    destruct Hhd as [|m' sl' Hmm']; simpl.
    + constructor. unfold closer. lia.
    + destruct (_ <=? _)%N; constructor; [unfold closer; lia|done].
Qed.

Lemma Sort_sorted target sl : Sorted (closer target) (Sort target sl).
Proof.
  induction sl as [|n sl IH]; simpl; [constructor|].
  by apply insert_sorted.
Qed.

(** Sorting a sorted shortlist changes nothing. *)
Lemma Sort_id target sl : Sorted (closer target) sl → Sort target sl = sl.
Proof.
  induction 1 as [|n sl Hs IH Hhd]; simpl; [done|].
  fold (Sort target sl). rewrite IH.
  destruct Hhd as [|m sl' Hnm]; simpl; [done|].
  unfold closer in Hnm. apply N.leb_le in Hnm. by rewrite Hnm.
Qed.

Lemma Sort_idem target sl : Sort target (Sort target sl) = Sort target sl.
Proof. apply Sort_id, Sort_sorted. Qed.

Lemma Sort_nil target sl : Sort target sl = [] → sl = [].
Proof.
  intros Hnil. apply Permutation_nil. by rewrite <- (Sort_perm target sl), Hnil.
Qed.

Lemma Sort_elem target sl n : n ∈ Sort target sl ↔ n ∈ sl.
Proof. by rewrite Sort_perm. Qed.

Lemma Sort_NoDup target sl : NoDup (ID <$> sl) → NoDup (ID <$> Sort target sl).
Proof. by rewrite Sort_perm. Qed.

Lemma RemoveNode_elem sl n m : m ∈ RemoveNode sl n → m ∈ sl.
Proof. unfold RemoveNode. rewrite list_elem_of_filter. tauto. Qed.

Lemma RemoveNode_NoDup sl n : NoDup (ID <$> sl) → NoDup (ID <$> RemoveNode sl n).
Proof.
  unfold RemoveNode. intros Hnd. eapply sublist_NoDup; [exact Hnd|].
  apply fmap_sublist, sublist_filter.
Qed.

Lemma existsb_ID sl n :
  existsb (λ m, bytesEqual (ID m) (ID n)) sl = true ↔ ID n ∈ ID <$> sl.
Proof.
  rewrite existsb_exists, list_elem_of_fmap. unfold bytesEqual.
  split.
  - intros (m & Hin & Heq). apply bool_decide_eq_true in Heq.
    exists m. split; [done|]. by apply list_elem_of_In.
  - intros (m & Heq & Hin). exists m. split; [by apply list_elem_of_In|].
    by apply bool_decide_eq_true.
Qed.

Lemma AppendUnique_spec sl nodes :
  ∃ added, AppendUniqueNetworkNodes sl nodes = sl ++ added
           ∧ (∀ n, n ∈ added → n ∈ nodes)
           ∧ (NoDup (ID <$> sl) → NoDup (ID <$> (sl ++ added))).
Proof.
  unfold AppendUniqueNetworkNodes. revert sl.
  induction nodes as [|n nodes IH]; intros sl; simpl.
  - exists []. rewrite app_nil_r. split; [done|]. split; [|done].
    intros n Hin. by apply elem_of_nil in Hin.
  - destruct (existsb _ sl) eqn:Hex.
    + destruct (IH sl) as (added & Heq & Hsub & Hnd).
      exists added. split; [done|]. split; [|done].
      intros m Hm. apply elem_of_cons. right. by apply Hsub.
    + destruct (IH (sl ++ [n])) as (added & Heq & Hsub & Hnd).
      exists (n :: added). rewrite Heq, <- app_assoc. simpl.
      split; [done|]. split.
      * intros m Hm. apply elem_of_cons in Hm as [->|Hm]; apply elem_of_cons; [by left|].
        right. by apply Hsub.
      * intros Hsl. rewrite (assoc_L (++) sl [n] added : sl ++ n :: added = (sl ++ [n]) ++ added).
        apply Hnd. rewrite fmap_app. simpl.
        apply NoDup_app. split; [done|]. split; [|apply NoDup_singleton].
        intros id Hid Hid'. apply list_elem_of_singleton in Hid'. subst id.
        apply existsb_ID in Hid. congruence.
Qed.

End ShortListFacts.

(* ------------------------------------------------------------------ *)
(** ** Properties of the runs of the engine *)
(* ------------------------------------------------------------------ *)

Section RunFacts.
Context {Sto World : Type} {Net : networking World} {Str : Store Sto} {Ops : hashTableOps}.
Implicit Types (st : state Sto World).

Local Abbreviation fuelFree := (fuelFree (Sto:=Sto) (World:=World)).
Local Abbreviation NoStore := (noStoreSent (Sto:=Sto) (World:=World)).
Local Arguments Nat.leb : simpl never.
Local Arguments Nat.eqb : simpl never.

Lemma fuelFree_ret {A} (a : A) : fuelFree (ret a : M (state Sto World) A).
Proof. done. Qed.

Lemma fuelFree_panic {A} : fuelFree (panic : M (state Sto World) A).
Proof. done. Qed.

Lemma fuelFree_bind {A B} (m : M (state Sto World) A) (f : A → M (state Sto World) B) :
  fuelFree m → (∀ a, fuelFree (f a)) → fuelFree (bind m f).
Proof.
  intros Hm Hf st. unfold bind. specialize (Hm st).
  destruct (m st) as [a st'| |]; [apply Hf|done..].
Qed.

Lemma fuelFree_send msg expect : fuelFree (send msg expect).
Proof. intros st. unfold send. by destruct (sendMessage _ _ _ _). Qed.

Lemma fuelFree_await ch : fuelFree (await ch).
Proof. intros st. unfold await. by destruct (recv _ _ _). Qed.

Lemma fuelFree_awaitBefore ch d : fuelFree (awaitBefore ch d).
Proof. intros st. unfold awaitBefore. by destruct (recvBefore _ _ _ _). Qed.

Lemma fuelFree_getHt : fuelFree getHt.
Proof. done. Qed.

Lemma fuelFree_setHt h : fuelFree (setHt h).
Proof. done. Qed.

Lemma fuelFree_addNode n : fuelFree (addNode n).
Proof. intros st. rewrite addNode_unfold. cbv zeta.
  repeat (first [done | case_match]).
Qed.

Lemma fuelFree_addNodes l : fuelFree (addNodes l).
Proof.
  induction l as [|n l IH]; simpl; [apply fuelFree_ret|].
  apply fuelFree_bind; [apply fuelFree_addNode|done].
Qed.

Lemma fuelFree_sendQueries qs : fuelFree (sendQueries qs).
Proof.
  induction qs as [|q qs IH]; simpl; [apply fuelFree_ret|].
  apply fuelFree_bind; [apply fuelFree_send|]. intros [[e|] id].
  - apply fuelFree_bind; [|done].
    destruct (String.eqb _ _); [|apply fuelFree_ret].
    destruct (msg_Receiver q); [|apply fuelFree_panic].
    apply fuelFree_bind; [apply fuelFree_getHt|]. intros h. apply fuelFree_setHt.
  - apply fuelFree_bind; [done|]. intros chans. apply fuelFree_ret.
Qed.

Lemma fuelFree_awaitAll chans : fuelFree (awaitAll chans).
Proof.
  induction chans as [|c chans IH]; simpl; [apply fuelFree_ret|].
  apply fuelFree_bind; [apply fuelFree_await|]. intros r.
  apply fuelFree_bind; [done|]. intros rs. apply fuelFree_ret.
Qed.

Lemma fuelFree_mergeResults t results sl : fuelFree (mergeResults t results sl).
Proof.
  revert sl. induction results as [|r results IH]; intros sl; simpl; [apply fuelFree_ret|].
  destruct (msg_Error r).
  { destruct (msg_Receiver r); [apply IH|apply fuelFree_panic]. }
  destruct t, (msg_Data r) as [| | | |closest|[v|] closest];
    try apply fuelFree_panic; try apply fuelFree_ret;
    (apply fuelFree_bind; [apply fuelFree_addNodes|intros _; apply IH]).
Qed.

Lemma fuelFree_storeAll target data i nodes : fuelFree (storeAll target data i nodes).
Proof.
  revert i. induction nodes as [|n nodes IH]; intros i; simpl; [apply fuelFree_ret|].
  destruct (k <=? i)%nat; [apply fuelFree_ret|].
  apply fuelFree_bind; [apply fuelFree_getHt|]. intros h.
  apply fuelFree_bind; [apply fuelFree_send|]. intros _. apply IH.
Qed.

Lemma fuelFree_finish t target data sl : fuelFree (finish t target data sl).
Proof.
  destruct t; simpl; try apply fuelFree_ret.
  apply fuelFree_bind; [apply fuelFree_storeAll|]. intros _. apply fuelFree_ret.
Qed.

Lemma fuelFree_round t target sl contacted : fuelFree (round t target sl contacted).
Proof.
  unfold round. apply fuelFree_bind; [apply fuelFree_getHt|]. intros h.
  destruct (selectQueries _ _ _ _ _ _) as [qs c].
  apply fuelFree_bind; [apply fuelFree_sendQueries|]. intros chans.
  apply fuelFree_bind; [apply fuelFree_awaitAll|]. intros results.
  apply fuelFree_bind; [apply fuelFree_mergeResults|]. intros [v|sl']; apply fuelFree_ret.
Qed.

(** *** Composition of state relations *)

Lemma preserves_ret {A} (I : relation (state Sto World)) (a : A) :
  Reflexive I → preserves I (ret a).
Proof. intros Hrefl st a' st' [= _ <-]. apply Hrefl. Qed.

Lemma preserves_panic {A} (I : relation (state Sto World)) :
  preserves I (panic : M (state Sto World) A).
Proof. by intros st a' st'. Qed.

Lemma preserves_bind {A B} (I : relation (state Sto World))
    (m : M (state Sto World) A) (f : A → M (state Sto World) B) :
  Transitive I → preserves I m → (∀ a, preserves I (f a)) → preserves I (bind m f).
Proof.
  intros Htrans Hm Hf st b st'. unfold bind.
  destruct (m st) as [a st1| |] eqn:Hst; [|done..].
  intros Hfa. etrans; [by eapply Hm|by eapply Hf].
Qed.

(** *** No QueryStore message before the end of the lookup *)

#[local] Instance noStoreSent_refl : Reflexive (noStoreSent (Sto:=Sto) (World:=World)).
Proof. intros st. exists []. by rewrite app_nil_r. Qed.

#[local] Instance noStoreSent_trans : Transitive (noStoreSent (Sto:=Sto) (World:=World)).
Proof.
  intros st1 st2 st3 (l1 & H1 & Hl1) (l2 & H2 & Hl2). exists (l1 ++ l2).
  rewrite H2, H1, <- app_assoc. split; [done|].
  unfold storeMessages in *. by rewrite filter_app, Hl1, Hl2.
Qed.










Lemma makeQuery_type t self n target :
  msg_Type (makeQuery t self n target) = queryTypeOf t
  ∧ msg_Receiver (makeQuery t self n target) = Some n.
Proof. by destruct t. Qed.

(** The queries of a round go to nodes of the shortlist and have the
    type of the lookup. *)
Lemma selectQueries_queries t self target i nodes contacted qs c :
  selectQueries t self target i nodes contacted = (qs, c) →
  Forall (λ q, msg_Type q = queryTypeOf t ∧ ∃ n, n ∈ nodes ∧ msg_Receiver q = Some n) qs.
Proof.
  revert i contacted qs c.
  induction nodes as [|n nodes IH]; intros i contacted qs c; simpl.
  - by intros [= <- _].
  - destruct (alpha <=? i)%nat; [by intros [= <- _]|].
    assert (∀ i contacted qs c,
              selectQueries t self target i nodes contacted = (qs, c) →
              Forall (λ q, msg_Type q = queryTypeOf t
                           ∧ ∃ m, m ∈ n :: nodes ∧ msg_Receiver q = Some m) qs) as IH'.
    { intros i' c' qs' c'' Hsel. eapply Forall_impl; [by eapply IH|].
      intros q [Hty (m & Hm & Hr)]. split; [done|]. exists m.
      split; [|done]. apply elem_of_cons. by right. }
    destruct (bool_decide _); [apply IH'|].
    destruct (selectQueries _ _ _ _ _ _) as [qs' c'] eqn:Hsel.
    intros [= <- <-]. constructor; [|by eapply IH'].
    destruct (makeQuery_type t self n target) as [Hty Hr]. split; [done|].
    exists n. split; [|done]. apply elem_of_cons. by left.
Qed.





(** *** The shortlist a round leaves *)

Lemma round_inv t target sl contacted st m c' st' :
  round t target sl contacted st = Ok (m, c') st' →
  ∃ qs chans results st1 st2 m0,
    selectQueries t (Self (ht st)) target 0 sl contacted = (qs, c')
    ∧ sendQueries qs st = Ok chans st1
    ∧ awaitAll chans st1 = Ok results st2
    ∧ mergeResults t results sl st2 = Ok m0 st'
    ∧ m = match m0 with
          | Found v => Found v
          | Merged sl' => Merged (shortList.Sort target sl')
          end.
Proof.
  unfold round, bind, getHt.
  destruct (selectQueries _ _ _ _ _ _) as [qs c] eqn:Hsel.
  destruct (sendQueries qs st) as [chans st1| |] eqn:Hsend; [|done..].
  destruct (awaitAll chans st1) as [results st2| |] eqn:Hawait; [|done..].
  destruct (mergeResults t results sl st2) as [m0 st3| |] eqn:Hmerge; [|done..].
  intros Hret. exists qs, chans, results, st1, st2, m0.
  destruct m0; injection Hret as <- <- <-; done.
Qed.

Lemma awaitAll_results chans st results st' :
  awaitAll chans st = Ok results st' →
  Forall2 (λ c r, ∃ w, r = (recv c.1 c.2 w).1) chans results.
Proof.
  revert st results st'. induction chans as [|c chans IH]; intros st results st'; simpl.
  - intros [= <- _]. constructor.
  - unfold bind at 1. unfold await.
    destruct (recv c.1 c.2 (world st)) as [r w] eqn:Hrecv.
    unfold bind, ret. destruct (awaitAll chans _) as [rs st2| |] eqn:Hrest; [|done..].
    intros [= <- _]. constructor; [|eapply IH, Hrest].
    exists (world st). by rewrite Hrecv.
Qed.

Lemma mergeResults_shortlist t results sl st sl' st' :
  mergeResults t results sl st = Ok (Merged sl') st' →
  (∀ n, n ∈ sl' → n ∈ sl ∨ ∃ r, r ∈ results ∧ n ∈ closestOf (msg_Data r))
  ∧ (NoDup (ID <$> sl) → NoDup (ID <$> sl'))
  ∧ (Forall (λ r, msg_Error r = None) results → sl ≠ [] → sl' ≠ []).
Proof.
  revert sl st. induction results as [|r results IH]; intros sl st; simpl.
  { intros [= <- _]. split; [by left|]. done. }
  assert (∀ sl0 st0 closest,
            mergeResults t results
              (shortList.AppendUniqueNetworkNodes sl0 closest) st0 = Ok (Merged sl') st' →
            closestOf (msg_Data r) = closest →
            (∀ n, n ∈ sl' → n ∈ sl0 ∨ ∃ r', r' ∈ r :: results ∧ n ∈ closestOf (msg_Data r'))
            ∧ (NoDup (ID <$> sl0) → NoDup (ID <$> sl'))
            ∧ (Forall (λ r, msg_Error r = None) results → sl0 ≠ [] → sl' ≠ [])) as Happ.
  { intros sl0 st0 closest Hm Hcl.
    destruct (AppendUnique_spec sl0 closest) as (added & Heq & Hsub & Hnd).
    apply IH in Hm as (Hin & Hnd' & Hne). rewrite Heq in *. split; [|split].
    - intros n Hn. destruct (Hin n Hn) as [Hn'|(r' & Hr' & Hn')].
      + apply elem_of_app in Hn' as [?|Hn']; [by left|].
        right. exists r. split; [apply elem_of_cons; by left|]. rewrite Hcl. by apply Hsub.
      + right. exists r'. split; [apply elem_of_cons; by right|done].
    - intros Hsl. by apply Hnd', Hnd.
    - intros Hok Hsl. apply Hne; [done|]. by destruct sl0. }
  destruct (msg_Error r) as [e|] eqn:Herr.
  { destruct (msg_Receiver r) as [n|]; [|done].
    intros Hm. apply IH in Hm as (Hin & Hnd & Hne). split; [|split].
    - intros n' Hn'. destruct (Hin n' Hn') as [Hrem|(r' & Hr' & Hcl)].
      + left. by eapply RemoveNode_elem.
      + right. exists r'. split; [apply elem_of_cons; by right|done].
    - intros Hsl. by apply Hnd, RemoveNode_NoDup.
    - intros Hok. apply Forall_cons in Hok as [Hr _]. congruence. }
  assert (∀ P : Prop, (Forall (λ r, msg_Error r = None) results → P) →
            Forall (λ r, msg_Error r = None) (r :: results) → P) as Htail.
  { intros P HP Hall. apply HP. by apply Forall_cons in Hall as [_ ?]. }
  destruct t, (msg_Data r) as [| | | |closest|[v|] closest] eqn:Hdata; try done.
  all: unfold bind; destruct (addNodes closest st) as [[] st1| |]; try done.
  all: intros Hm; eapply Happ in Hm as (Hin & Hnd & Hne); [|done].
  all: split; [exact Hin|split; [exact Hnd|]]; exact (Htail _ Hne).
Qed.

(** A round leaves a shortlist sorted by distance, whose ids are
    distinct when they were, and whose nodes come from the shortlist
    before or from a response. *)
Lemma round_shortlist t target sl contacted st sl' c' st' :
  round t target sl contacted st = Ok (Merged sl', c') st' →
  Sorted (closer target) sl'
  ∧ (NoDup (ID <$> sl) → NoDup (ID <$> sl'))
  ∧ (∀ n, n ∈ sl' →
       n ∈ sl ∨ ∃ q id w, n ∈ closestOf (msg_Data (recv q id w).1)).
Proof.
  intros Hround.
  apply round_inv in Hround
    as (qs & chans & results & st1 & st2 & m0 & Hsel & Hsend & Hawait & Hmerge & Hm).
  destruct m0 as [v|sl0]; [done|]. injection Hm as ->.
  apply mergeResults_shortlist in Hmerge as (Hin & Hnd & _).
  split; [apply Sort_sorted|]. split.
  - intros Hsl. by apply Sort_NoDup, Hnd.
  - intros n Hn. apply Sort_elem in Hn.
    destruct (Hin n Hn) as [?|(r & Hr & Hcl)]; [by left|]. right.
    apply awaitAll_results in Hawait.
    apply list_elem_of_lookup in Hr as [i Hi].
    destruct (Forall2_lookup_r _ _ _ _ _ Hawait Hi) as (c & _ & w & ->).
    by exists c.1, c.2, w.
Qed.

(** *** The Store fan-out *)

Lemma idAfter_S i c : idAfter (S i) c = idAfter i (int64_incr c).
Proof. unfold idAfter. by rewrite Nat.iter_succ_r. Qed.

Lemma storeCalls_cons self target data c n nodes :
  storeCalls self target data c (n :: nodes)
  = mkSent (storeQuery self n target data) c false
    :: storeCalls self target data (int64_incr c) nodes.
Proof.
  unfold storeCalls. rewrite imap_cons. f_equal.
  apply imap_ext. intros i m _. simpl. by rewrite <- idAfter_S.
Qed.


(** The loop of lines 271-287 from index [i]: one call of
    [sendMessage] for each of the first [k - i] nodes left. *)
Lemma storeAll_spec target data i nodes st :
  ∃ w, storeAll target data i nodes st
       = Ok tt (afterStoreCalls target data (take (k - i) nodes) w st).
Proof.
  revert i st. induction nodes as [|n nodes IH]; intros i st; simpl.
  - exists (world st). rewrite take_nil. unfold afterStoreCalls, storeCalls. simpl.
    rewrite app_nil_r. by destruct st.
  - destruct (Nat.leb_spec k i) as [Hle|Hlt].
    + exists (world st). replace (k - i)%nat with 0%nat by lia. simpl.
      unfold afterStoreCalls, storeCalls. simpl. rewrite app_nil_r. by destruct st.
    + unfold bind, getHt, send.
      destruct (sendMessage _ _ _ _) as [err w1].
      destruct (IH (S i) (mkState (ht st) (store st) (int64_incr (msgCounter st)) w1
                   (sent st ++ [mkSent (storeQuery (Self (ht st)) n target data)
                                       (msgCounter st) false])))
        as [w Hw].
      exists w. rewrite Hw. replace (k - i)%nat with (S (k - S i)) by lia.
      unfold afterStoreCalls. simpl. rewrite storeCalls_cons, <- app_assoc. simpl.
      do 2 f_equal. symmetry. apply idAfter_S.
Qed.

Lemma mergeResults_found t results sl st v st' :
  mergeResults t results sl st = Ok (Found v) st' → t = iterateFindValue.
Proof.
  revert sl st. induction results as [|r results IH]; intros sl st; simpl; [done|].
  destruct (msg_Error r).
  { destruct (msg_Receiver r); [apply IH|done]. }
  destruct t, (msg_Data r) as [| | | |closest|[v'|] closest]; try done.
  all: unfold bind; destruct (addNodes closest st); try done; apply IH.
Qed.







End RunFacts.

Section RunExamples.
Import Scenario.
#[local] Existing Instance tableOps.
#[local] Existing Instance dataStore.


End RunExamples.


(* ------------------------------------------------------------------ *)
(** ** Termination of [iterate] *)
(* ------------------------------------------------------------------ *)

Section Termination.
Context {Sto World : Type} {Net : networking World} {Str : Store Sto} {Ops : hashTableOps}.
Implicit Types (st : state Sto World) (contacted : gset string).

Local Arguments Nat.leb : simpl never.
Local Arguments Nat.eqb : simpl never.

(** The contacted set only grows in a selection, by keys of the nodes
    offered; it grows exactly when a query is made. *)
Lemma selectQueries_contacted t self target i nodes contacted qs c :
  selectQueries t self target i nodes contacted = (qs, c) →
  contacted ⊆ c
  ∧ (qs = [] → c = contacted)
  ∧ (qs ≠ [] → ∃ n, n ∈ nodes ∧ contactKey n ∈ c ∧ contactKey n ∉ contacted).
Proof.
  revert i contacted qs c.
  induction nodes as [|n nodes IH]; intros i contacted qs c; simpl.
  { intros [= <- <-]. by repeat split. }
  destruct (alpha <=? i)%nat; [intros [= <- <-]; by repeat split|].
  destruct (bool_decide _) eqn:Hin.
  - intros Hsel. apply IH in Hsel as (Hsub & Hnil & Hcons).
    split; [done|]. split; [done|].
    intros Hne. destruct (Hcons Hne) as (m & Hm & Hc).
    exists m. split; [|done]. apply elem_of_cons. by right.
  - apply bool_decide_eq_false in Hin.
    destruct (selectQueries _ _ _ _ _ _) as [qs' c'] eqn:Hsel.
    intros [= <- <-]. apply IH in Hsel as (Hsub & _ & _).
    split; [|split; [done|]].
    { intros x Hx. apply Hsub, elem_of_union. by right. }
    intros _. exists n. split; [apply elem_of_cons; by left|].
    split; [|done]. apply Hsub, elem_of_union. left. by apply elem_of_singleton.
Qed.

(** The head of the shortlist is queried when it was not contacted. *)
Lemma selectQueries_head t self target n nodes contacted qs c :
  contactKey n ∉ contacted →
  selectQueries t self target 0 (n :: nodes) contacted = (qs, c) →
  qs ≠ [].
Proof.
  intros Hn. simpl. change (alpha <=? 0)%nat with false. cbv iota.
  unfold contactKey in Hn. rewrite bool_decide_eq_false_2 by done.
  destruct (selectQueries _ _ _ _ _ _). by intros [= <- _].
Qed.

(** A round either contacts a node of the shortlist that was not
    contacted before, or sends nothing and returns the shortlist sorted. *)
Lemma round_progress t target sl contacted st m c' st' :
  round t target sl contacted st = Ok (m, c') st' →
  contacted ⊆ c'
  ∧ ((∃ n, n ∈ sl ∧ contactKey n ∈ c' ∧ contactKey n ∉ contacted)
     ∨ (c' = contacted ∧ m = Merged (shortList.Sort target sl)
        ∧ ∀ n nodes, sl = n :: nodes → contactKey n ∈ contacted)).
Proof.
  intros Hround.
  apply round_inv in Hround
    as (qs & chans & results & st1 & st2 & m0 & Hsel & Hsend & Hawait & Hmerge & Hm).
  destruct (selectQueries_contacted _ _ _ _ _ _ _ _ Hsel) as (Hsub & Hnil & Hcons).
  split; [done|].
  destruct qs as [|q qs].
  - right. split; [by apply Hnil|].
    simpl in Hsend. injection Hsend as <- <-.
    simpl in Hawait. injection Hawait as <- <-.
    simpl in Hmerge. injection Hmerge as <- <-.
    split; [done|].
    intros n nodes ->. destruct (decide (contactKey n ∈ contacted)) as [|Hn]; [done|].
    by apply (selectQueries_head _ _ _ _ _ _ _ _ Hn) in Hsel.
  - left. by apply Hcons.
Qed.

Section FiniteNetwork.
Variable U : gset string.
Hypothesis Hfinite : finiteNetwork (Net := Net) U.

(** The loop ends within as many passes as there are identifiers left to
    contact, plus one. *)
Lemma iterateLoop_fuel fuel t target data sl contacted closestNode st :
  (∀ n, n ∈ sl → contactKey n ∈ U) →
  head sl = Some closestNode →
  contactKey closestNode ∉ contacted ∨ shortList.Sort target sl = sl →
  (size (U ∖ contacted) < fuel)%nat →
  iterateLoop fuel t target data sl contacted closestNode st ≠ OutOfFuel.
Proof.
  revert sl contacted closestNode st.
  induction fuel as [|fuel IH]; intros sl contacted closestNode st HU Hhead Hinv Hsize;
    [lia|].
  simpl. unfold bind at 1.
  destruct (round t target sl contacted st) as [[m c'] st1| |] eqn:Hround;
    [|done|by apply fuelFree_round in Hround].
  destruct m as [v|sl']; [done|].
  destruct sl' as [|first rest] eqn:Hsl'; [done|].
  destruct (bytesEqual (ID first) (ID closestNode)) eqn:Hsame; [apply fuelFree_finish|].
  destruct (round_shortlist _ _ _ _ _ _ _ _ Hround) as (Hsorted & _ & Hfrom).
  destruct (round_progress _ _ _ _ _ _ _ _ Hround) as (Hsub & Hprogress).
  apply IH.
  - intros n Hn. destruct (Hfrom n Hn) as [?|(q & id & w & Hcl)]; [by apply HU|].
    by eapply Hfinite.
  - done.
  - right. by apply Sort_id.
  - destruct Hprogress as [(n & Hn & Hc' & Hc)|(-> & Hm & Hcontacted)].
    + assert (U ∖ c' ⊂ U ∖ contacted) as Hlt.
      { apply HU in Hn. split.
        - intros x [HxU Hxc]%elem_of_difference. apply elem_of_difference.
          split; [done|]. intros Hx. by apply Hxc, Hsub.
        - intros Hrev. assert (contactKey n ∈ U ∖ c') as Hin.
          { apply Hrev, elem_of_difference. by split. }
          apply elem_of_difference in Hin as [_ Hnot]. by apply Hnot. }
      apply subset_size in Hlt. lia.
    + exfalso. injection Hm as Hm.
      destruct sl as [|n nodes]; [done|]. injection Hhead as ->.
      destruct Hinv as [Hnot|Hsortedsl]; [by apply Hnot, (Hcontacted _ nodes)|].
      rewrite Hsortedsl in Hm. injection Hm as -> _.
      unfold bytesEqual in Hsame. by rewrite bool_decide_eq_true_2 in Hsame.
Qed.

(** *** Responding peers: the lookup returns *)

#[local] Instance sameShape_refl : Reflexive (sameShape (Sto:=Sto) (World:=World)).
Proof. by intros st. Qed.

#[local] Instance sameShape_trans : Transitive (sameShape (Sto:=Sto) (World:=World)).
Proof. intros st1 st2 st3 [H1 H1'] [H2 H2']. split; congruence. Qed.

Lemma bucketsInRange_sameShape st st' :
  sameShape st st' → bucketsInRange U st → bucketsInRange U st'.
Proof. intros [Hself Hlen] Hin n Hn. rewrite Hself, Hlen. by apply Hin. Qed.

Lemma addNode_returns n st :
  contactKey n ∈ U → bucketsInRange U st →
  ∃ st', addNode n st = Ok tt st' ∧ sameShape st st'.
Proof.
  intros Hn Hin. specialize (Hin n Hn).
  assert (∃ st', addNode n st = Ok tt st') as [st' Hst'].
  { rewrite addNode_unfold. cbv zeta.
    apply lookup_lt_is_Some_2 in Hin as [bucket ->].
    destruct (inBucket _ _); [by eexists|].
    destruct (Nat.eqb_spec (length bucket) k) as [Hk|Hk]; [|by eexists].
    destruct bucket as [|first rest]; [done|].
    destruct (sendMessage _ _ _ _) as [[e|] w1]; [by eexists|].
    destruct (recvBefore _ _ _ _) as [[|] w2]; by eexists. }
  exists st'. split; [done|].
  apply addNode_frame in Hst' as (Hlen & Hself & _). by split.
Qed.

Lemma addNodes_returns l st :
  (∀ n, n ∈ l → contactKey n ∈ U) → bucketsInRange U st →
  ∃ st', addNodes l st = Ok tt st' ∧ sameShape st st'.
Proof.
  revert st. induction l as [|n l IH]; intros st Hl Hin; simpl.
  { by exists st. }
  destruct (addNode_returns n st) as (st1 & Hadd & Hshape); [|done|].
  { apply Hl, elem_of_cons. by left. }
  destruct (IH st1) as (st2 & Hrest & Hshape2).
  { intros m Hm. apply Hl, elem_of_cons. by right. }
  { by eapply bucketsInRange_sameShape. }
  exists st2. unfold bind, newNode. rewrite Hadd. split; [done|]. by etrans.
Qed.

Lemma sendQueries_returns qs st :
  (∀ q id expect w, (sendMessage q id expect w).1 = None) →
  ∃ chans st', sendQueries qs st = Ok chans st' ∧ ht st' = ht st ∧ chans.*1 = qs.
Proof.
  intros Hsend. revert st. induction qs as [|q qs IH]; intros st; simpl.
  { by exists [], st. }
  unfold bind at 1. unfold send.
  specialize (Hsend q (msgCounter st) true (world st)).
  destruct (sendMessage _ _ _ _) as [err w]. simpl in Hsend. subst err.
  destruct (IH (mkState (ht st) (store st) (int64_incr (msgCounter st)) w
                  (sent st ++ [mkSent q (msgCounter st) true])))
    as (chans & st' & Hrest & Hht & Hqs).
  exists ((q, msgCounter st) :: chans), st'. unfold bind, ret. rewrite Hrest.
  split; [done|]. split; [done|]. by rewrite fmap_cons, Hqs.
Qed.

Lemma awaitAll_returns chans st :
  ∃ results st', awaitAll chans st = Ok results st' ∧ ht st' = ht st.
Proof.
  revert st. induction chans as [|c chans IH]; intros st; simpl.
  { by exists [], st. }
  unfold bind at 1. unfold await. destruct (recv _ _ _) as [r w].
  destruct (IH (mkState (ht st) (store st) (msgCounter st) w (sent st)))
    as (results & st' & Hrest & Hht).
  exists (r :: results), st'. unfold bind, ret. by rewrite Hrest.
Qed.

Lemma mergeResults_returns t results sl st :
  Forall (λ r, ∃ q, msg_Type q = queryTypeOf t ∧ respondsTo q r
                    ∧ ∀ n, n ∈ closestOf (msg_Data r) → contactKey n ∈ U) results →
  bucketsInRange U st →
  ∃ m st', mergeResults t results sl st = Ok m st' ∧ sameShape st st'.
Proof.
  intros Hall. revert sl st.
  induction Hall as [|r results (q & Hq & [Herr Hdata] & HU) _ IH]; intros sl st Hin; simpl.
  { by exists (Merged sl), st. }
  rewrite Herr. rewrite Hq in Hdata.
  assert (∀ closest, closestOf (msg_Data r) = closest →
            ∃ m st', (addNodes closest;;
                      mergeResults t results
                        (shortList.AppendUniqueNetworkNodes sl closest)) st = Ok m st'
                     ∧ sameShape st st') as Hgo.
  { intros closest Hcl. rewrite Hcl in HU.
    destruct (addNodes_returns closest st HU Hin) as (st1 & Hadd & Hshape).
    destruct (IH (shortList.AppendUniqueNetworkNodes sl closest) st1)
      as (m & st2 & Hrest & Hshape2); [by eapply bucketsInRange_sameShape|].
    exists m, st2. unfold bind. rewrite Hadd. split; [done|]. by etrans. }
  destruct t; simpl in Hdata.
  - destruct Hdata as [closest Hd]. rewrite Hd in *. by apply Hgo.
  - destruct Hdata as [closest Hd]. rewrite Hd in *. by apply Hgo.
  - destruct Hdata as (value & closest & Hd). rewrite Hd in *.
    destruct value as [v|]; [by exists (Found v), st|]. by apply Hgo.
Qed.

Lemma round_returns t target sl contacted st :
  respondingPeers (Net := Net) → bucketsInRange U st →
  ∃ m c' st', round t target sl contacted st = Ok (m, c') st'
              ∧ bucketsInRange U st'
              ∧ (∀ sl', m = Merged sl' → sl ≠ [] → sl' ≠ []).
Proof.
  intros [Hsend Hrecv] Hin. unfold round, bind at 1, getHt.
  destruct (selectQueries _ _ _ _ _ _) as [qs c'] eqn:Hsel.
  apply selectQueries_queries in Hsel.
  destruct (sendQueries_returns qs st Hsend) as (chans & st1 & Hsq & Hht1 & Hqs).
  destruct (awaitAll_returns chans st1) as (results & st2 & Haw & Hht2).
  assert (Forall (λ r, ∃ q, msg_Type q = queryTypeOf t ∧ respondsTo q r
                            ∧ ∀ n, n ∈ closestOf (msg_Data r) → contactKey n ∈ U)
            results) as Hres.
  { apply awaitAll_results in Haw. apply Forall_forall. intros r Hr.
    apply list_elem_of_lookup in Hr as [i Hi].
    destruct (Forall2_lookup_r _ _ _ _ _ Haw Hi) as (c & Hc & w & ->).
    exists c.1. split; [|split; [apply Hrecv|]].
    - assert (c.1 ∈ qs) as Hcq.
      { rewrite <- Hqs. apply list_elem_of_fmap. exists c.
        split; [done|]. by eapply list_elem_of_lookup_2. }
      eapply Forall_forall in Hsel; [|exact Hcq]. by destruct Hsel.
    - intros n Hn. by eapply Hfinite. }
  assert (bucketsInRange U st2) as Hin2.
  { intros n Hn. rewrite Hht2, Hht1. by apply Hin. }
  destruct (mergeResults_returns t results sl st2 Hres Hin2) as (m & st3 & Hm & Hshape).
  unfold bind. rewrite Hsq, Haw, Hm.
  assert (bucketsInRange U st3) as Hin3 by by eapply bucketsInRange_sameShape.
  destruct m as [v|sl0].
  - exists (Found v), c', st3. by repeat split.
  - exists (Merged (shortList.Sort target sl0)), c', st3. repeat split; [done|].
    intros sl' [= <-] Hsl Hnil. apply Sort_nil in Hnil. subst sl0.
    apply mergeResults_shortlist in Hm as (_ & _ & Hne).
    apply Hne; [|done|done].
    eapply Forall_impl; [exact Hres|]. by intros r (q & _ & [Herr _] & _).
Qed.

Lemma finish_returns t target data sl st :
  ∃ r st', finish t target data sl st = Ok r st'
           ∧ (t = iterateStore → r = (None, [], None)).
Proof.
  destruct t; simpl.
  - destruct (storeAll_spec target data 0 sl st) as [w Hw].
    unfold bind. rewrite Hw. by eexists _, _.
  - eexists _, _. split; [done|]. done.
  - eexists _, _. split; [done|]. done.
Qed.

(** With responding peers the loop does not panic, and a Store returns
    [(nil, nil, nil)]. *)
Lemma iterateLoop_returns fuel t target data sl contacted closestNode st :
  respondingPeers (Net := Net) → bucketsInRange U st → sl ≠ [] →
  match iterateLoop fuel t target data sl contacted closestNode st with
  | Ok r _ => t = iterateStore → r = (None, [], None)
  | Panic => False
  | OutOfFuel => True
  end.
Proof.
  intros Hresp. revert sl contacted closestNode st.
  induction fuel as [|fuel IH]; intros sl contacted closestNode st Hin Hsl; simpl; [done|].
  destruct (round_returns t target sl contacted st Hresp Hin)
    as (m & c' & st1 & Hround & Hin1 & Hne).
  unfold bind at 1. rewrite Hround.
  destruct m as [v|sl'].
  - intros ->. apply round_inv in Hround as (? & ? & ? & ? & ? & m0 & _ & _ & _ & Hm & Hv).
    destruct m0 as [v'|]; [|done]. by apply mergeResults_found in Hm.
  - destruct sl' as [|first rest] eqn:Hsl'; [by eapply Hne|].
    destruct (bytesEqual _ _).
    + destruct (finish_returns t target data (first :: rest) st1) as (r & st2 & -> & Hr).
      done.
    + by apply IH.
Qed.

Lemma iterate_fuel fuel t target data st :
  (∀ n, n ∈ getClosestContacts (ht st) alpha target [] → contactKey n ∈ U) →
  (size U < fuel)%nat →
  iterate fuel t target data st ≠ OutOfFuel.
Proof.
  intros HU Hsize. unfold iterate, bind, getHt.
  destruct (getClosestContacts _ _ _ _) as [|closestNode sl] eqn:Hsl; [done|].
  apply iterateLoop_fuel; [done|done|left; apply not_elem_of_empty|].
  by rewrite difference_empty_L.
Qed.

End FiniteNetwork.

(** C1. For every kind of lookup and every finite network (the contacts
    named in the responses and in the initial shortlist have their ids in
    a finite set U), [iterate] ends within |U| + 1 passes of its loop. When
    moreover the peers respond (no send fails; every response carries no
    error and the payload of its query) and every node of the network has
    a bucket, [iterate] returns, and a Store returns (nil, nil, nil)
    whatever the length of the shortlist when the head stops changing. *)
Theorem iterate_terminates (U : gset string) fuel t target data st :
  finiteNetwork (Net := Net) U →
  (∀ n, n ∈ getClosestContacts (ht st) alpha target [] → contactKey n ∈ U) →
  (size U < fuel)%nat →
  iterate fuel t target data st ≠ OutOfFuel
  ∧ (respondingPeers (Net := Net) → bucketsInRange U st →
     ∃ r st', iterate fuel t target data st = Ok r st'
              ∧ (t = iterateStore → r = (None, [], None))).
Proof.
  intros Hfinite HU Hsize.
  pose proof (iterate_fuel U Hfinite fuel t target data st HU Hsize) as Hfuel.
  split; [done|]. intros Hresp Hin.
  unfold iterate, bind, getHt in *.
  destruct (getClosestContacts (ht st) alpha target []) as [|closestNode sl]; [by eexists _, _|].
  pose proof (iterateLoop_returns U Hfinite fuel t target data (closestNode :: sl) ∅
                closestNode st Hresp Hin) as Hret.
  destruct (iterateLoop _ _ _ _ _ _ _ _) as [r st'| |]; [|by destruct Hret|done].
  exists r, st'. split; [done|]. by apply Hret.
Qed.

End Termination.

Section TerminationExamples.
Import Scenario.
#[local] Existing Instance tableOps.
#[local] Existing Instance dataStore.

Lemma answer_knows peers q id n :
  n ∈ closestOf (msg_Data (answer peers q id)) → ∃ p, p ∈ peers ∧ n ∈ peer_knows p.
Proof.
  unfold answer.
  assert (n ∈ default [] (peer_knows <$> findPeer peers (msg_Receiver q)) →
          ∃ p, p ∈ peers ∧ n ∈ peer_knows p) as Hknows.
  { unfold findPeer. destruct (msg_Receiver q) as [a|]; simpl; [|by intros ?%elem_of_nil].
    destruct (find _ peers) as [p|] eqn:Hfind; simpl; [|by intros ?%elem_of_nil].
    apply find_some in Hfind as [Hp _]. exists p. split; [by apply list_elem_of_In|done]. }
  destruct (msg_Type q); simpl; try done. by intros ?%elem_of_nil.
Qed.

Lemma fixedNetwork_finite peers (U : gset string) :
  (∀ p n, p ∈ peers → n ∈ peer_knows p → contactKey n ∈ U) →
  finiteNetwork (Net := fixedNetwork peers) U.
Proof.
  intros Hknown q id w n Hn. simpl in Hn.
  apply answer_knows in Hn as (p & Hp & Hn). by eapply Hknown.
Qed.

Lemma fixedNetwork_responding peers : respondingPeers (Net := fixedNetwork peers).
Proof.
  split; [done|]. intros q id w. simpl. unfold respondsTo, answer.
  destruct (msg_Type q); simpl; split; eauto.
Qed.

Lemma town_ids n :
  contactKey n ∈ townIds → ID n ∈ [idOf "001"; idOf "002"; idOf "003"; idOf "005"].
Proof.
  unfold townIds, contactKey. rewrite elem_of_list_to_set. intros Hn.
  rewrite <- (list_byte_of_string_of_list_byte (ID n)).
  set (s := string_of_list_byte (ID n)) in *. clearbody s.
  vm_compute in Hn. repeat (apply elem_of_cons in Hn as [->|Hn]).
  5: by apply elem_of_nil in Hn.
  all: apply list_elem_of_In; vm_compute; tauto.
Qed.

Lemma iterate_terminates_witness :
  ∃ st', iterate (Net := fixedNetwork town) 5 iterateStore (idOf "001")
           (list_byte_of_string "v") newInTown = Ok (None, [], None) st'.
Proof.
  destruct (iterate_terminates (Net := fixedNetwork town) townIds 5 iterateStore
              (idOf "001") (list_byte_of_string "v") newInTown) as [_ Hreturns].
  - apply fixedNetwork_finite. intros p n Hp Hn.
    repeat (apply elem_of_cons in Hp as [->|Hp]); [..|by apply elem_of_nil in Hp];
      simpl in Hn;
      repeat (apply elem_of_cons in Hn as [->|Hn]); try (by apply elem_of_nil in Hn);
      unfold townIds; apply elem_of_list_to_set, list_elem_of_In; vm_compute; tauto.
  - intros n Hn. vm_compute in Hn.
    apply list_elem_of_singleton in Hn as ->.
    unfold townIds. apply elem_of_list_to_set, list_elem_of_In. vm_compute. tauto.
  - vm_compute. lia.
  - destruct Hreturns as (r & st' & Hrun & Hr).
    + apply fixedNetwork_responding.
    + intros n Hn. apply town_ids in Hn.
      change (getBucketIndexFromDifferingBit (ID (Self (ht newInTown))) (ID n))
        with (bucketIndex (idOf "000") (ID n)).
      change (length (RoutingTable (ht newInTown))) with 160%nat.
      repeat (apply elem_of_cons in Hn as [->|Hn]); [..|by apply elem_of_nil in Hn];
        vm_compute; lia.
    + exists st'. rewrite Hrun. f_equal. by apply Hr.
Defined.

End TerminationExamples.


(* ------------------------------------------------------------------ *)
(** ** The codec is faithful *)
(* ------------------------------------------------------------------ *)

Section CodecFacts.
Import Codec.
Local Open Scope N_scope.

Lemma length_beBytes n x : length (beBytes n x) = n.
Proof.
  revert x. induction n as [|n IH]; intros x; simpl; [done|].
  rewrite length_app, IH. simpl. lia.
Qed.

Lemma to_N_byteOf x : Byte.to_N (byteOf x) = x mod 256.
Proof.
  unfold byteOf. destruct (Byte.of_N (x mod 256)) as [b|] eqn:Hb; simpl.
  - by apply Byte.to_of_N.
  - apply Byte.of_N_None_iff in Hb.
    pose proof (N.mod_upper_bound x 256). lia.
Qed.

Lemma bytesToN_snoc l b : bytesToN (l ++ [b]) = bytesToN l * 256 + Byte.to_N b.
Proof. unfold bytesToN. by rewrite fold_left_app. Qed.

Lemma bytesToN_beBytes n x : x < 256 ^ N.of_nat n → bytesToN (beBytes n x) = x.
Proof.
  revert x. induction n as [|n IH]; intros x Hx.
  - simpl in *. unfold bytesToN. simpl. lia.
  - simpl. rewrite bytesToN_snoc, to_N_byteOf, IH.
    + pose proof (N.div_mod x 256). lia.
    + rewrite Nat2N.inj_succ, N.pow_succ_r' in Hx.
      apply N.Div0.div_lt_upper_bound. lia.
Qed.

Lemma decBE_beBytes n x rest :
  x < 256 ^ N.of_nat n → decBE n (beBytes n x ++ rest) = Some (x, rest).
Proof.
  intros Hx. unfold decBE.
  destruct (Nat.ltb_spec (length (beBytes n x ++ rest)) n) as [Hlt|_].
  { rewrite length_app, length_beBytes in Hlt. lia. }
  rewrite take_app_length', drop_app_length' by (symmetry; apply length_beBytes).
  by rewrite bytesToN_beBytes.
Qed.

Lemma roundTrips_Len : roundTrips encLen decLen fitsLen.
Proof.
  intros n rest Hn. unfold decLen, encLen. rewrite decBE_beBytes by done.
  simpl. by rewrite Nat2N.id.
Qed.

Lemma roundTrips_Bytes : roundTrips encBytes decBytes wfBytes.
Proof.
  intros b rest Hb. unfold decBytes, encBytes. rewrite <- app_assoc.
  rewrite roundTrips_Len by done. simpl.
  destruct (Nat.ltb_spec (length (b ++ rest)) (length b)) as [Hlt|_].
  { rewrite length_app in Hlt. lia. }
  by rewrite take_app_length, drop_app_length.
Qed.

Lemma roundTrips_Int64 : roundTrips encInt64 decInt64 fitsInt64.
Proof.
  intros z rest [Hlo Hhi]. unfold decInt64, encInt64.
  assert (0 ≤ z mod 2 ^ 64 < 2 ^ 64)%Z as Hmod by (apply Z.mod_pos_bound; lia).
  rewrite decBE_beBytes by (change (256 ^ N.of_nat 8) with (Z.to_N (2 ^ 64)); lia).
  simpl. f_equal. f_equal.
  destruct (N.ltb_spec (Z.to_N (z mod 2 ^ 64)) (2 ^ 63)) as [Hlt|Hge];
    rewrite Z2N.id by lia.
  - destruct (Z.le_gt_cases 0 z).
    + rewrite Z.mod_small; lia.
    + rewrite <- (Z.mod_add z 1) in Hlt by lia.
      rewrite Z.mod_small in Hlt by lia.
      change (2 ^ 63) with (Z.to_N (2 ^ 63)) in Hlt. lia.
  - destruct (Z.le_gt_cases 0 z).
    + rewrite Z.mod_small in Hge by lia.
      change (2 ^ 63) with (Z.to_N (2 ^ 63)) in Hge. lia.
    + rewrite <- (Z.mod_add z 1) by lia. rewrite Z.mod_small; lia.
Qed.

Lemma roundTrips_Bool : roundTrips encBool decBool (λ _, True).
Proof. by intros [|] rest _. Qed.

Lemma roundTrips_Type : roundTrips encType decType (λ _, True).
Proof. by intros [] rest _. Qed.

Lemma roundTrips_Option {A} (enc : A → list byte) dec wf :
  roundTrips enc dec wf → roundTrips (encOption enc) (decOption dec) (wfOption wf).
Proof.
  intros Hrt [a|] rest Ha; simpl; [|done]. by rewrite Hrt.
Qed.

Lemma roundTrips_Many {A} (enc : A → list byte) dec wf l rest :
  roundTrips enc dec wf → Forall wf l →
  decMany dec (length l) (concat (map enc l) ++ rest) = Some (l, rest).
Proof.
  intros Hrt. induction 1 as [|a l Ha Hl IH]; simpl; [done|].
  rewrite <- app_assoc, Hrt by done. simpl. by rewrite IH.
Qed.

Lemma roundTrips_List {A} (enc : A → list byte) dec wf :
  roundTrips enc dec wf →
  roundTrips (encList enc) (decList dec) (λ l, fitsLen (length l) ∧ Forall wf l).
Proof.
  intros Hrt l rest [Hlen Hl]. unfold decList, encList.
  rewrite <- app_assoc, roundTrips_Len by done. simpl.
  by eapply roundTrips_Many.
Qed.

Local Arguments encLen : simpl never.
Local Arguments encBytes : simpl never.
Local Arguments encInt64 : simpl never.
Local Arguments encList : simpl never.
Local Arguments encNode : simpl never.
Local Arguments encError : simpl never.
Local Arguments encOption : simpl never.
Local Arguments encType : simpl never.
Local Arguments encBool : simpl never.
Local Arguments decLen : simpl never.
Local Arguments decBytes : simpl never.
Local Arguments decInt64 : simpl never.
Local Arguments decList : simpl never.
Local Arguments decNode : simpl never.
Local Arguments decError : simpl never.
Local Arguments decOption : simpl never.
Local Arguments decType : simpl never.
Local Arguments decBool : simpl never.

Local Ltac next := cbn [mbind option_bind].

Lemma roundTrips_Node : roundTrips encNode decNode wfNode.
Proof.
  intros [id ip port] rest (Hid & Hip & Hport). unfold decNode, encNode.
  cbn [ID IP Port] in *.
  rewrite <- (app_assoc (encBytes id)), <- (app_assoc (encBytes ip)).
  rewrite roundTrips_Bytes by done. next.
  rewrite roundTrips_Bytes by done. next.
  by rewrite roundTrips_Int64.
Qed.

Lemma roundTrips_Error : roundTrips encError decError wfError.
Proof.
  intros e rest He. unfold decError, encError.
  rewrite roundTrips_Bytes by done. next.
  by rewrite string_of_list_byte_of_string.
Qed.

Lemma roundTrips_Payload t : roundTrips encPayload (decPayload t) (wfPayload t).
Proof.
  intros d rest Hd.
  destruct t, d as [|target|target|key data|closest|value closest]; try done;
    cbn [wfPayload encPayload decPayload] in *.
  - destruct Hd as [Hkey Hdata].
    rewrite <- (app_assoc (encBytes key)), roundTrips_Bytes by done. next.
    by rewrite roundTrips_Bytes.
  - by rewrite roundTrips_Bytes.
  - by rewrite (roundTrips_List _ _ _ roundTrips_Node).
  - by rewrite roundTrips_Bytes.
  - destruct Hd as (Hvalue & Hlen & Hclosest).
    rewrite <- (app_assoc (encOption encBytes value)).
    rewrite (roundTrips_Option _ _ _ roundTrips_Bytes) by done. next.
    by rewrite (roundTrips_List _ _ _ roundTrips_Node).
Qed.

Lemma roundTrips_Body :
  roundTrips encBody decBody
    (λ m, fitsInt64 (msg_ID m) ∧ wfOption wfNode (msg_Sender m)
          ∧ wfOption wfNode (msg_Receiver m) ∧ wfOption wfError (msg_Error m)
          ∧ wfPayload (msg_Type m) (msg_Data m)).
Proof.
  intros [id sender receiver isResponse t err data] rest.
  cbn [msg_ID msg_Sender msg_Receiver msg_IsResponse msg_Type msg_Error msg_Data].
  intros (Hid & Hsender & Hreceiver & Herr & Hdata).
  unfold decBody, encBody.
  cbn [msg_ID msg_Sender msg_Receiver msg_IsResponse msg_Type msg_Error msg_Data].
  rewrite <- (app_assoc (encInt64 id)), <- (app_assoc (encOption encNode sender)),
    <- (app_assoc (encOption encNode receiver)), <- (app_assoc (encBool isResponse)),
    <- (app_assoc (encType t)), <- (app_assoc (encOption encError err)).
  rewrite roundTrips_Int64 by done. next.
  rewrite (roundTrips_Option _ _ _ roundTrips_Node) by done. next.
  rewrite (roundTrips_Option _ _ _ roundTrips_Node) by done. next.
  rewrite roundTrips_Bool by done. next.
  rewrite roundTrips_Type by done. next.
  rewrite (roundTrips_Option _ _ _ roundTrips_Error) by done. next.
  by rewrite roundTrips_Payload.
Qed.

(** C8. For every well-formed envelope, of every payload variant,
    deserializing its serialization gives back the envelope, every field
    included (a nil or present value, a nil or present error), and leaves
    the rest of the stream. *)
Theorem deserialize_serialize m rest :
  wfMessage m → deserializeMessage (serializeMessage m ++ rest) = Some (m, rest).
Proof.
  intros (Hid & Hsender & Hreceiver & Herr & Hdata & Hlen).
  unfold deserializeMessage, serializeMessage. rewrite <- (app_assoc (encLen _)).
  rewrite roundTrips_Len by done. next.
  destruct (Nat.ltb_spec (length (encBody m ++ rest)) (length (encBody m))) as [Hlt|_].
  { rewrite length_app in Hlt. lia. }
  rewrite take_app_length, drop_app_length.
  rewrite <- (app_nil_r (encBody m)) at 1.
  rewrite roundTrips_Body by done. next. done.
Qed.

Lemma deserialize_serialize_witness :
  deserializeMessage (serializeMessage Scenario.testMessage ++ []) = Some (Scenario.testMessage, []).
Proof.
  apply (deserialize_serialize Scenario.testMessage []).
  unfold wfMessage, wfNode, wfBytes, fitsLen, fitsInt64. simpl.
  repeat split; try done; vm_compute; congruence.
Defined.

(** A truncated frame and an unknown type tag are decode errors. *)
Example deserialize_truncated :
  deserializeMessage (take 20 (serializeMessage Scenario.testMessage)) = None.
Proof. vm_compute. reflexivity. Qed.

Example deserialize_unknown_tag :
  deserializeMessage
    (encLen 13 ++ encInt64 0 ++ ["000"; "000"; "000"; "009"; "000"]%byte) = None.
Proof. vm_compute. reflexivity. Qed.

End CodecFacts.

(* ------------------------------------------------------------------ *)
(** ** More on the in-memory store *)
(* ------------------------------------------------------------------ *)

Section MemoryStoreMore.
Import MemoryStore.

Lemma string_of_list_byte_inj (a b : list byte) :
  string_of_list_byte a = string_of_list_byte b → a = b.
Proof.
  intros Heq. rewrite <- (list_byte_of_string_of_list_byte a),
    <- (list_byte_of_string_of_list_byte b). by rewrite Heq.
Qed.


(** [Store] then [Retrieve]: the key stored yields the data, every other
    key yields what it did. *)
Theorem Retrieve_Store now key d expiration publisher ms key' :
  Retrieve key' (Store now key d expiration publisher ms)
  = if decide (key' = key) then Some d else Retrieve key' ms.
Proof.
  unfold Retrieve, Store. simpl. destruct (decide (key' = key)) as [->|Hne].
  - apply lookup_insert_eq.
  - apply lookup_insert_ne. intros Heq. by apply Hne, string_of_list_byte_inj.
Qed.

(** [Delete] then [Retrieve]: the key deleted is absent, every other key
    is as before; the refresh-at and expire-at instants of the key stay. *)
Theorem Retrieve_Delete key ms key' :
  Retrieve key' (Delete key ms)
  = (if decide (key' = key) then None else Retrieve key' ms)
  ∧ refreshMap (Delete key ms) = refreshMap ms
  ∧ expireMap (Delete key ms) = expireMap ms.
Proof.
  unfold Retrieve, Delete. simpl. split; [|done].
  destruct (decide (key' = key)) as [->|Hne].
  - apply lookup_delete_eq.
  - apply lookup_delete_ne. intros Heq. by apply Hne, string_of_list_byte_inj.
Qed.

Lemma GetAllKeysForRefresh_keys now ms :
  GetAllKeysForRefresh now ms
  = filter (λ key, After now (default zeroTime (refreshMap ms !! key)) = true)
           (map_to_list (data ms)).*1.
Proof.
  unfold GetAllKeysForRefresh, GetAllKeysForRefresh_in. f_equal.
Qed.

Lemma GetAllKeysForRefresh_elem now ms k :
  k ∈ GetAllKeysForRefresh now ms
  ↔ is_Some (data ms !! k) ∧ default zeroTime (refreshMap ms !! k) < now.
Proof.
  rewrite GetAllKeysForRefresh_keys.
  rewrite list_elem_of_filter. unfold After. rewrite Z.ltb_lt.
  rewrite list_elem_of_fmap. split.
  - intros [Hlt ([k' v] & -> & Hin)]. apply elem_of_map_to_list in Hin.
    split; [by eexists|done].
  - intros [[v Hv] Hlt]. split; [done|]. exists (k, v).
    split; [done|]. by apply elem_of_map_to_list.
Qed.

(** [GetAllKeysForRefresh] lists, once each, exactly the keys that hold a
    value and whose refresh-at instant (the zero time when there is none)
    is strictly before the current time. *)
Theorem GetAllKeysForRefresh_spec now ms :
  NoDup (GetAllKeysForRefresh now ms)
  ∧ ∀ k, k ∈ GetAllKeysForRefresh now ms
         ↔ is_Some (data ms !! k) ∧ default zeroTime (refreshMap ms !! k) < now.
Proof.
  split; [|apply GetAllKeysForRefresh_elem].
  rewrite GetAllKeysForRefresh_keys. apply NoDup_filter, NoDup_fst_map_to_list.
Qed.

(** A key stored at [now] is due for refresh exactly when more than one
    hour has passed. *)
Theorem refresh_due_after_one_hour now key d expiration publisher ms now' :
  string_of_list_byte key
    ∈ GetAllKeysForRefresh now' (Store now key d expiration publisher ms)
  ↔ now + Hour < now'.
Proof.
  rewrite GetAllKeysForRefresh_elem. unfold Store. simpl. rewrite !lookup_insert_eq. simpl.
  unfold Add. split.
  - intros [_ Hlt]. lia.
  - intros Hlt. split; [by eexists|lia].
Qed.

(** A key deleted is never listed for refresh. *)
Theorem Delete_not_refreshed now key ms :
  string_of_list_byte key ∉ GetAllKeysForRefresh now (Delete key ms).
Proof.
  rewrite GetAllKeysForRefresh_elem. unfold Delete. simpl. rewrite lookup_delete_eq.
  intros [[v Hv] _]. done.
Qed.

(** [Store] then a sweep: the value is still there when the sweep runs no
    later than the expiration given, and is gone when it runs later. *)
Theorem Retrieve_ExpireKeys_Store now key d expiration publisher ms now' :
  Retrieve key (ExpireKeys now' (Store now key d expiration publisher ms))
  = if decide (expiration < now') then None else Some d.
Proof.
  pose proof (ExpireKeys_entry now' (Store now key d expiration publisher ms)
                (string_of_list_byte key)) as Hentry.
  unfold Store in Hentry at 2. simpl in Hentry. rewrite lookup_insert_eq in Hentry.
  unfold Retrieve.
  destruct (decide (expiration < now')).
  - unfold entry in Hentry. by injection Hentry as -> _ _.
  - unfold entry in Hentry. injection Hentry as -> _ _.
    unfold Store. simpl. apply lookup_insert_eq.
Qed.




Lemma timed_Store now key d expiration publisher ms :
  timed ms → timed (Store now key d expiration publisher ms).
Proof.
  intros Ht k. destruct (Ht k) as [Hd Hr]. unfold Store. simpl.
  destruct (decide (k = string_of_list_byte key)) as [->|Hne].
  - rewrite !lookup_insert_eq. by repeat split.
  - by rewrite !lookup_insert_ne.
Qed.

Lemma timed_Delete key ms : timed ms → timed (Delete key ms).
Proof.
  intros Ht k. destruct (Ht k) as [Hd Hr]. unfold Delete. simpl. split; [|done].
  destruct (decide (k = string_of_list_byte key)) as [->|Hne].
  - rewrite lookup_delete_eq. by intros [? ?].
  - by rewrite lookup_delete_ne.
Qed.

Lemma timed_ExpireKeys now ms : timed ms → timed (ExpireKeys now ms).
Proof.
  intros Ht k. destruct (Ht k) as [Hd Hr].
  pose proof (ExpireKeys_entry now ms k) as Hk. unfold entry in Hk.
  destruct (expireMap ms !! k) as [v|] eqn:Hv.
  - destruct (decide (v < now)).
    + injection Hk as -> -> ->. split; [by intros [? ?]|done].
    + by injection Hk as -> -> ->.
  - by injection Hk as -> -> ->.
Qed.

(** In every store reached from [Init] by [Store], [Delete] and
    [ExpireKeys], each value has an expire-at instant (so a sweep will
    remove it) and the refresh-at and expire-at maps have the same keys. *)
Theorem storeReachable_timed ms : storeReachable ms → timed ms.
Proof.
  induction 1 as [|now key d e p ms _ IH|key ms _ IH|now ms _ IH].
  - intros k. unfold Init. simpl. rewrite !lookup_empty. split; [by intros [? ?]|done].
  - by apply timed_Store.
  - by apply timed_Delete.
  - by apply timed_ExpireKeys.
Qed.

Lemma storeReachable_timed_witness :
  timed (Delete (list_byte_of_string "a")
           (Store 0 (list_byte_of_string "a") (list_byte_of_string "v") 5 true Init)).
Proof.
  apply storeReachable_timed. apply reach_Delete, reach_Store, reach_Init.
Defined.

End MemoryStoreMore.

(* ------------------------------------------------------------------ *)
(** ** More on [addNode] *)
(* ------------------------------------------------------------------ *)

Section AddNodeMore.
Context {Sto World : Type} {Net : networking World} {Ops : hashTableOps}.
Implicit Types (st : state Sto World) (n : NetworkNode).

Local Arguments Nat.leb : simpl never.
Local Arguments Nat.eqb : simpl never.

(** What a call of [addNode] that returns did to the routing table:
    nothing, or one bucket replaced, by the bucket with [n] appended or by
    its tail with [n] appended. *)
Lemma addNode_table n st st' :
  addNode n st = Ok tt st' →
  let index := getBucketIndexFromDifferingBit (ID (Self (ht st))) (ID n) in
  ∃ bucket, RoutingTable (ht st) !! index = Some bucket
    ∧ (ht st' = ht st
       ∧ (inBucket (ID n) bucket = true
          ∨ (length bucket = k ∧ ∃ first, head bucket = Some first
              ∧ sent st' = sent st ++ [mkSent (pingQuery (Self (ht st)) first)
                                              (msgCounter st) true]))
       ∨ inBucket (ID n) bucket = false
         ∧ ∃ bucket', ht st' = mkHashTable (Self (ht st))
                                 (<[index := bucket']> (RoutingTable (ht st)))
             ∧ (bucket' = bucket ++ [n]
                ∨ length bucket = k ∧ bucket' = drop 1 (bucket ++ [n]))).
Proof.
  rewrite addNode_unfold. cbv zeta.
  destruct (RoutingTable (ht st) !! _) as [bucket|] eqn:Hbucket; [|done].
  intros Hrun. exists bucket. split; [done|].
  destruct (inBucket (ID n) bucket) eqn:Hin.
  { injection Hrun as <-. left. split; [done|]. by left. }
  destruct (Nat.eqb_spec (length bucket) k) as [Hk|Hk].
  - destruct bucket as [|first rest]; [done|].
    destruct (sendMessage _ _ _ _) as [[e|] w1].
    + injection Hrun as <-. right. split; [done|]. eexists. split; [done|]. by right.
    + destruct (recvBefore _ _ _ _) as [[|] w2]; injection Hrun as <-.
      * left. split; [done|]. right. split; [done|]. by exists first.
      * right. split; [done|]. eexists. split; [done|]. by right.
  - injection Hrun as <-. right. split; [done|]. eexists. split; [done|]. by left.
Qed.

Lemma inBucket_elem id bucket : inBucket id bucket = true ↔ id ∈ ID <$> bucket.
Proof.
  unfold inBucket. rewrite existsb_exists, list_elem_of_fmap. unfold bytesEqual. split.
  - intros (m & Hin & Heq). apply bool_decide_eq_true in Heq.
    exists m. split; [done|]. by apply list_elem_of_In.
  - intros (m & -> & Hin). exists m. split; [by apply list_elem_of_In|].
    by apply bool_decide_eq_true.
Qed.

(** After [addNode] returns, the contact's id is in its bucket, or the
    bucket was full, its head was pinged and the routing table was left as
    it was. *)
Theorem addNode_present_or_full n st st' :
  addNode n st = Ok tt st' →
  let index := getBucketIndexFromDifferingBit (ID (Self (ht st))) (ID n) in
  (∃ bucket', RoutingTable (ht st') !! index = Some bucket'
              ∧ inBucket (ID n) bucket' = true)
  ∨ (ht st' = ht st
     ∧ ∃ bucket first, RoutingTable (ht st) !! index = Some bucket
         ∧ length bucket = k ∧ head bucket = Some first
         ∧ sent st' = sent st ++ [mkSent (pingQuery (Self (ht st)) first)
                                         (msgCounter st) true]).
Proof.
  intros Hrun index.
  destruct (addNode_table n st st' Hrun)
    as (bucket & Hbucket & [[Hht [Hin|(Hk & first & Hfirst & Hsent)]]
                           |(Hin & bucket' & Hht & Hb')]).
  - left. exists bucket. rewrite Hht. by split.
  - right. split; [done|]. by exists bucket, first.
  - left. exists bucket'. rewrite Hht. simpl. split.
    + apply list_lookup_insert_eq. by eapply lookup_lt_Some.
    + apply inBucket_elem.
      destruct Hb' as [->|[Hk ->]].
      * rewrite fmap_app. apply elem_of_app. right. by apply list_elem_of_singleton.
      * destruct bucket as [|first rest]; [done|]. simpl.
        rewrite drop_0, fmap_app. apply elem_of_app. right.
        by apply list_elem_of_singleton.
Qed.

(** [addNode] touches no bucket but that of the contact's id, and keeps
    the number of buckets, the node's own address and the store. *)
Theorem addNode_other_buckets n st st' j :
  addNode n st = Ok tt st' →
  j ≠ getBucketIndexFromDifferingBit (ID (Self (ht st))) (ID n) →
  RoutingTable (ht st') !! j = RoutingTable (ht st) !! j
  ∧ length (RoutingTable (ht st')) = length (RoutingTable (ht st))
  ∧ Self (ht st') = Self (ht st)
  ∧ store st' = store st.
Proof.
  intros Hrun Hj. destruct (addNode_frame n st st' Hrun) as (Hlen & Hself & Hstore).
  split; [|done].
  destruct (addNode_table n st st' Hrun)
    as (bucket & Hbucket & [[Hht _]|(Hin & bucket' & Hht & Hb')]); rewrite Hht; [done|].
  simpl. by apply list_lookup_insert_ne.
Qed.

Lemma addNode_distinct n st st' :
  bucketsDistinct (ht st) → addNode n st = Ok tt st' → bucketsDistinct (ht st').
Proof.
  unfold bucketsDistinct. intros Hd Hrun.
  destruct (addNode_table n st st' Hrun)
    as (bucket & Hbucket & [[Hht _]|(Hin & bucket' & Hht & Hb')]); rewrite Hht; [done|].
  simpl. apply Forall_insert; [done|].
  assert (NoDup (ID <$> bucket ++ [n])) as Happ.
  { rewrite fmap_app. apply NoDup_app. split; [by eapply Forall_lookup_1 in Hd|].
    split; [|apply NoDup_singleton].
    intros id Hid Hid'. apply list_elem_of_singleton in Hid'. subst id.
    apply inBucket_elem in Hid. congruence. }
  destruct Hb' as [->|[_ ->]]; [done|].
  eapply sublist_NoDup; [exact Happ|]. apply fmap_sublist, sublist_drop.
Qed.

Lemma addNode_indexed n st st' :
  bucketsIndexed (ht st) → addNode n st = Ok tt st' → bucketsIndexed (ht st').
Proof.
  intros Hidx Hrun.
  destruct (addNode_table n st st' Hrun)
    as (bucket & Hbucket & [[Hht _]|(Hin & bucket' & Hht & Hb')]); rewrite Hht; [done|].
  intros i b m. simpl. intros Hb Hm.
  destruct (decide (i = getBucketIndexFromDifferingBit (ID (Self (ht st))) (ID n)))
    as [->|Hne].
  - rewrite list_lookup_insert_eq in Hb by by eapply lookup_lt_Some.
    injection Hb as <-.
    assert (m ∈ bucket ++ [n]) as Hm'.
    { destruct Hb' as [->|[_ ->]]; [done|]. eapply elem_of_sublist; [exact Hm|].
      apply sublist_drop. }
    apply elem_of_app in Hm' as [Hm'|Hm'].
    + by eapply Hidx.
    + by apply list_elem_of_singleton in Hm' as ->.
  - rewrite list_lookup_insert_ne in Hb by done. by eapply Hidx.
Qed.

(** From a routing table in which no bucket holds an id twice, no
    sequence of calls of [addNode] makes one that does. *)
Theorem addNode_no_duplicates st0 st :
  bucketsDistinct (ht st0) → reachableByAddNode st0 st → bucketsDistinct (ht st).
Proof.
  intros H0 Hreach. induction Hreach as [|st n st' _ IH Hadd]; [done|].
  by eapply addNode_distinct.
Qed.

(** From a routing table in which every contact sits in the bucket of its
    id, every sequence of calls of [addNode] leads to such a table. *)
Theorem addNode_keeps_index st0 st :
  bucketsIndexed (ht st0) → reachableByAddNode st0 st → bucketsIndexed (ht st).
Proof.
  intros H0 Hreach. induction Hreach as [|st n st' _ IH Hadd]; [done|].
  by eapply addNode_indexed.
Qed.

End AddNodeMore.

(* ------------------------------------------------------------------ *)
(** ** The trace of the engine: message ids, the local store, and who is
    sent what *)
(* ------------------------------------------------------------------ *)

Section TraceFacts.
Context {Sto World : Type} {Net : networking World} {Str : Store Sto} {Ops : hashTableOps}.
Implicit Types (st : state Sto World) (P : sentMessage → Prop).

Local Abbreviation Traced P := (traced (Sto:=Sto) (World:=World) P).
Local Arguments Nat.leb : simpl never.
Local Arguments Nat.eqb : simpl never.

Lemma idAfter_add i j c : idAfter (i + j) c = idAfter j (idAfter i c).
Proof. unfold idAfter. rewrite Nat.add_comm. apply Nat.iter_add. Qed.

Lemma idsFrom_app c l1 l2 :
  idsFrom c (l1 ++ l2) ↔ idsFrom c l1 ∧ idsFrom (idAfter (length l1) c) l2.
Proof.
  revert c. induction l1 as [|s l1 IH]; intros c; simpl.
  - unfold idAfter. simpl. tauto.
  - rewrite IH. change (S (length l1)) with (S (length l1)).
    rewrite <- (idAfter_S (length l1) c). tauto.
Qed.

#[local] Instance traced_refl P : Reflexive (Traced P).
Proof.
  intros st. split; [done|]. exists []. rewrite app_nil_r. by repeat split.
Qed.

#[local] Instance traced_trans P : Transitive (Traced P).
Proof.
  intros st1 st2 st3 [Hs1 (l1 & H1 & HP1 & Hid1 & Hc1)] [Hs2 (l2 & H2 & HP2 & Hid2 & Hc2)].
  split; [congruence|]. exists (l1 ++ l2).
  rewrite H2, H1, <- app_assoc. split; [done|]. split; [by apply Forall_app|].
  split.
  - apply idsFrom_app. split; [done|]. by rewrite <- Hc1.
  - by rewrite Hc2, Hc1, length_app, idAfter_add.
Qed.

Lemma traced_weaken P Q st st' : (∀ s, P s → Q s) → Traced P st st' → Traced Q st st'.
Proof.
  intros HPQ [Hs (l & Hl & HP & Hid & Hc)]. split; [done|]. exists l.
  repeat split; try done. by eapply Forall_impl.
Qed.

Lemma traced_silent P st st' :
  store st' = store st → sent st' = sent st → msgCounter st' = msgCounter st →
  Traced P st st'.
Proof.
  intros Hs Hl Hc. split; [done|]. exists []. rewrite app_nil_r. by repeat split.
Qed.

Lemma traced_send P msg expect :
  (∀ id, P (mkSent msg id expect)) → preserves (Traced P) (send msg expect).
Proof.
  intros HP st a st'. unfold send. destruct (sendMessage _ _ _ _) as [err w].
  intros [= _ <-]. split; [done|]. eexists. split; [done|]. simpl.
  split; [|done]. by constructor.
Qed.

Lemma traced_await P ch : preserves (Traced P) (await ch).
Proof.
  intros st a st'. unfold await. destruct (recv _ _ _) as [r w].
  intros [= _ <-]. by apply traced_silent.
Qed.

Lemma traced_awaitBefore P ch d : preserves (Traced P) (awaitBefore ch d).
Proof.
  intros st a st'. unfold awaitBefore. destruct (recvBefore _ _ _ _) as [r w].
  intros [= _ <-]. by apply traced_silent.
Qed.

Lemma traced_getHt P : preserves (Traced P) getHt.
Proof. intros st a st' [= _ <-]. by apply traced_silent. Qed.

Lemma traced_setHt P h : preserves (Traced P) (setHt h).
Proof. intros st [] st' [= <-]. by apply traced_silent. Qed.

Lemma traced_setBucket P i b : preserves (Traced P) (setBucket i b).
Proof.
  apply preserves_bind; [apply _|apply traced_getHt|]. intros h. apply traced_setHt.
Qed.

(** [addNode] sends at most a ping, and never touches the store. *)
Lemma traced_addNode n : preserves (Traced isPing) (addNode n).
Proof.
  unfold addNode. apply preserves_bind; [apply _|apply traced_getHt|]. intros h.
  destruct (RoutingTable h !! _) as [bucket|]; [|apply preserves_panic].
  destruct (existsb _ _); [apply preserves_ret, _|].
  destruct (length bucket =? k)%nat; [|apply traced_setBucket].
  destruct bucket as [|first rest]; [apply preserves_panic|].
  apply preserves_bind; [apply _|by apply traced_send|]. intros [[e|] id].
  - apply traced_setBucket.
  - apply preserves_bind; [apply _|apply traced_awaitBefore|]. intros [|].
    + apply preserves_ret, _.
    + apply traced_setBucket.
Qed.

Lemma traced_addNodes l : preserves (Traced isPing) (addNodes l).
Proof.
  induction l as [|n l IH]; simpl; [apply preserves_ret, _|].
  apply preserves_bind; [apply _|apply traced_addNode|done].
Qed.

Lemma traced_awaitAll P chans : preserves (Traced P) (awaitAll chans).
Proof.
  induction chans as [|c chans IH]; simpl; [apply preserves_ret, _|].
  apply preserves_bind; [apply _|apply traced_await|]. intros r.
  apply preserves_bind; [apply _|done|]. intros rs. apply preserves_ret, _.
Qed.

Lemma traced_mergeResults t results sl :
  preserves (Traced isPing) (mergeResults t results sl).
Proof.
  revert sl. induction results as [|r results IH]; intros sl; simpl;
    [apply preserves_ret, _|].
  destruct (msg_Error r).
  { destruct (msg_Receiver r); [apply IH|apply preserves_panic]. }
  destruct t, (msg_Data r) as [| | | |closest|[v|] closest];
    try apply preserves_panic; try (apply preserves_ret, _);
    (apply preserves_bind; [apply _|apply traced_addNodes|intros _; apply IH]).
Qed.

(** The sends of the queries of a round: one call for each query, in
    order, each expecting a response. *)
Lemma traced_sendQueries qs st chans st' :
  sendQueries qs st = Ok chans st' →
  store st' = store st
  ∧ ∃ l, sent st' = sent st ++ l
         ∧ sent_msg <$> l = qs
         ∧ Forall (λ s, sent_expectResponse s = true) l
         ∧ idsFrom (msgCounter st) l
         ∧ msgCounter st' = idAfter (length l) (msgCounter st).
Proof.
  revert st chans st'. induction qs as [|q qs IH]; intros st chans st'; simpl.
  { intros [= _ <-]. split; [done|]. exists []. rewrite app_nil_r. by repeat split. }
  unfold bind at 1. unfold send. destruct (sendMessage _ _ _ _) as [err w].
  set (st1 := mkState (ht st) (store st) (int64_incr (msgCounter st)) w
                (sent st ++ [mkSent q (msgCounter st) true])).
  assert (∀ st2 chans', store st2 = store st1 → sent st2 = sent st1 →
            msgCounter st2 = msgCounter st1 →
            sendQueries qs st2 = Ok chans' st' →
            store st' = store st
            ∧ ∃ l, sent st' = sent st ++ l ∧ sent_msg <$> l = q :: qs
                   ∧ Forall (λ s, sent_expectResponse s = true) l
                   ∧ idsFrom (msgCounter st) l
                   ∧ msgCounter st' = idAfter (length l) (msgCounter st)) as Hgo.
  { intros st2 chans' Hs Hl Hc Hrest.
    apply IH in Hrest as (Hs' & l & Hl' & Hq & He & Hid & Hc').
    split; [by rewrite Hs', Hs|].
    exists (mkSent q (msgCounter st) true :: l).
    rewrite Hl', Hl. subst st1. simpl. rewrite <- app_assoc. split; [done|].
    split; [by f_equal|]. split; [by constructor|].
    rewrite Hc in Hid, Hc'. simpl in Hid, Hc'. split; [done|].
    rewrite Hc'. symmetry. apply idAfter_S. }
  destruct err as [e|].
  - unfold bind at 1.
    destruct (String.eqb e "timed out waiting for ack").
    + destruct (msg_Receiver q) as [r|]; [|done].
      unfold bind, getHt, setHt. by apply Hgo.
    + unfold ret. by apply Hgo.
  - unfold bind at 1. destruct (sendQueries qs st1) as [chans' st2| |] eqn:Hrest; [|done..].
    unfold ret. intros [= _ <-]. by eapply Hgo.
Qed.

(** The selection of a round from index [i]: the nodes chosen are, in
    order, those of the next [alpha - i] nodes of the shortlist that were
    not contacted, each once; they are what the round adds to the
    contacted set. *)
Lemma selectQueries_chosen t self target i nodes contacted qs c :
  selectQueries t self target i nodes contacted = (qs, c) →
  ∃ chosen,
    qs = (λ n, makeQuery t self n target) <$> chosen
    ∧ chosen `sublist_of` take (alpha - i) nodes
    ∧ NoDup (contactKey <$> chosen)
    ∧ (∀ n, n ∈ chosen → contactKey n ∉ contacted)
    ∧ c = contacted ∪ list_to_set (contactKey <$> chosen)
    ∧ (∀ n, n ∈ take (alpha - i) nodes → contactKey n ∈ c).
Proof.
  revert i contacted qs c.
  induction nodes as [|n nodes IH]; intros i contacted qs c; simpl.
  { intros [= <- <-]. exists []. rewrite take_nil. repeat split; try done.
    - constructor.
    - by intros n ?%elem_of_nil.
    - by rewrite fmap_nil, list_to_set_nil, union_empty_r_L.
    - by intros n ?%elem_of_nil. }
  destruct (Nat.leb_spec alpha i) as [Hle|Hlt].
  { intros [= <- <-]. exists []. replace (alpha - i)%nat with 0%nat by lia.
    repeat split; try done.
    - constructor.
    - by intros m ?%elem_of_nil.
    - by rewrite fmap_nil, list_to_set_nil, union_empty_r_L.
    - by intros m ?%elem_of_nil. }
  replace (alpha - i)%nat with (S (alpha - S i)) by lia. simpl.
  destruct (bool_decide _) eqn:Hin.
  - apply bool_decide_eq_true in Hin. intros Hsel.
    apply IH in Hsel as (chosen & Hqs & Hsub & Hnd & Hnew & Hc & Hall).
    exists chosen. repeat split; try done.
    + by apply sublist_cons.
    + intros m Hm. apply elem_of_cons in Hm as [->|Hm]; [|by apply Hall].
      rewrite Hc. apply elem_of_union. by left.
  - apply bool_decide_eq_false in Hin.
    destruct (selectQueries _ _ _ _ _ _) as [qs' c'] eqn:Hsel.
    intros [= <- <-].
    apply IH in Hsel as (chosen & Hqs & Hsub & Hnd & Hnew & Hc & Hall).
    exists (n :: chosen). rewrite fmap_cons, Hqs. repeat split; try done.
    + by apply sublist_skip.
    + rewrite fmap_cons. apply NoDup_cons. split; [|done].
      intros Hn. apply list_elem_of_fmap in Hn as (m & Hkey & Hm).
      apply Hnew in Hm. apply Hm. rewrite <- Hkey.
      apply elem_of_union. left. by apply elem_of_singleton.
    + intros m Hm. apply elem_of_cons in Hm as [->|Hm]; [done|].
      apply Hnew in Hm. intros Hc'. apply Hm, elem_of_union. by right.
    + rewrite Hc, fmap_cons. simpl.
      apply set_eq. intros x. rewrite !elem_of_union, !elem_of_singleton.
      unfold contactKey. tauto.
    + intros m Hm. apply elem_of_cons in Hm as [->|Hm]; [|by apply Hall].
      rewrite Hc. apply elem_of_union. left. apply elem_of_union. left.
      by apply elem_of_singleton.
Qed.

(** A round sends its queries to at most [alpha] nodes, all among the
    first [alpha] of the shortlist, none contacted before and none twice;
    afterwards every one of the first [alpha] nodes is contacted. *)
Theorem selectQueries_at_most_alpha t self target nodes contacted qs c :
  selectQueries t self target 0 nodes contacted = (qs, c) →
  (length qs ≤ alpha)%nat
  ∧ ∃ chosen,
      qs = (λ n, makeQuery t self n target) <$> chosen
      ∧ chosen `sublist_of` take alpha nodes
      ∧ NoDup (contactKey <$> chosen)
      ∧ (∀ n, n ∈ chosen → contactKey n ∉ contacted)
      ∧ c = contacted ∪ list_to_set (contactKey <$> chosen)
      ∧ (∀ n, n ∈ take alpha nodes → contactKey n ∈ c).
Proof.
  intros Hsel. apply selectQueries_chosen in Hsel as (chosen & Hqs & Hsub & Hrest).
  rewrite Nat.sub_0_r in *. split; [|by exists chosen].
  rewrite Hqs, length_fmap. apply sublist_length in Hsub.
  rewrite length_take in Hsub. lia.
Qed.

Lemma queried_app l1 l2 : queried (l1 ++ l2) = queried l1 ++ queried l2.
Proof. unfold queried. apply omap_app. Qed.

Lemma queried_cons s l :
  queried (s :: l) = match queriedKey s with
                     | Some key => key :: queried l
                     | None => queried l
                     end.
Proof. done. Qed.

Lemma queried_pings l : Forall isPing l → queried l = [].
Proof.
  induction 1 as [|s l (Hty & _ & _) _ IH]; [done|].
  rewrite queried_cons, IH. unfold queriedKey. by rewrite Hty.
Qed.

Lemma queried_queries t self target chosen l :
  sent_msg <$> l = (λ n, makeQuery t self n target) <$> chosen →
  queried l = contactKey <$> chosen.
Proof.
  revert chosen. induction l as [|s l IH]; intros [|n chosen]; try done.
  rewrite !fmap_cons. intros [= Hs Hl].
  rewrite queried_cons, (IH _ Hl). unfold queriedKey. rewrite Hs. by destruct t.
Qed.

Lemma queried_storeCalls self target data c nodes :
  queried (storeCalls self target data c nodes) = [].
Proof.
  revert c. induction nodes as [|n nodes IH]; intros c; [done|].
  rewrite storeCalls_cons, queried_cons. simpl. apply IH.
Qed.

(** The calls of a round: the queries, then pings. *)
Lemma round_trace t target sl contacted st m c' st' :
  round t target sl contacted st = Ok (m, c') st' →
  contacted ⊆ c'
  ∧ Traced (λ _, True) st st'
  ∧ ∃ l, sent st' = sent st ++ l
         ∧ NoDup (queried l)
         ∧ ∀ key, key ∈ queried l → (key ∉ contacted) ∧ key ∈ c'.
Proof.
  intros Hround.
  destruct (round_progress _ _ _ _ _ _ _ _ Hround) as [Hsub _].
  apply round_inv in Hround
    as (qs & chans & results & st1 & st2 & m0 & Hsel & Hsend & Hawait & Hmerge & Hm).
  apply selectQueries_chosen in Hsel as (chosen & Hqs & _ & Hnd & Hnew & Hc & _).
  apply traced_sendQueries in Hsend as (Hs1 & l1 & Hl1 & Hmsgs & _ & Hid1 & Hc1).
  pose proof (traced_awaitAll (λ _, True) _ _ _ _ Hawait)
    as [Hs2 (l2 & Hl2 & _ & Hid2 & Hc2)].
  pose proof (traced_mergeResults _ _ _ _ _ _ Hmerge) as [Hs3 (l3 & Hl3 & Hp3 & Hid3 & Hc3)].
  split; [done|]. split.
  - etrans; [|etrans].
    + split; [exact Hs1|]. exists l1. repeat split; try done. by apply Forall_true.
    + split; [exact Hs2|]. exists l2. repeat split; try done. by apply Forall_true.
    + split; [exact Hs3|]. exists l3. repeat split; try done. by apply Forall_true.
  - assert (l2 = []) as ->.
    { apply (traced_awaitAll (λ _, False)) in Hawait as [_ (l & Hl & Hno & _)].
      destruct l; [|by apply Forall_cons in Hno as [[] _]].
      rewrite Hl in Hl2. by apply app_inv_head in Hl2. }
    exists (l1 ++ l3). rewrite Hl3, Hl2, Hl1, app_nil_r, <- app_assoc. split; [done|].
    rewrite queried_app, (queried_pings l3 Hp3), app_nil_r.
    rewrite Hqs in Hmsgs. rewrite (queried_queries _ _ _ _ _ Hmsgs).
    split; [done|]. intros key Hkey.
    apply list_elem_of_fmap in Hkey as (n & -> & Hn). split; [by apply Hnew|].
    rewrite Hc. apply elem_of_union. right. apply elem_of_list_to_set.
    by apply list_elem_of_fmap_2.
Qed.

Lemma traced_storeAll target data i nodes :
  preserves (Traced (λ _, True)) (storeAll target data i nodes).
Proof.
  revert i. induction nodes as [|n nodes IH]; intros i; simpl; [apply preserves_ret, _|].
  destruct (k <=? i)%nat; [apply preserves_ret, _|].
  apply preserves_bind; [apply _|apply traced_getHt|]. intros h.
  apply preserves_bind; [apply _|by apply traced_send|]. intros _. apply IH.
Qed.

Lemma finish_trace t target data sl st r st' :
  finish t target data sl st = Ok r st' →
  Traced (λ _, True) st st' ∧ ∃ l, sent st' = sent st ++ l ∧ queried l = [].
Proof.
  destruct t; simpl.
  - unfold bind. destruct (storeAll_spec target data 0 sl st) as [w Hw].
    pose proof (traced_storeAll target data 0 sl st) as Htr. rewrite Hw in *.
    intros [= _ <-]. split; [by eapply Htr|].
    eexists. split; [done|]. apply queried_storeCalls.
  - intros [= _ <-]. split; [done|]. exists []. by rewrite app_nil_r.
  - intros [= _ <-]. split; [done|]. exists []. by rewrite app_nil_r.
Qed.

Lemma iterateLoop_trace fuel t target data sl contacted closestNode st r st' :
  iterateLoop fuel t target data sl contacted closestNode st = Ok r st' →
  Traced (λ _, True) st st'
  ∧ ∃ l, sent st' = sent st ++ l
         ∧ NoDup (queried l)
         ∧ ∀ key, key ∈ queried l → key ∉ contacted.
Proof.
  revert sl contacted closestNode st.
  induction fuel as [|fuel IH]; intros sl contacted closestNode st; simpl; [done|].
  unfold bind at 1.
  destruct (round t target sl contacted st) as [[m c'] st1| |] eqn:Hround; [|done..].
  apply round_trace in Hround as (Hsub & Htr1 & l1 & Hl1 & Hnd1 & Hnew1).
  assert (∀ st2, Traced (λ _, True) st1 st2 →
            (∃ l, sent st2 = sent st1 ++ l ∧ NoDup (queried l)
                  ∧ ∀ key, key ∈ queried l → key ∉ c') →
            Traced (λ _, True) st st2
            ∧ ∃ l, sent st2 = sent st ++ l ∧ NoDup (queried l)
                   ∧ ∀ key, key ∈ queried l → key ∉ contacted) as Hjoin.
  { intros st2 Htr2 (l2 & Hl2 & Hnd2 & Hnew2). split; [by etrans|].
    exists (l1 ++ l2). rewrite Hl2, Hl1, <- app_assoc. split; [done|].
    rewrite queried_app. split.
    - apply NoDup_app. split; [done|]. split; [|done].
      intros key Hk1 Hk2. apply Hnew1 in Hk1 as [_ Hk1]. by apply Hnew2 in Hk2.
    - intros key Hkey. apply elem_of_app in Hkey as [Hkey|Hkey].
      + by apply Hnew1.
      + intros Hc. by apply (Hnew2 key Hkey), Hsub. }
  destruct m as [v|sl'].
  - intros [= _ <-]. apply Hjoin; [done|]. exists []. rewrite app_nil_r.
    split; [done|]. split; [constructor|]. by intros key ?%elem_of_nil.
  - destruct sl' as [|first rest]; [done|].
    destruct (bytesEqual _ _).
    + intros Hfin. apply finish_trace in Hfin as [Htr2 (l2 & Hl2 & Hq2)].
      apply Hjoin; [done|]. exists l2. rewrite Hq2. split; [done|].
      split; [constructor|]. by intros key ?%elem_of_nil.
    + intros Hrest. apply IH in Hrest as [Htr2 Hq2]. by apply Hjoin.
Qed.

(** A lookup queries no node twice (the code: "We don't contact the same
    node twice"): the receivers of the FindNode and FindValue queries it
    sends have distinct ids. *)
Theorem iterate_queries_once fuel t target data st r st' :
  iterate fuel t target data st = Ok r st' →
  ∃ l, sent st' = sent st ++ l ∧ NoDup (queried l).
Proof.
  unfold iterate, bind, getHt.
  destruct (getClosestContacts _ _ _ _) as [|closestNode sl].
  - intros [= _ <-]. exists []. rewrite app_nil_r. split; [done|]. constructor.
  - intros Hrun. apply iterateLoop_trace in Hrun as [_ (l & Hl & Hnd & _)]. by exists l.
Qed.

Lemma iterate_store fuel t target data st r st' :
  iterate fuel t target data st = Ok r st' → store st' = store st.
Proof.
  unfold iterate, bind, getHt.
  destruct (getClosestContacts _ _ _ _) as [|closestNode sl]; [by intros [= _ <-]|].
  intros Hrun. by apply iterateLoop_trace in Hrun as [[Hs _] _].
Qed.

(** A lookup never writes to the local store. *)
Theorem iterate_keeps_store fuel t target data st r st' :
  iterate fuel t target data st = Ok r st' → store st' = store st.
Proof. apply iterate_store. Qed.

(** The calls of [sendMessage] of a lookup take the successive values of
    the message counter, from its value at the start; the counter ends at
    the next free value. *)
Theorem iterate_message_ids fuel t target data st r st' :
  iterate fuel t target data st = Ok r st' →
  ∃ l, sent st' = sent st ++ l
       ∧ idsFrom (msgCounter st) l
       ∧ msgCounter st' = idAfter (length l) (msgCounter st).
Proof.
  unfold iterate, bind, getHt.
  destruct (getClosestContacts _ _ _ _) as [|closestNode sl].
  - intros [= _ <-]. exists []. by rewrite app_nil_r.
  - intros Hrun. apply iterateLoop_trace in Hrun as [[_ (l & Hl & _ & Hid & Hc)] _].
    by exists l.
Qed.

(** *** What a lookup returns *)

Lemma iterateLoop_result fuel t target data sl contacted closestNode st v cl e st' :
  iterateLoop fuel t target data sl contacted closestNode st = Ok (v, cl, e) st' →
  e = None
  ∧ (v ≠ None → t = iterateFindValue ∧ cl = [])
  ∧ (t = iterateStore → v = None ∧ cl = [])
  ∧ (t ≠ iterateStore → v = None →
     cl ≠ [] ∧ Sorted (closer target) cl ∧ (NoDup (ID <$> sl) → NoDup (ID <$> cl))).
Proof.
  revert sl contacted closestNode st.
  induction fuel as [|fuel IH]; intros sl contacted closestNode st; simpl; [done|].
  unfold bind at 1.
  destruct (round t target sl contacted st) as [[m c'] st1| |] eqn:Hround; [|done..].
  destruct m as [x|sl'].
  - intros [= <- <- <- _].
    apply round_inv in Hround as (? & ? & ? & ? & ? & m0 & _ & _ & _ & Hm & Hx).
    destruct m0 as [x'|]; [|done]. apply mergeResults_found in Hm as ->.
    by repeat split.
  - destruct (round_shortlist _ _ _ _ _ _ _ _ Hround) as (Hsorted & Hnd & _).
    destruct sl' as [|first rest] eqn:Hsl'; [done|].
    destruct (bytesEqual _ _).
    + destruct t; unfold finish, bind, ret.
      * destruct (storeAll_spec target data 0 (first :: rest) st1) as [w ->].
        intros [= <- <- <- _]. by repeat split.
      * intros [= <- <- <- _]. by repeat split.
      * intros [= <- <- <- _]. by repeat split.
    + intros Hrest. apply IH in Hrest as (He & Hv & Hstore & Hcl).
      split; [done|]. split; [done|]. split; [done|].
      intros Ht Hnone. destruct (Hcl Ht Hnone) as (Hne & Hs & Hn).
      split; [done|]. split; [done|]. intros Hsl. by apply Hn, Hnd.
Qed.

(** A lookup never returns an error; it returns a value only when it is a
    FindValue, and then no contacts; a Store returns neither. *)
Theorem iterate_result_shape fuel t target data st v cl e st' :
  iterate fuel t target data st = Ok (v, cl, e) st' →
  e = None
  ∧ (v ≠ None → t = iterateFindValue ∧ cl = [])
  ∧ (t = iterateStore → v = None ∧ cl = []).
Proof.
  unfold iterate, bind, getHt.
  destruct (getClosestContacts _ _ _ _) as [|closestNode sl].
  - intros [= <- <- <- _]. by repeat split.
  - intros Hrun. apply iterateLoop_result in Hrun as (He & Hv & Hs & _).
    split; [done|]. by split.
Qed.

(** The contacts a FindNode, or a FindValue that found no value, returns:
    the whole shortlist (it is not cut to [k]), sorted by distance to the
    target, not empty when the initial shortlist was not, and without two
    contacts of the same id when the initial shortlist had none. *)
Theorem iterate_closest_sorted fuel t target data st cl e st' :
  iterate fuel t target data st = Ok (None, cl, e) st' →
  t ≠ iterateStore →
  Sorted (closer target) cl
  ∧ (getClosestContacts (ht st) alpha target [] ≠ [] → cl ≠ [])
  ∧ (NoDup (ID <$> getClosestContacts (ht st) alpha target []) → NoDup (ID <$> cl)).
Proof.
  unfold iterate, bind, getHt.
  destruct (getClosestContacts _ _ _ _) as [|closestNode sl].
  - intros [= <- _ _] _. repeat split; [constructor|done|constructor].
  - intros Hrun Ht. apply iterateLoop_result in Hrun as (_ & _ & _ & Hcl).
    destruct (Hcl Ht eq_refl) as (Hne & Hsorted & Hnd). by repeat split.
Qed.

End TraceFacts.

(* ------------------------------------------------------------------ *)
(** ** More on the listen loop and on [DHT.Store] *)
(* ------------------------------------------------------------------ *)

Section HandlerFacts.
Context {Sto World : Type} {Net : networking World} {Str : Store Sto} {Ops : hashTableOps}.
Implicit Types (st : state Sto World).

Lemma replies_app l1 l2 : replies (l1 ++ l2) = replies l1 ++ replies l2.
Proof. unfold replies. apply filter_app. Qed.

Lemma replies_pings l : Forall isPing l → replies l = [].
Proof.
  induction 1 as [|s l (_ & Hresp & _) _ IH]; [done|].
  unfold replies in *. rewrite filter_cons_False; [done|]. by rewrite Hresp.
Qed.

(** [addNode] as the handlers use it: it keeps the store and the node's
    own address, and sends no reply. *)
Lemma addNode_quiet n st st' :
  addNode n st = Ok tt st' →
  store st' = store st ∧ Self (ht st') = Self (ht st)
  ∧ ∃ l, sent st' = sent st ++ l ∧ replies l = [].
Proof.
  intros Hrun. destruct (addNode_frame n st st' Hrun) as (_ & Hself & Hstore).
  apply traced_addNode in Hrun as [_ (l & Hl & Hp & _)].
  split; [done|]. split; [done|]. exists l. split; [done|]. by apply replies_pings.
Qed.

Lemma reply_sent r id st st' :
  reply r id st = Ok tt st' →
  sent st' = sent st ++ [mkSent r id false] ∧ store st' = store st ∧ ht st' = ht st.
Proof.
  unfold reply. destruct (sendMessage _ _ _ _) as [e w]. by intros [= <-].
Qed.

(** The listen loop answers a FindNode, a FindValue or a Ping with exactly
    one response, which echoes the id of the request, goes to its sender,
    comes from the node, carries no error and is sent without expecting a
    response; it answers nothing to a Store or to a response. *)
Theorem handleMessage_replies msg st st' :
  handleMessage msg st = Ok tt st' →
  ∃ l, sent st' = sent st ++ l
       ∧ match responseTypeOf (msg_Type msg) with
         | Some rt =>
             ∃ r, replies l = [mkSent r (msg_ID msg) false]
                  ∧ msg_Type r = rt ∧ msg_IsResponse r = true
                  ∧ msg_Sender r = Some (Self (ht st))
                  ∧ msg_Receiver r = msg_Sender msg
                  ∧ msg_Error r = None
         | None => replies l = []
         end.
Proof.
  unfold handleMessage.
  destruct (msg_Type msg) eqn:Hty; simpl.
  - unfold bind, getHt. intros Hr. apply reply_sent in Hr as (Hl & _ & _).
    eexists. split; [exact Hl|]. eexists. by repeat split.
  - intros [= <-]. exists []. by rewrite app_nil_r.
  - destruct (msg_Data msg) as [| | |key data| |]; try done.
    destruct (msg_Sender msg) as [sender|]; [|done].
    unfold bind. destruct (addNode (newNode sender) st) as [[] st1| |] eqn:Hadd; [|done..].
    intros [= <-]. apply addNode_quiet in Hadd as (_ & _ & l & Hl & Hr).
    exists l. by split.
  - destruct (msg_Data msg) as [|target| | | |]; try done.
    destruct (msg_Sender msg) as [sender|]; [|done].
    unfold bind at 1. destruct (addNode (newNode sender) st) as [[] st1| |] eqn:Hadd; [|done..].
    unfold bind, getHt. intros Hr. apply reply_sent in Hr as (Hl & _ & _).
    apply addNode_quiet in Hadd as (_ & Hself & l & Hl1 & Hr1).
    exists (l ++ [mkSent (mkMessage 0 (Some (Self (ht st1))) (Some sender) true
                            messageTypeResponseFindNode None
                            (responseDataFindNode (getClosestContacts (ht st1) k target [sender])))
                         (msg_ID msg) false]).
    rewrite Hl, Hl1, <- app_assoc. split; [done|].
    eexists. rewrite replies_app, Hr1. split; [done|]. by rewrite <- Hself.
  - intros [= <-]. exists []. by rewrite app_nil_r.
  - destruct (msg_Data msg) as [| |target| | |]; try done.
    destruct (msg_Sender msg) as [sender|]; [|done].
    unfold bind at 1. destruct (addNode (newNode sender) st) as [[] st1| |] eqn:Hadd; [|done..].
    unfold bind, getHt. intros Hr. apply reply_sent in Hr as (Hl & _ & _).
    apply addNode_quiet in Hadd as (_ & Hself & l & Hl1 & Hr1).
    eexists (l ++ [_]). rewrite Hl, Hl1, <- app_assoc. split; [done|].
    eexists. rewrite replies_app, Hr1. split; [done|]. by rewrite <- Hself.
  - intros [= <-]. exists []. by rewrite app_nil_r.
Qed.


Lemma DHT_Store_stored fuel data st s err st' :
  lawfulStore (Str := Str) →
  DHT_Store fuel data st = Ok (s, err) st' →
  s = b58.Encode (data ++ SHA1.digest []) ∧ err = None
  ∧ Store_Retrieve (data ++ SHA1.digest []) (store st') = Some data.
Proof.
  intros Hlaw Hrun. apply DHT_Store_key in Hrun as (Hs & He & r & Hit).
  split; [done|]. split; [done|].
  apply iterate_store in Hit. rewrite Hit. simpl.
  rewrite Hlaw. by rewrite decide_True.
Qed.

(** [DHT.Store] returns, for every data, the base58 form of the data
    followed by the SHA-1 hash of the empty input, and never an error;
    when it returns, the local store holds the data under that key. *)
Theorem DHT_Store_stores fuel data st s err st' :
  lawfulStore (Str := Str) →
  DHT_Store fuel data st = Ok (s, err) st' →
  s = b58.Encode (data ++ SHA1.digest []) ∧ err = None
  ∧ Store_Retrieve (data ++ SHA1.digest []) (store st') = Some data.
Proof. apply DHT_Store_stored. Qed.

End HandlerFacts.

(* ------------------------------------------------------------------ *)
(** ** Base58: decoding undoes encoding *)
(* ------------------------------------------------------------------ *)

Section Base58Facts.
Import b58Decode.
Local Open Scope N_scope.

Lemma below_58 (P : N → Prop) :
  Forall P (N.of_nat <$> seq 0 58) → ∀ d, d < 58 → P d.
Proof.
  intros Hall d Hd. eapply Forall_forall in Hall; [exact Hall|].
  apply list_elem_of_fmap. exists (N.to_nat d). split; [by rewrite N2Nat.id|].
  apply elem_of_seq. lia.
Qed.

Lemma index_digit d : d < 58 → index (b58.digit d) = Some d.
Proof.
  revert d. apply (below_58 (λ d, index (b58.digit d) = Some d)).
  vm_compute. repeat constructor.
Qed.

Lemma digit_not_one d : d < 58 → d ≠ 0 → b58.digit d ≠ "1"%char.
Proof.
  revert d. apply (below_58 (λ d, d ≠ 0 → b58.digit d ≠ "1"%char)). vm_compute.
  repeat (constructor; [intros Hne; try done; discriminate|]). constructor.
Qed.

Lemma accumulate_ones l j a :
  Forall (λ c, c = "1"%char) l → accumulate l j a = Some a.
Proof.
  intros Hl. revert j a. induction Hl as [|c l -> _ IH]; intros j a; simpl; [done|].
  change (index "1") with (Some 0). rewrite N.mul_0_r, N.add_0_r. apply IH.
Qed.

Lemma accumulate_digits fuel x rest j a :
  x < 58 ^ N.of_nat fuel →
  ∃ j', accumulate (b58.digits fuel x ++ rest) j a = accumulate rest j' (a + j * x).
Proof.
  revert x j a. induction fuel as [|fuel IH]; intros x j a Hx.
  - simpl in *. assert (x = 0) as -> by lia. exists j. by rewrite N.mul_0_r, N.add_0_r.
  - simpl. destruct (N.eqb_spec x 0) as [->|Hne].
    + exists j. by rewrite N.mul_0_r, N.add_0_r.
    + simpl. rewrite index_digit by (apply N.mod_upper_bound; lia).
      rewrite Nat2N.inj_succ, N.pow_succ_r' in Hx.
      destruct (IH (x / 58) (j * 58) (a + j * (x mod 58))) as [j' Hj'].
      { apply N.Div0.div_lt_upper_bound. lia. }
      exists j'. rewrite Hj'. f_equal.
      pose proof (N.div_mod x 58). lia.
Qed.

Lemma numZeros_ones l r :
  Forall (λ c, c = "1"%char) l → numZeros (l ++ r) = (length l + numZeros r)%nat.
Proof. induction 1 as [|c l -> _ IH]; simpl; [done|]. by rewrite IH. Qed.

Lemma numZeros_other c l : c ≠ "1"%char → numZeros (c :: l) = 0%nat.
Proof.
  by destruct c as [[] [] [] [] [] [] [] []].
Qed.

(** The digits of a number end with its leading digit, which is not the
    zero digit. *)
Lemma digits_last fuel x :
  x < 58 ^ N.of_nat fuel →
  b58.digits fuel x = [] ∨ ∃ l c, b58.digits fuel x = l ++ [c] ∧ c ≠ "1"%char.
Proof.
  revert x. induction fuel as [|fuel IH]; intros x Hx; simpl; [by left|].
  destruct (N.eqb_spec x 0) as [->|Hne]; [by left|]. right.
  rewrite Nat2N.inj_succ, N.pow_succ_r' in Hx.
  destruct (IH (x / 58)) as [Hnil|(l & c & Hl & Hc)].
  { apply N.Div0.div_lt_upper_bound. lia. }
  - rewrite Hnil. exists [], (b58.digit (x mod 58)). split; [done|].
    assert (x / 58 = 0) as Hq.
    { destruct fuel; simpl in Hnil.
      - simpl in Hx. apply N.div_small. lia.
      - destruct (N.eqb_spec (x / 58) 0); [done|discriminate]. }
    apply digit_not_one; [apply N.mod_upper_bound; lia|].
    pose proof (N.div_mod x 58). lia.
  - rewrite Hl. exists (b58.digit (x mod 58) :: l), c. by split.
Qed.

Lemma numZeros_rev_digits fuel x :
  x < 58 ^ N.of_nat fuel → numZeros (rev (b58.digits fuel x)) = 0%nat.
Proof.
  intros Hx. destruct (digits_last fuel x Hx) as [->|(l & c & -> & Hc)]; [done|].
  rewrite rev_app_distr. simpl. by apply numZeros_other.
Qed.

(** The leading zero bytes of a byte string, as the encoder counts them. *)
Lemma zeros_split b :
  ∃ n b', b = repeat "000"%byte n ++ b'
          ∧ b58.zeros b = repeat "1"%char n
          ∧ head b' ≠ Some "000"%byte.
Proof.
  induction b as [|a b (n & b' & Hb & Hz & Hh)].
  { by exists 0%nat, []. }
  destruct (decide (a = "000"%byte)) as [->|Hne].
  - exists (S n), b'. simpl. rewrite Hz. by rewrite Hb at 1.
  - exists 0%nat, (a :: b). split; [done|]. split; [|by intros [= ?]].
    by destruct a.
Qed.

Lemma fold_bytes l acc :
  fold_left (λ acc x, acc * 256 + Byte.to_N x) l acc
  = acc * 256 ^ N.of_nat (length l) + bytesToN l.
Proof.
  unfold bytesToN. revert acc. induction l as [|c l IH]; intros acc.
  - simpl. lia.
  - cbn [fold_left length]. rewrite IH, (IH (0 * 256 + Byte.to_N c)).
    rewrite Nat2N.inj_succ, N.pow_succ_r'. lia.
Qed.

Lemma bytesToN_cons c l :
  bytesToN (c :: l) = Byte.to_N c * 256 ^ N.of_nat (length l) + bytesToN l.
Proof. unfold bytesToN at 1. cbn [fold_left]. rewrite fold_bytes. lia. Qed.

Lemma bytesToN_bound l : bytesToN l < 256 ^ N.of_nat (length l).
Proof.
  induction l as [|c l IH].
  - by vm_compute.
  - rewrite bytesToN_cons. cbn [length]. rewrite Nat2N.inj_succ, N.pow_succ_r'.
    pose proof (Byte.to_N_bounded c). nia.
Qed.

Lemma bytesToN_zeros n l : bytesToN (repeat "000"%byte n ++ l) = bytesToN l.
Proof.
  induction n as [|n IH]; [done|]. simpl repeat. rewrite <- app_comm_cons.
  rewrite bytesToN_cons. change (Byte.to_N "000") with 0. by rewrite N.mul_0_l, N.add_0_l.
Qed.

Lemma beBytes_bytesToN l : beBytes (length l) (bytesToN l) = l.
Proof.
  induction l as [|c l IH] using rev_ind; [done|].
  rewrite length_app. simpl. rewrite Nat.add_1_r. simpl.
  rewrite bytesToN_snoc.
  pose proof (Byte.to_N_bounded c) as Hc.
  replace ((bytesToN l * 256 + Byte.to_N c) / 256) with (bytesToN l).
  2: { apply N.div_unique with (Byte.to_N c); lia. }
  rewrite IH. f_equal. f_equal. unfold byteOf.
  replace ((bytesToN l * 256 + Byte.to_N c) mod 256) with (Byte.to_N c).
  2: { apply N.mod_unique with (bytesToN l); lia. }
  by rewrite Byte.of_to_N.
Qed.

(** [Bytes] gives back a byte string that does not start with a zero. *)
Lemma Bytes_bytesToN l : head l ≠ Some "000"%byte → Bytes (bytesToN l) = l.
Proof.
  intros Hhead. unfold Bytes.
  assert (byteLength (bytesToN l) = length l) as ->; [|apply beBytes_bytesToN].
  destruct l as [|c l]; [done|].
  assert (1 ≤ Byte.to_N c) as Hc.
  { destruct (N.eq_dec (Byte.to_N c) 0) as [Hz|]; [|lia]. exfalso. apply Hhead.
    simpl. f_equal. pose proof (Byte.of_to_N c) as Hof. rewrite Hz in Hof.
    by injection Hof. }
  pose proof (bytesToN_bound (c :: l)) as Hhi.
  assert (256 ^ N.of_nat (length l) ≤ bytesToN (c :: l)) as Hlo.
  { rewrite bytesToN_cons. nia. }
  cbn [length] in *. rewrite Nat2N.inj_succ, N.pow_succ_r' in Hhi.
  set (x := bytesToN (c :: l)) in *. set (n := N.of_nat (length l)) in *.
  assert (0 < 256 ^ n) as Hpos by (apply N.neq_0_lt_0, N.pow_nonzero; lia).
  unfold byteLength. destruct (N.eqb_spec x 0) as [Hx|Hx]; [lia|]. f_equal.
  assert (N.log2 x / 8 = n) as ->; [|subst n; by rewrite Nat2N.id].
  change 256 with (2 ^ 8) in Hlo, Hhi. rewrite <- N.pow_mul_r in Hlo, Hhi.
  assert (8 * n ≤ N.log2 x) as Hl1.
  { rewrite <- (N.log2_pow2 (8 * n)) by lia. by apply N.log2_le_mono. }
  assert (N.log2 x < 8 * n + 8) as Hl2.
  { apply N.log2_lt_pow2; [lia|]. rewrite N.pow_add_r. lia. }
  symmetry. apply N.div_unique with (N.log2 x - 8 * n); lia.
Qed.

(** Decoding the encoding of a byte string gives the byte string. *)
Lemma Decode_Encode b : Decode (b58.Encode b) = b.
Proof.
  unfold Decode, b58.Encode. rewrite list_ascii_of_string_of_list_ascii.
  rewrite rev_involutive.
  destruct (zeros_split b) as (n & b' & Hb & Hz & Hh).
  assert (bytesToN b < 58 ^ N.of_nat (2 * length b)) as Hfuel.
  { eapply N.lt_le_trans; [apply bytesToN_bound|].
    rewrite Nat2N.inj_mul, N.pow_mul_r. change (58 ^ N.of_nat 2) with 3364.
    apply N.pow_le_mono_l. lia. }
  assert (Forall (λ c, c = "1"%char) (b58.zeros b)) as Hones.
  { rewrite Hz. apply Forall_forall. intros c Hc.
    by apply list_elem_of_In, repeat_spec in Hc. }
  destruct (accumulate_digits (2 * length b) (bytesToN b) (b58.zeros b) 1 0 Hfuel)
    as [j' ->].
  rewrite accumulate_ones by done.
  rewrite rev_app_distr, numZeros_ones by by apply Forall_rev.
  rewrite numZeros_rev_digits by done.
  rewrite length_rev, Hz, repeat_length, Nat.add_0_r, N.add_0_l, N.mul_1_l.
  rewrite Hb at 1. rewrite bytesToN_zeros, Bytes_bytesToN by done. by symmetry.
Qed.

End Base58Facts.

(* ------------------------------------------------------------------ *)
(** ** [DHT.Get] *)
(* ------------------------------------------------------------------ *)

Section GetFacts.
Context {Sto World : Type} {Net : networking World} {Str : Store Sto} {Ops : hashTableOps}.
Implicit Types (st : state Sto World).

(** What [DHT.Store] stored, [DHT.Get] of the key it returned finds in
    the local store: it returns the data and true, sends nothing and
    changes nothing. *)
Theorem Get_after_Store fuel fuel' data st s err st' :
  lawfulStore (Str := Str) →
  DHT_Store fuel data st = Ok (s, err) st' →
  DHT_Get fuel' s st' = Ok (Some data, true, None) st'.
Proof.
  intros Hlaw Hput. apply DHT_Store_stored in Hput as (-> & _ & Hstored); [|done].
  unfold DHT_Get, bind. rewrite Decode_Encode, Hstored. done.
Qed.


End GetFacts.

(* ------------------------------------------------------------------ *)
(** ** What a lookup sends; [Bootstrap]; the listen loop *)
(* ------------------------------------------------------------------ *)

Section LoopFacts.
Context {Sto World : Type} {Net : networking World} {Str : Store Sto} {Ops : hashTableOps}.
Implicit Types (st : state Sto World).

Local Abbreviation Traced P := (traced (Sto:=Sto) (World:=World) P).
Local Abbreviation Served := (served (Sto:=Sto) (World:=World)).
#[local] Existing Instance traced_refl.
#[local] Existing Instance traced_trans.
Local Arguments Nat.leb : simpl never.
Local Arguments Nat.eqb : simpl never.

Lemma round_calls t target data sl contacted st m c' st' :
  round t target sl contacted st = Ok (m, c') st' →
  Traced (lookupCall t target data) st st'.
Proof.
  intros Hround.
  apply round_inv in Hround
    as (qs & chans & results & st1 & st2 & m0 & Hsel & Hsend & Hawait & Hmerge & Hm).
  apply selectQueries_chosen in Hsel as (chosen & Hqs & _).
  apply traced_sendQueries in Hsend as (Hs1 & l1 & Hl1 & Hmsgs & Hexp & Hid1 & Hc1).
  pose proof (traced_awaitAll (lookupCall t target data) _ _ _ _ Hawait) as Htr2.
  pose proof (traced_mergeResults _ _ _ _ _ _ Hmerge) as Htr3.
  etrans; [|etrans; [exact Htr2|]].
  - split; [done|]. exists l1. repeat split; try done.
    apply Forall_forall. intros s Hs. right; left.
    assert (sent_msg s ∈ qs) as Hq by (rewrite <- Hmsgs; by apply list_elem_of_fmap_2).
    rewrite Hqs in Hq. apply list_elem_of_fmap in Hq as (n & Hn & _).
    exists (Self (ht st)), n. split; [done|].
    by eapply Forall_forall in Hexp.
  - eapply traced_weaken; [|exact Htr3]. intros s Hs. by left.
Qed.

Lemma storeAll_calls target data i nodes :
  preserves (Traced (lookupCall iterateStore target data)) (storeAll target data i nodes).
Proof.
  revert i. induction nodes as [|n nodes IH]; intros i; simpl; [apply preserves_ret, _|].
  destruct (k <=? i)%nat; [apply preserves_ret, _|].
  apply preserves_bind; [apply _|apply traced_getHt|]. intros h.
  apply preserves_bind; [apply _| |intros _; apply IH].
  apply traced_send. intros id. right; right. split; [done|]. by exists (Self h), n.
Qed.

Lemma finish_calls t target data sl :
  preserves (Traced (lookupCall t target data)) (finish t target data sl).
Proof.
  destruct t; simpl; try apply preserves_ret, _.
  apply preserves_bind; [apply _|apply storeAll_calls|]. intros _. apply preserves_ret, _.
Qed.

Lemma iterateLoop_calls fuel t target data sl contacted closestNode :
  preserves (Traced (lookupCall t target data))
            (iterateLoop fuel t target data sl contacted closestNode).
Proof.
  revert sl contacted closestNode.
  induction fuel as [|fuel IH]; intros sl contacted closestNode; simpl.
  { by intros st r st'. }
  apply preserves_bind; [apply _| |].
  { intros st [m c'] st'. apply round_calls. }
  intros [[v|sl'] c']; [apply preserves_ret, _|].
  destruct sl' as [|first rest]; [apply preserves_panic|].
  destruct (bytesEqual _ _); [apply finish_calls|apply IH].
Qed.

Lemma iterate_calls fuel t target data :
  preserves (Traced (lookupCall t target data)) (iterate fuel t target data).
Proof.
  unfold iterate. apply preserves_bind; [apply _|apply traced_getHt|]. intros h.
  destruct (getClosestContacts _ _ _ _); [apply preserves_ret, _|apply iterateLoop_calls].
Qed.

Lemma lookupCall_no_reply t target data l :
  Forall (lookupCall t target data) l → replies l = [].
Proof.
  induction 1 as [|s l Hs _ IH]; [done|].
  unfold replies in *. rewrite filter_cons_False; [done|].
  destruct Hs as [(_ & Hr & _)|[(self & n & -> & _)|(_ & self & n & -> & _)]].
  - by rewrite Hr.
  - by destruct t.
  - done.
Qed.

Lemma lookupCall_no_store t target data l :
  t ≠ iterateStore → Forall (lookupCall t target data) l → storeMessages l = [].
Proof.
  intros Ht. induction 1 as [|s l Hs _ IH]; [done|].
  unfold storeMessages in *. rewrite filter_cons_False; [done|].
  destruct Hs as [(Hty & _)|[(self & n & -> & _)|(Hst & _)]].
  - by rewrite Hty.
  - by destruct t.
  - done.
Qed.

(** Every call of [sendMessage] of a lookup is a liveness ping, a query of
    the lookup for its target that expects a response, or, in a Store
    lookup only, a store message for the target and the data that expects
    none. A lookup thus sends no response, and a FindNode or FindValue
    lookup sends no store message. *)
Theorem iterate_sends fuel t target data st r st' :
  iterate fuel t target data st = Ok r st' →
  ∃ l, sent st' = sent st ++ l
       ∧ Forall (lookupCall t target data) l
       ∧ replies l = []
       ∧ (t ≠ iterateStore → storeMessages l = []).
Proof.
  intros Hrun. apply iterate_calls in Hrun as [_ (l & Hl & HP & _)].
  exists l. split; [done|]. split; [done|].
  split; [by eapply lookupCall_no_reply|]. intros Ht. by eapply lookupCall_no_store.
Qed.

Lemma addNodes_self l st st' :
  addNodes l st = Ok tt st' → Self (ht st') = Self (ht st).
Proof.
  revert st. induction l as [|n l IH]; intros st; simpl; [by intros [= <-]|].
  unfold bind. destruct (addNode (newNode n) st) as [[] st1| |] eqn:Hadd; [|done..].
  intros Hrest. apply IH in Hrest. apply addNode_frame in Hadd as (_ & Hself & _).
  congruence.
Qed.

(** [Bootstrap] never returns an error and never writes to the local
    store; what it sends are liveness pings and FindNode queries for the
    node's own id, under successive message ids. *)
Theorem Bootstrap_spec fuel bootstrapNodes st err st' :
  Bootstrap fuel bootstrapNodes st = Ok err st' →
  err = None
  ∧ store st' = store st
  ∧ ∃ l, sent st' = sent st ++ l
         ∧ Forall (lookupCall iterateFindNode (ID (Self (ht st))) []) l
         ∧ idsFrom (msgCounter st) l.
Proof.
  unfold Bootstrap. unfold bind at 1.
  destruct (addNodes bootstrapNodes st) as [[] st1| |] eqn:Hadd; [|done..].
  unfold bind, getHt.
  destruct (iterate fuel iterateFindNode (ID (Self (ht st1))) [] st1)
    as [[[v cl] e] st2| |] eqn:Hit; [|done..].
  unfold ret. intros [= <- <-].
  pose proof (addNodes_self _ _ _ Hadd) as Hself.
  apply traced_addNodes in Hadd.
  pose proof (iterate_calls _ _ _ _ _ _ _ Hit) as Htr.
  apply iterate_no_error in Hit. simpl in Hit. rewrite Hself in Htr.
  assert (Traced (lookupCall iterateFindNode (ID (Self (ht st))) []) st st2)
    as [Hs (l & Hl & HP & Hid & _)].
  { etrans; [|exact Htr]. eapply traced_weaken; [|exact Hadd]. intros s Hs. by left. }
  split; [done|]. split; [done|]. by exists l.
Qed.

(** On a node whose routing table yields no contact, [DHT.Store] stores
    locally, sends nothing and returns the key; [DHT.Get] of a key that
    is not in the local store finds nothing and changes nothing; and
    [Bootstrap] without bootstrap nodes does nothing. None of them enters
    the loop of the lookup. *)
Theorem isolated_node fuel data key st :
  (∀ target, getClosestContacts (ht st) alpha target [] = []) →
  DHT_Store fuel data st
  = Ok (b58.Encode (data ++ SHA1.digest []), None)
       (withStored (data ++ SHA1.digest []) data st)
  ∧ (Store_Retrieve (b58Decode.Decode key) (store st) = None →
     DHT_Get fuel key st = Ok (None, false, None) st)
  ∧ Bootstrap fuel [] st = Ok None st.
Proof.
  intros Hnone. split; [|split].
  - unfold DHT_Store, bind. simpl. unfold SHA1.Sum, SHA1.New.
    fold (withStored (data ++ SHA1.digest []) data st).
    unfold iterate, bind, getHt. simpl. by rewrite Hnone.
  - intros Hmiss. unfold DHT_Get, bind. rewrite Hmiss.
    unfold iterate, bind, getHt. by rewrite Hnone.
  - unfold Bootstrap, bind, iterate, getHt. simpl. unfold bind. by rewrite Hnone.
Qed.

(** *** The listen loop *)

#[local] Instance served_refl : Reflexive Served.
Proof.
  intros st. repeat split; try done. exists []. by rewrite app_nil_r.
Qed.

#[local] Instance served_trans : Transitive Served.
Proof.
  intros st1 st2 st3 (Hs1 & Hn1 & Hb1 & Hd1 & Hi1 & l1 & Hl1 & HP1)
    (Hs2 & Hn2 & Hb2 & Hd2 & Hi2 & l2 & Hl2 & HP2).
  split; [congruence|]. split; [congruence|].
  split; [tauto|]. split; [tauto|]. split; [tauto|].
  exists (l1 ++ l2). rewrite Hl2, Hl1, <- app_assoc. split; [done|]. by apply Forall_app.
Qed.

Lemma served_addNode n : preserves Served (addNode n).
Proof.
  intros st [] st' Hadd.
  destruct (addNode_frame n st st' Hadd) as (Hlen & Hself & _).
  split; [done|]. split; [done|].
  split; [intros Hb; by eapply addNode_bounded|].
  split; [intros Hd; by eapply addNode_distinct|].
  split; [intros Hi; by eapply addNode_indexed|].
  apply traced_addNode in Hadd as [_ (l & Hl & HP & _)].
  exists l. split; [done|]. eapply Forall_impl; [exact HP|]. intros s Hs. by left.
Qed.

Lemma served_reply r id : msg_IsResponse r = true → preserves Served (reply r id).
Proof.
  intros Hr st [] st' Hrun. apply reply_sent in Hrun as (Hl & _ & Hht).
  unfold served. rewrite Hht. repeat split; try done.
  exists [mkSent r id false]. split; [done|]. constructor; [|done]. by right.
Qed.

Lemma served_quiet st st' : ht st' = ht st → sent st' = sent st → Served st st'.
Proof.
  intros Hht Hl. unfold served. rewrite Hht. repeat split; try done.
  exists []. by rewrite app_nil_r.
Qed.

Lemma served_handleMessage msg : preserves Served (handleMessage msg).
Proof.
  unfold handleMessage.
  destruct (msg_Type msg).
  - apply preserves_bind; [apply _| |intros h; by apply served_reply].
    intros st h st' [= _ <-]. reflexivity.
  - apply preserves_ret, _.
  - destruct (msg_Data msg); try apply preserves_panic.
    destruct (msg_Sender msg) as [sender|]; [|apply preserves_panic].
    apply preserves_bind; [apply _|apply served_addNode|]. intros _.
    intros st [] st' [= <-]. by apply served_quiet.
  - destruct (msg_Data msg); try apply preserves_panic.
    destruct (msg_Sender msg) as [sender|]; [|apply preserves_panic].
    apply preserves_bind; [apply _|apply served_addNode|]. intros _.
    apply preserves_bind; [apply _| |intros h; by apply served_reply].
    intros st h st' [= _ <-]. reflexivity.
  - apply preserves_ret, _.
  - destruct (msg_Data msg); try apply preserves_panic.
    destruct (msg_Sender msg) as [sender|]; [|apply preserves_panic].
    apply preserves_bind; [apply _|apply served_addNode|]. intros _.
    apply preserves_bind; [apply _| |intros h].
    { intros st h st' [= _ <-]. reflexivity. }
    apply preserves_bind; [apply _| |intros v; by apply served_reply].
    intros st v st' [= _ <-]. reflexivity.
  - apply preserves_ret, _.
Qed.

Lemma served_listen fuel : preserves Served (listen fuel).
Proof.
  induction fuel as [|fuel IH]; simpl; [by intros st [] st'|].
  apply preserves_bind; [apply _| |].
  - intros st m st'. destruct (getMessage (world st)) as [m' w]. intros [= _ <-].
    by apply served_quiet.
  - intros [m|]; [|apply preserves_ret, _].
    apply preserves_bind; [apply _|apply served_handleMessage|done].
Qed.

(** Whatever messages come in, the listen loop keeps the node's own
    address and the number of buckets; it keeps every bucket within [k]
    contacts, free of duplicate ids, and holding only contacts of its
    index; and it sends nothing but liveness pings and responses. *)
Theorem listen_serves fuel st st' :
  listen fuel st = Ok tt st' →
  Self (ht st') = Self (ht st)
  ∧ length (RoutingTable (ht st')) = length (RoutingTable (ht st))
  ∧ (bucketsBounded (ht st) → bucketsBounded (ht st'))
  ∧ (bucketsDistinct (ht st) → bucketsDistinct (ht st'))
  ∧ (bucketsIndexed (ht st) → bucketsIndexed (ht st'))
  ∧ ∃ l, sent st' = sent st ++ l ∧ Forall (λ s, isPing s ∨ isReply s) l.
Proof. apply served_listen. Qed.

(** The listen loop writes to the local store for a Store message only:
    the pair the message carries, handed to the store with two arguments;
    every other message leaves the store as it is. *)
Theorem handleMessage_store msg st st' :
  handleMessage msg st = Ok tt st' →
  store st' = match msg_Type msg, msg_Data msg with
              | messageTypeQueryStore, queryDataStore key data =>
                  Store_Store key data (store st)
              | _, _ => store st
              end.
Proof.
  unfold handleMessage.
  destruct (msg_Type msg).
  - unfold bind, getHt. intros Hr. by apply reply_sent in Hr as (_ & Hs & _).
  - by intros [= <-].
  - destruct (msg_Data msg); try done.
    destruct (msg_Sender msg) as [sender|]; [|done].
    unfold bind. destruct (addNode (newNode sender) st) as [[] st1| |] eqn:Hadd; [|done..].
    intros [= <-]. apply addNode_frame in Hadd as (_ & _ & Hs). simpl. by rewrite Hs.
  - destruct (msg_Data msg); try done.
    destruct (msg_Sender msg) as [sender|]; [|done].
    unfold bind at 1. destruct (addNode (newNode sender) st) as [[] st1| |] eqn:Hadd; [|done..].
    unfold bind, getHt. intros Hr. apply reply_sent in Hr as (_ & Hs & _).
    apply addNode_frame in Hadd as (_ & _ & Hs1). congruence.
  - by intros [= <-].
  - destruct (msg_Data msg); try done.
    destruct (msg_Sender msg) as [sender|]; [|done].
    unfold bind at 1. destruct (addNode (newNode sender) st) as [[] st1| |] eqn:Hadd; [|done..].
    unfold bind, getHt. intros Hr. apply reply_sent in Hr as (_ & Hs & _).
    apply addNode_frame in Hadd as (_ & _ & Hs1). congruence.
  - by intros [= <-].
Qed.

End LoopFacts.

(* ------------------------------------------------------------------ *)
(** ** The added properties on examples *)
(* ------------------------------------------------------------------ *)

Section MoreExamples.
Import Scenario.
#[local] Existing Instance tableOps.
#[local] Existing Instance dataStore.

Lemma dataStore_lawful : lawfulStore (Str := dataStore).
Proof.
  intros key key' d s. simpl. destruct (decide (key' = key)) as [->|Hne].
  - apply lookup_insert_eq.
  - apply lookup_insert_ne. intros Heq. by apply Hne, string_of_list_byte_inj.
Qed.


Lemma addNode_present_or_full_witness :
  (∃ bucket', RoutingTable (ht (after (addNode (Net := fixedNetwork crowdDead) newcomer crowded)
                                      crowded)) !! 5%nat = Some bucket'
              ∧ inBucket (ID newcomer) bucket' = true)
  ∨ ht (after (addNode (Net := fixedNetwork crowdDead) newcomer crowded) crowded) = ht crowded.
Proof.
  destruct (addNode_present_or_full (Net := fixedNetwork crowdDead) newcomer crowded
              (after (addNode (Net := fixedNetwork crowdDead) newcomer crowded) crowded))
    as [Hin|[Hsame _]].
  - vm_compute. reflexivity.
  - left. exact Hin.
  - right. exact Hsame.
Defined.

Lemma addNode_other_buckets_witness :
  RoutingTable (ht (after (addNode (Net := fixedNetwork crowdDead) newcomer crowded) crowded))
    !! 1%nat
  = RoutingTable (ht crowded) !! 1%nat.
Proof.
  destruct (addNode_other_buckets (Net := fixedNetwork crowdDead) newcomer crowded
              (after (addNode (Net := fixedNetwork crowdDead) newcomer crowded) crowded)
              1%nat) as [Hsame _].
  - vm_compute. reflexivity.
  - vm_compute. lia.
  - exact Hsame.
Defined.

Lemma emptyTable_distinct n : bucketsDistinct (emptyTable n).
Proof.
  apply Forall_forall. intros bucket Hin.
  apply list_elem_of_In, (repeat_spec 160 []) in Hin. subst bucket. constructor.
Qed.

Lemma emptyTable_indexed n : bucketsIndexed (emptyTable n).
Proof.
  intros i bucket m Hb Hm. apply list_elem_of_lookup_2, list_elem_of_In in Hb.
  apply (repeat_spec 160 []) in Hb. subst bucket. by apply elem_of_nil in Hm.
Qed.

Lemma addNode_no_duplicates_witness :
  bucketsDistinct
    (ht (after (addNodes (Net := fixedNetwork crowdDead) (crowd ++ [newcomer; newcomer])
                  (initial (emptyTable self) []))
               (initial (emptyTable self) []))).
Proof.
  apply (addNode_no_duplicates (Net := fixedNetwork crowdDead)
           (initial (emptyTable self) [])).
  - apply emptyTable_distinct.
  - apply (addNodes_reachable (crowd ++ [newcomer; newcomer])). vm_compute. reflexivity.
Defined.

Lemma addNode_keeps_index_witness :
  bucketsIndexed
    (ht (after (addNodes (Net := fixedNetwork crowdDead) (crowd ++ [newcomer])
                  (initial (emptyTable self) []))
               (initial (emptyTable self) []))).
Proof.
  apply (addNode_keeps_index (Net := fixedNetwork crowdDead)
           (initial (emptyTable self) [])).
  - apply emptyTable_indexed.
  - apply (addNodes_reachable (crowd ++ [newcomer])). vm_compute. reflexivity.
Defined.

Lemma selectQueries_at_most_alpha_witness :
  (length (selectQueries iterateFindNode self (idOf "001") 0 crowd {[ contactKey newcomer ]}).1
   ≤ alpha)%nat.
Proof.
  destruct (selectQueries_at_most_alpha iterateFindNode self (idOf "001") crowd
              {[ contactKey newcomer ]}
              (selectQueries iterateFindNode self (idOf "001") 0 crowd
                 {[ contactKey newcomer ]}).1
              (selectQueries iterateFindNode self (idOf "001") 0 crowd
                 {[ contactKey newcomer ]}).2) as [Hlen _].
  - by destruct (selectQueries _ _ _ _ _ _).
  - exact Hlen.
Defined.

(** A Store and a FindNode lookup of the node that knows peer 1. *)
Lemma townStore_runs :
  iterate (Net := fixedNetwork town) 5 iterateStore (idOf "001") (list_byte_of_string "v")
    newInTown
  = Ok (None, [], None)
       (after (iterate (Net := fixedNetwork town) 5 iterateStore (idOf "001")
                 (list_byte_of_string "v") newInTown) newInTown).
Proof. vm_compute. reflexivity. Qed.

Lemma townFindNode_runs :
  iterate (Net := fixedNetwork town) 5 iterateFindNode (idOf "001") [] newInTown
  = Ok (None, [nodeOf "001"; nodeOf "003"; nodeOf "002"], None)
       (after (iterate (Net := fixedNetwork town) 5 iterateFindNode (idOf "001") []
                 newInTown) newInTown).
Proof. vm_compute. reflexivity. Qed.

Lemma iterate_queries_once_witness :
  ∃ l, sent (after (iterate (Net := fixedNetwork town) 5 iterateStore (idOf "001")
                      (list_byte_of_string "v") newInTown) newInTown)
       = sent newInTown ++ l ∧ NoDup (queried l).
Proof. exact (iterate_queries_once _ _ _ _ _ _ _ townStore_runs). Defined.

Lemma iterate_keeps_store_witness :
  store (after (iterate (Net := fixedNetwork town) 5 iterateStore (idOf "001")
                  (list_byte_of_string "v") newInTown) newInTown)
  = store newInTown.
Proof. exact (iterate_keeps_store _ _ _ _ _ _ _ townStore_runs). Defined.

Lemma iterate_message_ids_witness :
  ∃ l, sent (after (iterate (Net := fixedNetwork town) 5 iterateStore (idOf "001")
                      (list_byte_of_string "v") newInTown) newInTown)
       = sent newInTown ++ l
       ∧ idsFrom (msgCounter newInTown) l
       ∧ msgCounter (after (iterate (Net := fixedNetwork town) 5 iterateStore (idOf "001")
                              (list_byte_of_string "v") newInTown) newInTown)
         = idAfter (length l) (msgCounter newInTown).
Proof. exact (iterate_message_ids _ _ _ _ _ _ _ townStore_runs). Defined.

Lemma iterate_result_shape_witness :
  (None : option (list byte)) = None ∧ (@nil NetworkNode) = [].
Proof.
  destruct (iterate_result_shape _ _ _ _ _ _ _ _ _ townStore_runs) as (_ & _ & Hstore).
  exact (Hstore eq_refl).
Defined.

Lemma iterate_closest_sorted_witness :
  Sorted (closer (idOf "001")) [nodeOf "001"; nodeOf "003"; nodeOf "002"].
Proof.
  destruct (iterate_closest_sorted _ _ _ _ _ _ _ _ townFindNode_runs) as (Hsorted & _).
  - done.
  - exact Hsorted.
Defined.

(** The node answers a FindValue message for a key it does not hold. *)
Lemma handleMessage_replies_witness :
  ∃ l r, sent (after (handleMessage (Net := fixedNetwork []) findValueRequest
                        (initial (emptyTable self) []))
                     (initial (emptyTable self) []))
         = sent (initial (emptyTable self) []) ++ l
         ∧ replies l = [mkSent r 8 false]
         ∧ msg_Type r = messageTypeResponseFindValue
         ∧ msg_Receiver r = Some (nodeOf "002").
Proof.
  destruct (handleMessage_replies (Net := fixedNetwork []) findValueRequest
              (initial (emptyTable self) [])
              (after (handleMessage (Net := fixedNetwork []) findValueRequest
                        (initial (emptyTable self) []))
                     (initial (emptyTable self) [])))
    as (l & Hl & r & Hr & Hty & _ & _ & Hto & _).
  - vm_compute. reflexivity.
  - exists l, r. split; [exact Hl|]. split; [exact Hr|]. split; [exact Hty|exact Hto].
Defined.


Lemma townStored_runs :
  DHT_Store (Net := fixedNetwork town) 5 (list_byte_of_string "hello") newInTown
  = Ok ("j1Q1Y5692WjzDiiiDnxok7A7cA9YxQh2PS"%string, None)
       (after (DHT_Store (Net := fixedNetwork town) 5 (list_byte_of_string "hello")
                 newInTown) newInTown).
Proof. vm_compute. reflexivity. Qed.

Lemma DHT_Store_stores_witness :
  Store_Retrieve (list_byte_of_string "hello" ++ SHA1.digest [])
    (store (after (DHT_Store (Net := fixedNetwork town) 5 (list_byte_of_string "hello")
                     newInTown) newInTown))
  = Some (list_byte_of_string "hello").
Proof.
  destruct (DHT_Store_stores _ _ _ _ _ _ dataStore_lawful townStored_runs) as (_ & _ & Hstored).
  exact Hstored.
Defined.

Lemma Get_after_Store_witness :
  DHT_Get (Net := fixedNetwork town) 0 "j1Q1Y5692WjzDiiiDnxok7A7cA9YxQh2PS"
    (after (DHT_Store (Net := fixedNetwork town) 5 (list_byte_of_string "hello")
              newInTown) newInTown)
  = Ok (Some (list_byte_of_string "hello"), true, None)
       (after (DHT_Store (Net := fixedNetwork town) 5 (list_byte_of_string "hello")
                 newInTown) newInTown).
Proof. exact (Get_after_Store _ 0 _ _ _ _ _ dataStore_lawful townStored_runs). Defined.



Lemma iterate_sends_witness :
  ∃ l, sent (after (iterate (Net := fixedNetwork town) 5 iterateStore (idOf "001")
                      (list_byte_of_string "v") newInTown) newInTown)
       = sent newInTown ++ l
       ∧ Forall (lookupCall iterateStore (idOf "001") (list_byte_of_string "v")) l
       ∧ replies l = []
       ∧ (iterateStore ≠ iterateStore → storeMessages l = []).
Proof. exact (iterate_sends _ _ _ _ _ _ _ townStore_runs). Defined.

Lemma townBootstrap_runs :
  Bootstrap (Net := fixedNetwork town) 5 [nodeOf "001"] (initial (emptyTable self) [])
  = Ok None
       (after (Bootstrap (Net := fixedNetwork town) 5 [nodeOf "001"]
                 (initial (emptyTable self) []))
              (initial (emptyTable self) [])).
Proof. vm_compute. reflexivity. Qed.

Lemma Bootstrap_spec_witness :
  store (after (Bootstrap (Net := fixedNetwork town) 5 [nodeOf "001"]
                  (initial (emptyTable self) []))
               (initial (emptyTable self) []))
  = store (initial (emptyTable self) []).
Proof.
  destruct (Bootstrap_spec _ _ _ _ _ townBootstrap_runs) as (_ & Hstore & _).
  exact Hstore.
Defined.

Lemma gather_empty buckets i count j fuel :
  Forall (λ bucket, bucket = []) buckets → gather buckets i count j fuel [] = [].
Proof.
  intros Hempty.
  assert (∀ i, default [] (buckets !! i) = []) as Hat.
  { intros i'. destruct (buckets !! i') as [bucket|] eqn:Hb; [|done].
    by eapply Forall_lookup_1 in Hempty. }
  revert j. induction fuel as [|fuel IH]; intros j; simpl; [done|].
  destruct (count <=? 0)%nat; [done|].
  destruct (j <=? i)%nat; rewrite !Hat; apply IH.
Qed.

Lemma emptyTable_isolated n count target :
  getClosestContacts (emptyTable n) count target [] = [].
Proof.
  assert (Forall (λ bucket : list node, bucket = []) (repeat [] 160)) as Hempty.
  { apply Forall_forall. intros bucket Hin.
    by apply list_elem_of_In, (repeat_spec 160 []) in Hin. }
  simpl. unfold closest. cbv zeta.
  assert (default [] (RoutingTable (emptyTable n)
                        !! bucketIndex (ID (Self (emptyTable n))) target) = []) as ->.
  { destruct (_ !! _) as [bucket|] eqn:Hb; [|done]. by eapply Forall_lookup_1 in Hempty. }
  rewrite gather_empty by exact Hempty. apply take_nil.
Qed.

Lemma isolated_node_witness :
  DHT_Store (Net := fixedNetwork []) 0 (list_byte_of_string "hello")
    (initial (emptyTable self) [])
  = Ok (b58.Encode (list_byte_of_string "hello" ++ SHA1.digest []), None)
       (withStored (list_byte_of_string "hello" ++ SHA1.digest [])
          (list_byte_of_string "hello") (initial (emptyTable self) [])).
Proof.
  destruct (isolated_node (Net := fixedNetwork []) 0 (list_byte_of_string "hello")
              EmptyString (initial (emptyTable self) [])) as (Hstore & _).
  - intros target. apply emptyTable_isolated.
  - exact Hstore.
Defined.

(** The node serves a Store message, a FindValue message and a ping, and
    the queue ends. *)
Lemma listen_runs :
  listen (Net := fixedNetwork []) 4
    (initial (emptyTable self) [storeRequest; findValueRequest; pingRequest])
  = Ok tt
       (after (listen (Net := fixedNetwork []) 4
                 (initial (emptyTable self) [storeRequest; findValueRequest; pingRequest]))
              (initial (emptyTable self) [])).
Proof. vm_compute. reflexivity. Qed.

Lemma listen_serves_witness :
  bucketsDistinct
    (ht (after (listen (Net := fixedNetwork []) 4
                  (initial (emptyTable self) [storeRequest; findValueRequest; pingRequest]))
               (initial (emptyTable self) [])))
  ∧ ∃ l, sent (after (listen (Net := fixedNetwork []) 4
                        (initial (emptyTable self)
                           [storeRequest; findValueRequest; pingRequest]))
                     (initial (emptyTable self) []))
         = sent (initial (emptyTable self) [storeRequest; findValueRequest; pingRequest])
           ++ l
         ∧ Forall (λ s, isPing s ∨ isReply s) l.
Proof.
  destruct (listen_serves _ _ _ listen_runs) as (_ & _ & _ & Hdistinct & _ & Hsent).
  split; [|exact Hsent]. apply Hdistinct, emptyTable_distinct.
Defined.

Lemma handleMessage_store_witness :
  store (after (handleMessage (Net := fixedNetwork []) storeRequest
                  (initial (emptyTable self) []))
               (initial (emptyTable self) []))
  = Store_Store (list_byte_of_string "k") (list_byte_of_string "v") ∅.
Proof.
  apply (handleMessage_store (Net := fixedNetwork []) storeRequest
           (initial (emptyTable self) [])).
  vm_compute. reflexivity.
Defined.

End MoreExamples.
